(** * UKB Git Audit Tool: history reconstruction and sensitive-ID scanning

    A shallow embedding of [src/utilities.py] and [src/git_audit.py]:
    the sensitive-ID regular expression and the matcher that runs it,
    the git log / ls-tree parsers, the per-blob content scan, the left
    joins that build the audit table and the derived occurrence columns.

    Python [str] values are sequences of Unicode code points; they are
    modelled as lists of [N].  External commands ([git ls-tree],
    [git show]) are oracles, and every call is recorded in an event log. *)

From Stdlib Require Import String Ascii DecimalString.
From Stdlib Require Import List NArith ZArith Lia Bool Permutation Sorted.
Import ListNotations.

Set Implicit Arguments.

(** ** Text *)

Definition char := N.
Definition text := list char.

(** A literal of the source, read as code points. *)
Definition ch (a : ascii) : char := N_of_ascii a.
Definition str (s : string) : text := map ch (list_ascii_of_string s).

Definition text_eq_dec : forall a b : text, {a = b} + {a <> b} :=
  list_eq_dec N.eq_dec.

Definition text_eqb (a b : text) : bool :=
  if text_eq_dec a b then true else false.

Definition opt_text_eqb (a b : option text) : bool :=
  match a, b with
  | Some x, Some y => text_eqb x y
  | None, None => true
  | _, _ => false
  end.

(** [s.startswith(p)] *)
Fixpoint startswith (s p : text) {struct p} : bool :=
  match p, s with
  | [], _ => true
  | c :: p', d :: s' => (c =? d)%N && startswith s' p'
  | _ :: _, [] => false
  end.

(** The characters ['0'] .. ['9'] of a bracket class [[0-9]]. *)
Definition ascii_digit (c : char) : bool := ((48 <=? c) && (c <=? 57))%N.

(** ** Regular expressions

    The fragment of Python's [re] syntax that the sources use: literals,
    bracket ranges, [\d], [^], concatenation, alternation, counted
    repetition, one capturing group, and negative look-around. *)

Inductive regex : Type :=
| Eps : regex
| Lit : char -> regex                  (* a literal character *)
| Range : char -> char -> regex        (* [lo-hi] *)
| Digit : regex                        (* \d *)
| Bol : regex                          (* ^ *)
| Cat : regex -> regex -> regex
| Alt : regex -> regex -> regex        (* r1|r2 *)
| Repeat : nat -> regex -> regex       (* r{n} *)
| Group : regex -> regex               (* ( r ) *)
| NotBehind : regex -> regex           (* (?<! r ) *)
| NotAhead : regex -> regex.           (* (?! r ) *)

Definition seq (rs : list regex) : regex := fold_right Cat Eps rs.
Definition lits (s : string) : regex := seq (map Lit (str s)).
Definition alts (r : regex) (rs : list regex) : regex :=
  fold_left Alt rs r.

(** The matcher's position in the subject: the characters before it in
    reverse order, the characters from it on, and the text captured by
    group 1 so far. *)
Record mstate : Type := MState {
  before : text;
  after : text;
  cap : option text
}.

(** Width of a pattern, as a look-behind needs it (all look-behind
    bodies of the sources are of fixed width). *)
Fixpoint width (r : regex) : nat :=
  match r with
  | Eps | Bol | NotBehind _ | NotAhead _ => 0
  | Lit _ | Range _ _ | Digit => 1
  | Cat r1 r2 => width r1 + width r2
  | Alt r1 _ => width r1
  | Repeat n r1 => n * width r1
  | Group r1 => width r1
  end.

(** Step [w] characters back. *)
Definition step_back (w : nat) (s : mstate) : mstate :=
  MState (skipn w (before s)) (rev (firstn w (before s)) ++ after s) (cap s).

Section Engine.

(** The class [\d] of a [str] pattern is the Unicode category Nd of the
    interpreter's character database. *)
Variable is_decimal : char -> bool.

Definition eat (p : char -> bool) (s : mstate)
           (k : mstate -> option mstate) : option mstate :=
  match after s with
  | c :: rest => if p c then k (MState (c :: before s) rest (cap s)) else None
  | [] => None
  end.

(** [n] copies of a matcher in sequence. *)
Fixpoint times (n : nat)
         (f : mstate -> (mstate -> option mstate) -> option mstate)
         (s : mstate) (k : mstate -> option mstate) : option mstate :=
  match n with
  | O => k s
  | S m => f s (fun s1 => times m f s1 k)
  end.

(** Backtracking matcher in continuation-passing style: [k] is the rest
    of the pattern; [None] is failure, and an alternation tries its
    right branch when the left one fails together with the rest. *)
Fixpoint run (r : regex) (s : mstate)
         (k : mstate -> option mstate) {struct r} : option mstate :=
  match r with
  | Eps => k s
  | Lit c => eat (N.eqb c) s k
  | Range lo hi => eat (fun d => (lo <=? d) && (d <=? hi))%N s k
  | Digit => eat is_decimal s k
  | Bol => match before s with [] => k s | _ :: _ => None end
  | Cat r1 r2 => run r1 s (fun s1 => run r2 s1 k)
  | Alt r1 r2 =>
      match run r1 s k with
      | Some e => Some e
      | None => run r2 s k
      end
  | Repeat n r1 => times n (run r1) s k
  | Group r1 =>
      run r1 s (fun e =>
        k (MState (before e) (after e)
             (Some (firstn (length (after s) - length (after e)) (after s)))))
  | NotBehind r1 =>
      let w := width r1 in
      if length (before s) <? w then k s
      else
        match run r1 (step_back w s)
                  (fun e => if length (after e) =? length (after s)
                            then Some e else None) with
        | Some _ => None
        | None => k s
        end
  | NotAhead r1 =>
      match run r1 s (fun e => Some e) with
      | Some _ => None
      | None => k s
      end
  end.

(** A match attempt at one position. *)
Definition match_here (r : regex) (b a : text) : option mstate :=
  run r (MState b a None) (fun e => Some e).

(** What [findall] reports for a match: group 1 when the pattern has
    one, the whole match otherwise. *)
Definition reported (a : text) (e : mstate) : text :=
  match cap e with
  | Some g => g
  | None => firstn (length a - length (after e)) a
  end.

(** [findall]'s scan, left to right; after a match of [n] characters
    the next attempt is made at its end, so [n - 1] positions are
    passed over ([skip]). *)
Fixpoint scan (r : regex) (b a : text) (skip : nat) {struct a} : list text :=
  let here := match skip with
              | O => match_here r b a
              | S _ => None
              end in
  match a with
  | [] => match here with Some e => [reported a e] | None => [] end
  | c :: a' =>
      match here with
      | Some e =>
          reported a e
            :: scan r (c :: b) a' (pred (length a - length (after e)))
      | None => scan r (c :: b) a' (pred skip)
      end
  end.

(** [re.findall(pattern, text)] *)
Definition findall (r : regex) (t : text) : list text := scan r [] t 0.

(** [re.search(pattern, text)]: the first position that matches. *)
Fixpoint search_from (r : regex) (b a : text) {struct a} : option mstate :=
  match match_here r b a with
  | Some e => Some e
  | None =>
      match a with
      | [] => None
      | c :: a' => search_from r (c :: b) a'
      end
  end.

Definition search (r : regex) (t : text) : option mstate := search_from r [] t.

(** [re.match(pattern, text)] *)
Definition re_match (r : regex) (t : text) : option mstate := match_here r [] t.

End Engine.

(** ** utilities.py *)

(** [regex_pattern()]:
    (?<!\d)(?<!\.)(?<!rs)(?<!RS)(?<!Rs)(?<!rS)
    (10[0-9]{5}|[1-5][0-9]{6}|6[0-4][0-9]{5}|6500000)(?!\d) *)
Definition d09 : regex := Range (ch "0") (ch "9").

Definition id_alternatives : regex :=
  alts (seq [lits "10"; Repeat 5 d09])
       [ seq [Range (ch "1") (ch "5"); Repeat 6 d09];
         seq [lits "6"; Range (ch "0") (ch "4"); Repeat 5 d09];
         lits "6500000" ].

Definition regex_pattern : regex :=
  seq [ NotBehind Digit;
        NotBehind (lits ".");
        NotBehind (lits "rs");
        NotBehind (lits "RS");
        NotBehind (lits "Rs");
        NotBehind (lits "rS");
        Group id_alternatives;
        NotAhead Digit ].

(** ** The sensitive-ID pattern in the spec's words

    A 7-digit integer in the range 1000000 .. 6500000, not preceded by
    another digit, a literal dot or "rs" in any letter case, and not
    followed by another digit. *)

Definition digit_val (c : char) : N := (c - ch "0")%N.

Definition decimal_value (ds : text) : N :=
  fold_left (fun acc c => (10 * acc + digit_val c)%N) ds 0%N.

Definition is_r (c : char) : bool := ((c =? ch "r") || (c =? ch "R"))%N.
Definition is_s (c : char) : bool := ((c =? ch "s") || (c =? ch "S"))%N.

Section SensitiveId.

Variable is_decimal : char -> bool.

(** [b] holds the preceding characters, nearest first. *)
Definition preceded_by_guard (b : text) : bool :=
  match b with
  | [] => false
  | c :: b' =>
      is_decimal c || (c =? ch ".")%N
      || (is_s c && match b' with p :: _ => is_r p | [] => false end)
  end.

Definition followed_by_digit (a : text) : bool :=
  match a with
  | [] => false
  | c :: _ => is_decimal c
  end.

Definition sensitive_id_at (b a : text) : option text :=
  let ds := firstn 7 a in
  if (length ds =? 7) && forallb ascii_digit ds
     && (1000000 <=? decimal_value ds)%N && (decimal_value ds <=? 6500000)%N
     && negb (preceded_by_guard b) && negb (followed_by_digit (skipn 7 a))
  then Some ds else None.

(** The identifiers at every position of a text, left to right. *)
Fixpoint sensitive_ids_from (b a : text) : list text :=
  match sensitive_id_at b a with Some ds => [ds] | None => [] end
  ++ match a with
     | [] => []
     | c :: a' => sensitive_ids_from (c :: b) a'
     end.

Definition sensitive_ids (t : text) : list text := sensitive_ids_from [] t.

End SensitiveId.

(** ** Fixed-width patterns

    On patterns without look-around or groups whose alternatives have the
    same width, the backtracking matcher decides membership of the next
    [width r] characters. *)

Fixpoint simple (r : regex) : bool :=
  match r with
  | Eps | Lit _ | Range _ _ | Digit => true
  | Cat r1 r2 => simple r1 && simple r2
  | Alt r1 r2 => simple r1 && simple r2 && (width r1 =? width r2)
  | Repeat _ r1 => simple r1
  | Bol | Group _ | NotBehind _ | NotAhead _ => false
  end.

Definition advance (w : nat) (s : mstate) : mstate :=
  MState (rev (firstn w (after s)) ++ before s) (skipn w (after s)) (cap s).

Section Accepts.

Variable is_decimal : char -> bool.

Definition one (p : char -> bool) (ds : text) : bool :=
  match ds with
  | [d] => p d
  | _ => false
  end.

Fixpoint accepts_times (n w : nat) (f : text -> bool) (ds : text) : bool :=
  match n with
  | O => true
  | S m => f (firstn w ds) && accepts_times m w f (skipn w ds)
  end.

Fixpoint accepts (r : regex) (ds : text) : bool :=
  match r with
  | Eps => true
  | Lit c => one (N.eqb c) ds
  | Range lo hi => one (fun d => (lo <=? d) && (d <=? hi))%N ds
  | Digit => one is_decimal ds
  | Cat r1 r2 =>
      accepts r1 (firstn (width r1) ds) && accepts r2 (skipn (width r1) ds)
  | Alt r1 r2 => accepts r1 ds || accepts r2 ds
  | Repeat n r1 => accepts_times n (width r1) (accepts r1) ds
  | Bol | Group _ | NotBehind _ | NotAhead _ => false
  end.

Definition fits (r : regex) (a : text) : bool :=
  (width r <=? length a) && accepts r (firstn (width r) a).

End Accepts.

(** ** Strings of the interpreter *)

(** [str.isspace]: the characters [str.strip()] and [str.split()] treat
    as white space. *)
Definition py_isspace (c : char) : bool :=
  (((9 <=? c) && (c <=? 13)) || ((28 <=? c) && (c <=? 32))
   || (c =? 133) || (c =? 160) || (c =? 5760)
   || ((8192 <=? c) && (c <=? 8202))
   || (c =? 8232) || (c =? 8233) || (c =? 8239) || (c =? 8287)
   || (c =? 12288))%N.

Fixpoint lstrip (t : text) : text :=
  match t with
  | c :: t' => if py_isspace c then lstrip t' else t
  | [] => []
  end.

(** [t.strip()] *)
Definition strip (t : text) : text := rev (lstrip (rev (lstrip t))).

(** [t.split(sep)] for a one-character separator: always at least one
    field. *)
Fixpoint split_on (sep : char) (t : text) : list text :=
  match t with
  | [] => [[]]
  | c :: t' =>
      if (c =? sep)%N then [] :: split_on sep t'
      else match split_on sep t' with
           | f :: fs => (c :: f) :: fs
           | [] => [[c]]
           end
  end.

(** [t.split(sep, 1)]: the text before the first separator, and the rest
    when there is one. *)
Fixpoint split_once (sep : char) (t : text) : text * option text :=
  match t with
  | [] => ([], None)
  | c :: t' =>
      if (c =? sep)%N then ([], Some t')
      else let (f, r) := split_once sep t' in (c :: f, r)
  end.

(** [t.split()]: the maximal runs of characters that are not white
    space. *)
Fixpoint split_ws_from (cur : text) (t : text) : list text :=
  match t with
  | [] => match cur with [] => [] | _ :: _ => [rev cur] end
  | c :: t' =>
      if py_isspace c
      then match cur with
           | [] => split_ws_from [] t'
           | _ :: _ => rev cur :: split_ws_from [] t'
           end
      else split_ws_from (c :: cur) t'
  end.

Definition split_ws (t : text) : list text := split_ws_from [] t.

(** [str(n)] of an [int], as an f-string renders it. *)
Definition show_int (z : Z) : text := str (NilZero.string_of_int (Z.to_int z)).

(** [bytes.decode("utf-8")], strict: [None] is [UnicodeDecodeError]. *)
Definition continuation (b : N) : bool := ((128 <=? b) && (b <=? 191))%N.

Fixpoint decode_utf8 (bs : list N) : option text :=
  match bs with
  | [] => Some []
  | b0 :: r0 =>
      if (b0 <? 128)%N then option_map (cons b0) (decode_utf8 r0)
      else if ((194 <=? b0) && (b0 <=? 223))%N then
        match r0 with
        | b1 :: r1 =>
            if continuation b1
            then option_map (cons ((b0 - 192) * 64 + (b1 - 128))%N)
                   (decode_utf8 r1)
            else None
        | _ => None
        end
      else if ((224 <=? b0) && (b0 <=? 239))%N then
        match r0 with
        | b1 :: b2 :: r2 =>
            if continuation b1 && continuation b2
               && (negb (b0 =? 224) || (160 <=? b1))%N
               && (negb (b0 =? 237) || (b1 <=? 159))%N
            then option_map
                   (cons ((b0 - 224) * 4096 + (b1 - 128) * 64 + (b2 - 128))%N)
                   (decode_utf8 r2)
            else None
        | _ => None
        end
      else if ((240 <=? b0) && (b0 <=? 244))%N then
        match r0 with
        | b1 :: b2 :: b3 :: r3 =>
            if continuation b1 && continuation b2 && continuation b3
               && (negb (b0 =? 240) || (144 <=? b1))%N
               && (negb (b0 =? 244) || (b1 <=? 143))%N
            then option_map
                   (cons ((b0 - 240) * 262144 + (b1 - 128) * 4096
                          + (b2 - 128) * 64 + (b3 - 128))%N)
                   (decode_utf8 r3)
            else None
        | _ => None
        end
      else None
  end.

Definition bytes_of (bs : list Byte.byte) : list N := map Byte.to_N bs.

(** ** Exceptions and effects

    Python code either returns or raises; the commands it runs and the
    lines it prints are kept in a log, in the order they happen. *)

Inductive exn : Type :=
| CalledProcessError | UnicodeDecodeError | UnboundLocalError
| ValueError | IndexError | KeyError.

Inductive outcome (A : Type) : Type :=
| Ok : A -> outcome A
| Raised : exn -> outcome A.
Arguments Ok {A} _.
Arguments Raised {A} _.

Inductive event : Type :=
| RanLsTree : text -> event      (* git ls-tree -r -z <commit> *)
| RanShow : text -> event        (* git show <blob> *)
| Printed : text -> event.       (* print(...) *)

Definition M (A : Type) : Type := (list event * outcome A)%type.

Definition ret {A : Type} (a : A) : M A := ([], Ok a).
Definition raise {A : Type} (e : exn) : M A := ([], Raised e).
Definition emit (ev : event) : M unit := ([ev], Ok tt).

Definition bind {A B : Type} (m : M A) (f : A -> M B) : M B :=
  match m with
  | (l, Ok a) => let (l', r) := f a in (l ++ l', r)
  | (l, Raised e) => (l, Raised e)
  end.

Definition lift {A : Type} (o : outcome A) : M A := ([], o).

(** [try: m  except <handled>: h] *)
Definition try_except {A : Type} (m : M A) (handled : exn -> bool) (h : M A)
  : M A :=
  match m with
  | (l, Raised e) => if handled e then let (l', r) := h in (l ++ l', r) else m
  | (_, Ok _) => m
  end.

Declare Scope py_scope.
Delimit Scope py_scope with py.
Notation "x <- m ;; k" := (bind m (fun x => k))
  (at level 61, m at next level, right associativity) : py_scope.
Notation "m ;;; k" := (bind m (fun _ => k))
  (at level 61, right associativity) : py_scope.

Definition obind {A B : Type} (o : outcome A) (f : A -> outcome B) : outcome B :=
  match o with
  | Ok a => f a
  | Raised e => Raised e
  end.

(** [l[i]] *)
Definition index {A : Type} (l : list A) (i : nat) : outcome A :=
  match nth_error l i with
  | Some a => Ok a
  | None => Raised IndexError
  end.

Definition events {A : Type} (m : M A) : list event := fst m.
Definition result {A : Type} (m : M A) : outcome A := snd m.

(** ** The interpreter's libraries and the audited repository *)

(** What the code takes from the interpreter and its libraries. *)
Record runtime : Type := Runtime {
  (** category Nd, the class [\d] *)
  is_decimal : char -> bool;
  (** [int(s)]; [None] is [ValueError] *)
  py_int : text -> option Z;
  (** [mimetypes.guess_type(name)[0]] *)
  guess_type : text -> option text;
  (** [pd.to_datetime(.., errors="coerce", utc=True)] rendered as
      dd/mm/yyyy; [None] is a date that does not parse *)
  to_date : option text -> option text;
  (** [sort_values(by=.., ascending=False)] with the default [kind] *)
  sort_values : forall A : Type, (A -> Z) -> list A -> list A
}.

(** A finished [subprocess.run(..., check=True)]. *)
Inductive completed (A : Type) : Type :=
| Exit0 : A -> text -> completed A       (* stdout, stderr *)
| NonZero : text -> completed A.         (* raises CalledProcessError *)
Arguments Exit0 {A} _ _.
Arguments NonZero {A} _.

(** One row of the object size table ([git cat-file --batch-check] over
    [git rev-list --objects --all], blobs only), with the columns
    [audit_repository] keeps of it. *)
Record size_record : Type := SizeRecord {
  sz_blob_hash : text;
  sz_size_bytes : Z
}.

(** The repository as the git commands show it. *)
Record repository : Type := Repository {
  git_log : text;                                  (* get_full_log() *)
  git_sizes : list size_record;                    (* blob_sizes_df *)
  git_ls_tree : text -> completed text;            (* text=True *)
  git_show : text -> completed (list Byte.byte)    (* raw bytes *)
}.

Local Open Scope py_scope.

Fixpoint traverse {A B : Type} (f : A -> outcome B) (l : list A)
  : outcome (list B) :=
  match l with
  | [] => Ok []
  | a :: l' =>
      obind (f a) (fun b => obind (traverse f l') (fun bs => Ok (b :: bs)))
  end.

(** ** Tables

    A DataFrame is the list of its rows.  Columns that can hold a null
    (None / NaN) have an [option] type. *)

(** full_log_df: one row per changed file per commit. *)
Module Log.
Record row : Type := Row {
  commit : option text;
  status : text;
  filename : text;
  date : option text;
  refs : option text;
  old_filename : text
}.
End Log.

(** blob_hashes_df: what a path points to in a commit's tree. *)
Module Tree.
Record row : Type := Row {
  commit : option text;
  blob_hash : text;
  filename : text
}.
End Tree.

(** glob_hash_hits: the content scan of one blob. *)
Module Scan.
Record row : Type := Row {
  blob_hash : text;
  eid_occ : option Z;              (* NaN when unreadable *)
  unique_occ : Z;
  found_ids : list (text * Z)      (* the object json.dumps renders; [] is "" *)
}.
End Scan.

(** final_df, without the constant columns (repo_name, repo_owner,
    repo_full_name, Decision, Justification), the links built from them
    and the floating-point size_MB. *)
Module Audit.
Record row : Type := Row {
  commit : option text;
  date : option text;
  status : text;
  filename : text;
  file_ext : text;
  blob_hash : option text;
  size_bytes : option Z;
  eid_occ : option Z;
  filename_occ : Z;
  total_occ : Z;
  unique_occ : option Z;
  found_ids : option (list (text * Z));
  refs : option text;
  old_filename : text
}.
End Audit.

(** [pd.DataFrame(records)] of a list of dicts takes its columns from the
    dicts: an empty list gives a frame without columns. *)
Definition has_columns {A : Type} (records : list A) : bool :=
  match records with
  | [] => false
  | _ :: _ => true
  end.

(** [df.empty] *)
Definition empty {A : Type} (df : list A) : bool := negb (has_columns df).

(** [Series.unique()]: the distinct values in order of first appearance. *)
Fixpoint unique_from {A : Type} (eqb : A -> A -> bool) (seen l : list A)
  : list A :=
  match l with
  | [] => []
  | x :: l' =>
      if existsb (eqb x) seen then unique_from eqb seen l'
      else x :: unique_from eqb (x :: seen) l'
  end.

Definition unique {A : Type} (eqb : A -> A -> bool) (l : list A) : list A :=
  unique_from eqb [] l.

(** [Series.dropna()] *)
Fixpoint dropna {A : Type} (l : list (option A)) : list A :=
  match l with
  | [] => []
  | Some a :: l' => a :: dropna l'
  | None :: l' => dropna l'
  end.

(** [pd.merge(left, right, how="left")]: every left row is kept, in
    order; it is paired with each right row of the same key, or with
    nulls when there is none. *)
Definition left_join {L R : Type} (on : L -> R -> bool)
           (left : list L) (right : list R) : list (L * option R) :=
  flat_map (fun l =>
              match filter (on l) right with
              | [] => [(l, None)]
              | ms => map (fun r => (l, Some r)) ms
              end) left.

(** The same when [right] comes from a list of dicts: the key columns are
    missing from a frame without columns. *)
Definition merge {L R : Type} (on : L -> R -> bool)
           (left : list L) (right : list R) : outcome (list (L * option R)) :=
  if has_columns right then Ok (left_join on left right) else Raised KeyError.

(** A Python dict with [str] keys, in insertion order. *)
Definition dict : Type := list (text * Z).

(** [d[k] += v] when [k in d], else [d[k] = v] *)
Fixpoint dict_add (d : dict) (k : text) (v : Z) : dict :=
  match d with
  | [] => [(k, v)]
  | (k', v') :: d' =>
      if text_eqb k' k then (k', (v' + v)%Z) :: d'
      else (k', v') :: dict_add d' k v
  end.

(** [collections.Counter(ids)] *)
Definition Counter (ids : list text) : dict :=
  fold_left (fun d i => dict_add d i 1%Z) ids [].

(** Insertion of [x] after the entries whose count is at least its own. *)
Fixpoint insert_desc (x : text * Z) (l : dict) : dict :=
  match l with
  | [] => [x]
  | y :: l' => if (snd y <? snd x)%Z then x :: l else y :: insert_desc x l'
  end.

(** [c.most_common(n)]: by count, largest first, equal counts in the
    order first met. *)
Definition most_common (n : nat) (c : dict) : dict :=
  firstn n (fold_left (fun acc x => insert_desc x acc) c []).

(** ** utilities.py, continued *)

Definition update_dictionary (ref_dic new_dic : dict) : dict :=
  fold_left (fun ref kv => dict_add ref (fst kv) (snd kv)) new_dic ref_dic.

(** The argument of [contextualise_git_status] is not always a [str]. *)
Inductive py_value : Type :=
| PyStr : text -> py_value
| PyNone : py_value
| PyInt : Z -> py_value
| PyNaN : py_value.

Definition similarity (rt : runtime) (label : string) (status : text)
  : outcome text :=
  match py_int rt (tl status) with
  | Some n => Ok (str label ++ show_int n ++ str "%")
  | None => Raised ValueError
  end.

Definition contextualise_git_status (rt : runtime) (status : py_value)
  : outcome text :=
  match status with
  | PyStr s =>
      if text_eqb s (str "A") then Ok (str "added")
      else if text_eqb s (str "D") then Ok (str "deleted")
      else if text_eqb s (str "M") then Ok (str "modified")
      else if text_eqb s (str "T") then Ok (str "type_change")
      else if text_eqb s (str "U") then Ok (str "unmerged_conflict")
      else if startswith s (str "R")
           then similarity rt "renamed_similarity_" s
      else if startswith s (str "B")
           then similarity rt "broken_pairing_similarity_" s
      else if startswith s (str "C")
           then similarity rt "copied_similarity_" s
      else Ok (str "unknown")
  | _ => Ok (str "unknown")
  end.

(** ** git_audit.py *)

Section GitAudit.

Variable rt : runtime.
Variable repo : repository.

(** The loop variables of [parse_full_log_to_dataframe]. *)
Record log_cursor : Type := LogCursor {
  current_commit : option text;
  current_date : option text;
  current_refs : option text
}.

(** r'^[A-Z]' *)
Definition status_line : regex := seq [Bol; Range (ch "A") (ch "Z")].

(** One turn of the loop over the lines: the cursor afterwards and the
    row appended to log_data, if any. *)
Definition parse_log_line (cur : log_cursor) (line : text)
  : outcome (log_cursor * list Log.row) :=
  if startswith line (str "COMMIT_START") then
    let parts := split_on (ch "|") line in
    obind (index parts 1) (fun c =>
    obind (index parts 2) (fun d =>
    obind (index parts 3) (fun r =>
      Ok (LogCursor (Some c) (Some d) (Some r), []))))
  else
    match re_match (is_decimal rt) status_line line with
    | None => Ok (cur, [])
    | Some _ =>
        let parts := split_on (ch "009") line in
        obind (index parts 0) (fun status =>
          if startswith status (str "R") then
            obind (index parts 1) (fun old_filename =>
            obind (index parts 2) (fun new_filename =>
              Ok (cur, [Log.Row (current_commit cur) status new_filename
                          (current_date cur) (current_refs cur)
                          old_filename])))
          else
            obind (index parts 1) (fun filename =>
              Ok (cur, [Log.Row (current_commit cur) status filename
                          (current_date cur) (current_refs cur) []])))
    end.

Fixpoint parse_log_lines (cur : log_cursor) (lines : list text)
  : outcome (list Log.row) :=
  match lines with
  | [] => Ok []
  | line :: rest =>
      obind (parse_log_line cur line) (fun '(cur', new) =>
      obind (parse_log_lines cur' rest) (fun rows => Ok (new ++ rows)))
  end.

Definition parse_full_log_to_dataframe (raw_log_output : text)
  : outcome (list Log.row) :=
  let lines := split_on (ch "010") (strip raw_log_output) in
  parse_log_lines (LogCursor None None None) lines.

(** f'{commit}' *)
Definition fmt (commit : option text) : text :=
  match commit with
  | Some c => c
  | None => str "None"
  end.

(** [subprocess.run(['git', 'ls-tree', '-r', '-z', commit], check=True)] *)
Definition run_ls_tree (commit : text) : M (text * text) :=
  emit (RanLsTree commit) ;;;
  match git_ls_tree repo commit with
  | Exit0 out err => ret (out, err)
  | NonZero _ => raise CalledProcessError
  end.

(** [subprocess.run(["git", "show", blob_hash], check=True)] *)
Definition run_show (blob_hash : text) : M (list Byte.byte) :=
  emit (RanShow blob_hash) ;;;
  match git_show repo blob_hash with
  | Exit0 out _ => ret out
  | NonZero _ => raise CalledProcessError
  end.

(** The body of the loop over [parts[:-1]]. *)
Definition parse_tree_part (commit : option text) (part : text)
  : outcome (list Tree.row) :=
  match split_once (ch "009") part with
  | (_, None) => Raised ValueError         (* header, filename = [header] *)
  | (header, Some filename) =>
      let header_parts := split_ws header in
      if (length header_parts =? 3)
         && text_eqb (nth 1 header_parts []) (str "blob")
      then Ok [Tree.Row commit (nth 2 header_parts []) filename]
      else Ok []
  end.

Definition parse_tree (commit : option text) (stdout : text)
  : outcome (list Tree.row) :=
  let parts := split_on (ch "000") stdout in
  obind (traverse (parse_tree_part commit) (removelast parts))
        (fun found => Ok (concat found)).

Definition is_called_process_error (e : exn) : bool :=
  match e with
  | CalledProcessError => true
  | _ => false
  end.

(** The loop of [get_blob_hashes_for_commits].  [ls_tree_cmd] is the
    local variable of that name: unbound until a [subprocess.run] has
    returned, and then the last result that did. *)
Fixpoint ls_tree_loop (commits : list (option text))
         (ls_tree_cmd : option (text * text)) (all_blob_data : list Tree.row)
  : M (list Tree.row) :=
  match commits with
  | [] => ret all_blob_data
  | commit :: rest =>
      st <- try_except
              (cmd <- run_ls_tree (fmt commit) ;;
               found <- lift (parse_tree commit (fst cmd)) ;;
               ret (Some cmd, all_blob_data ++ found))
              is_called_process_error
              (match ls_tree_cmd with
               | None => raise UnboundLocalError
               | Some cmd =>
                   emit (Printed (snd cmd)) ;;;
                   ret (ls_tree_cmd, all_blob_data)
               end) ;;
      ls_tree_loop rest (fst st) (snd st)
  end.

Definition get_blob_hashes_for_commits (commits : list (option text))
  : M (list Tree.row) :=
  ls_tree_loop (unique opt_text_eqb commits) None [].

Definition unreadable (e : exn) : bool :=
  match e with
  | CalledProcessError | UnicodeDecodeError => true
  | _ => false
  end.

Definition decode (out : list Byte.byte) : outcome text :=
  match decode_utf8 (bytes_of out) with
  | Some t => Ok t
  | None => Raised UnicodeDecodeError
  end.

(** The [try] block of the scan of one blob: eid_occ, unique_count,
    top_ids and the updated eid_dict. *)
Definition scan_blob (pattern : regex) (eid_dict : dict) (blob_hash : text)
  : M (option Z * Z * list (text * Z) * dict) :=
  try_except
    (out <- run_show blob_hash ;;
     text <- lift (decode out) ;;
     let ids := findall (is_decimal rt) pattern text in
     let eid_occ := Z.of_nat (length ids) in
     let unique_count := Z.of_nat (length (unique text_eqb ids)) in
     if (eid_occ =? 0)%Z
     then ret (Some eid_occ, unique_count, [], eid_dict)
     else
       let c := Counter ids in
       ret (Some eid_occ, unique_count, most_common 5 c,
            update_dictionary eid_dict c))
    unreadable
    (ret (None, 0%Z, [], eid_dict)).

Fixpoint scan_loop (pattern : regex) (unique_blobs : list text)
         (rows : list Scan.row) (eid_dict : dict)
  : M (list Scan.row * dict) :=
  match unique_blobs with
  | [] => ret (rows, eid_dict)
  | blob_hash :: rest =>
      r <- scan_blob pattern eid_dict blob_hash ;;
      let '(eid_occ, unique_count, top_ids, eid_dict') := r in
      scan_loop pattern rest
        (rows ++ [Scan.Row blob_hash eid_occ unique_count top_ids])
        eid_dict'
  end.

(** [df] is the blob_hash column of the table, the only one read. *)
Definition analyze_glob_hashes_for_pattern (df : list (option text))
           (pattern : regex) : M (list Scan.row * dict) :=
  let unique_blobs := unique text_eqb (dropna df) in
  scan_loop pattern unique_blobs [] [].

End GitAudit.

(** *** audit_repository *)

(** final_df after the three merges: the change event, its tree entry,
    the size of the blob and its scan. *)
Definition joined : Type :=
  (((Log.row * option Tree.row) * option size_record) * option Scan.row)%type.

Definition j_log (j : joined) : Log.row := fst (fst (fst j)).
Definition j_tree (j : joined) : option Tree.row := snd (fst (fst j)).
Definition j_size (j : joined) : option size_record := snd (fst j).
Definition j_scan (j : joined) : option Scan.row := snd j.

(** on=['commit', 'filename'] *)
Definition on_commit_filename (l : Log.row) (t : Tree.row) : bool :=
  opt_text_eqb (Log.commit l) (Tree.commit t)
  && text_eqb (Log.filename l) (Tree.filename t).

(** The blob_hash column after the first merge. *)
Definition merged_blob_hash (m : Log.row * option Tree.row) : option text :=
  option_map Tree.blob_hash (snd m).

(** on='blob_hash' *)
Definition on_blob_hash {L R : Type} (lkey : L -> option text) (rkey : R -> text)
           (l : L) (r : R) : bool :=
  opt_text_eqb (lkey l) (Some (rkey r)).

(** [Series.fillna(0)] *)
Definition fillna0 (x : option Z) : Z :=
  match x with
  | Some n => n
  | None => 0%Z
  end.

Inductive report : Type :=
| NoCommits : report      (* the placeholder "No commits or data to audit" *)
| NoFindings : report     (* the placeholder "No findings to report." *)
| Report : list Audit.row -> dict -> report.   (* final_df, total_eids_df *)

Section AuditRepository.

Variable rt : runtime.
Variable repo : repository.

(** The columns [analyse_file_names] adds: filename_occ and file_ext. *)
Definition filename_occ_of (pattern : regex) (filename : text) : Z :=
  match search (is_decimal rt) pattern filename with
  | Some _ => 1%Z
  | None => 0%Z
  end.

Definition file_ext_of (filename : text) : text :=
  match guess_type rt filename with
  | Some (c :: t) => c :: t
  | _ => str "unknown"
  end.

Definition analyse_file_names (df : list joined) (pattern : regex)
  : list (joined * Z * text) :=
  map (fun j =>
         let filename := Log.filename (j_log j) in
         (j, filename_occ_of pattern filename, file_ext_of filename)) df.

(** A row of final_df once the date, the status and total_occ are in
    place.  The assignment of line 308 (eid_occ + filename_occ, NaN
    when eid_occ is) is replaced by the one of lines 316-319 before it
    is read. *)
Definition finish_row (named : joined * Z * text) (status : text) : Audit.row :=
  let '(j, filename_occ, file_ext) := named in
  let eid_occ := match j_scan j with
                 | Some s => Scan.eid_occ s
                 | None => None
                 end in
  Audit.Row
    (Log.commit (j_log j))
    (to_date rt (Log.date (j_log j)))
    status
    (Log.filename (j_log j))
    file_ext
    (option_map Tree.blob_hash (j_tree j))
    (option_map sz_size_bytes (j_size j))
    eid_occ
    filename_occ
    (fillna0 eid_occ + fillna0 (Some filename_occ))%Z
    (option_map Scan.unique_occ (j_scan j))
    (option_map Scan.found_ids (j_scan j))
    (Log.refs (j_log j))
    (Log.old_filename (j_log j)).

(** final_df just before [sort_values]. *)
Definition unsorted_audit : M (option (list Audit.row * dict)) :=
  full_log_df <- lift (parse_full_log_to_dataframe rt (git_log repo)) ;;
  if negb (has_columns full_log_df) || empty full_log_df then ret None
  else
    blob_hashes_df <-
      get_blob_hashes_for_commits repo (map Log.commit full_log_df) ;;
    merged_df <- lift (merge on_commit_filename full_log_df blob_hashes_df) ;;
    let final_df :=
      left_join (on_blob_hash merged_blob_hash sz_blob_hash)
        merged_df (git_sizes repo) in
    hits <- analyze_glob_hashes_for_pattern rt repo
              (map (fun r => merged_blob_hash (fst r)) final_df)
              regex_pattern ;;
    let '(glob_hash_hits, total_eids_df) := hits in
    final_df <-
      lift (merge (on_blob_hash (fun r => merged_blob_hash (fst r))
                     Scan.blob_hash)
              final_df glob_hash_hits) ;;
    let named := analyse_file_names final_df regex_pattern in
    statuses <-
      lift (traverse
              (fun n : joined * Z * text =>
                 contextualise_git_status rt
                   (PyStr (Log.status (j_log (fst (fst n))))))
              named) ;;
    ret (Some (map (fun ns => finish_row (fst ns) (snd ns))
                 (combine named statuses),
               total_eids_df)).

Definition audit_repository : M report :=
  r <- unsorted_audit ;;
  match r with
  | None => ret NoCommits
  | Some (final_df, total_eids_df) =>
      if negb (empty final_df)
      then ret (Report (sort_values rt Audit.total_occ final_df)
                       (sort_values rt snd total_eids_df))
      else ret NoFindings
  end.

End AuditRepository.

(** ** [sort_values] as pandas and numpy compute it

    [DataFrame.sort_values(by=col, ascending=False)] takes the rows in
    the order [nargsort] gives: the column is reversed, numpy's
    [argsort(kind='quicksort')] sorts it in ascending order, and the
    result is reversed again.  numpy's quicksort is an introsort, here
    its generic kernel [aquicksort_]: it partitions a segment of more
    than 17 entries around the median of three, sorts shorter segments
    by insertion, and turns to heap sort when the depth limit is used
    up.  [argsort] permutes an array of row numbers; the model permutes
    the rows themselves, which comes to the same table. *)

Section Introsort.

Variable A : Type.
Variable key : A -> Z.

(** [a[i] = x] *)
Fixpoint store (a : list A) (i : nat) (x : A) : list A :=
  match a, i with
  | [], _ => []
  | _ :: a', 0 => x :: a'
  | y :: a', S i' => y :: store a' i' x
  end.

(** [INTP_SWAP(a[i], a[j])] *)
Definition swap (d : A) (a : list A) (i j : nat) : list A :=
  store (store a i (nth j a d)) j (nth i a d).

Definition less (x y : A) : bool := (key x <? key y)%Z.

(** The insertion sort of a segment: each entry goes left past the
    entries that are greater.  The sorted part is kept last first. *)
Fixpoint shift_in (x : A) (sorted : list A) : list A :=
  match sorted with
  | y :: sorted' => if less x y then y :: shift_in x sorted' else x :: sorted
  | [] => [x]
  end.

Definition insertion_sort (a : list A) : list A :=
  rev (fold_left (fun sorted x => shift_in x sorted) a []).

(** The median of three: the entries at [pl], [pm] and [pr] in order. *)
Definition median_of_three (d : A) (a : list A) : list A :=
  let pm := (length a - 1) / 2 in
  let pr := length a - 1 in
  let a1 := if less (nth pm a d) (nth 0 a d) then swap d a pm 0 else a in
  let a2 := if less (nth pr a1 d) (nth pm a1 d) then swap d a1 pr pm else a1 in
  if less (nth pm a2 d) (nth 0 a2 d) then swap d a2 pm 0 else a2.

(** [do ++pi; while (v[*pi] < vp)]: the entries below the pivot value
    at the head of [l]. *)
Fixpoint run_less (vp : Z) (l : list A) : nat :=
  match l with
  | x :: l' => if (key x <? vp)%Z then S (run_less vp l') else 0
  | [] => 0
  end.

Definition scan_up (vp : Z) (a : list A) (i : nat) : nat :=
  i + run_less vp (skipn i a).

(** [do --pj; while (vp < v[*pj])], from [j] down *)
Fixpoint scan_down (d : A) (vp : Z) (a : list A) (j : nat) : nat :=
  if (vp <? key (nth j a d))%Z
  then match j with
       | 0 => 0
       | S j' => scan_down d vp a j'
       end
  else j.

(** The two pointers walk towards each other and exchange what they stop
    at, until they meet. *)
Fixpoint hoare (fuel : nat) (d : A) (vp : Z) (a : list A) (pi pj : nat)
  : list A * nat :=
  match fuel with
  | 0 => (a, pi)
  | S fuel' =>
      let pi' := scan_up vp a (S pi) in
      let pj' := scan_down d vp a (pj - 1) in
      if pj' <=? pi' then (a, pi')
      else hoare fuel' d vp (swap d a pi' pj') pi' pj'
  end.

(** One partition of a segment of more than 17 entries: the entries left
    of the pivot, the pivot, the entries right of it. *)
Definition quick_partition (d : A) (a : list A) : list A * A * list A :=
  let n := length a in
  let pm := (n - 1) / 2 in
  let a3 := median_of_three d a in
  let vp := key (nth pm a3 d) in
  let a4 := swap d a3 pm (n - 2) in
  let (a5, pi) := hoare n d vp a4 0 (n - 2) in
  let a6 := swap d a5 pi (n - 2) in
  (firstn pi a6, nth pi a6 d, skipn (S pi) a6).

(** [aheapsort_], the array indexed from 1. *)
Definition at1 (d : A) (a : list A) (i : nat) : A := nth (i - 1) a d.
Definition store1 (a : list A) (i : nat) (x : A) : list A := store a (i - 1) x.

(** [tmp] sinks from [i]: the greater child moves up while it is greater
    than [tmp]. *)
Fixpoint sift (fuel : nat) (d : A) (tmp : A) (a : list A) (i n : nat)
  : list A :=
  match fuel with
  | 0 => store1 a i tmp
  | S fuel' =>
      let j := i + i in
      if j <=? n
      then let j := if (j <? n) && less (at1 d a j) (at1 d a (j + 1))
                    then j + 1 else j in
           if less tmp (at1 d a j)
           then sift fuel' d tmp (store1 a i (at1 d a j)) j n
           else store1 a i tmp
      else store1 a i tmp
  end.

(** [for (l = n >> 1; l > 0; --l)] *)
Fixpoint heapify (d : A) (a : list A) (l n : nat) : list A :=
  match l with
  | 0 => a
  | S l' => heapify d (sift n d (at1 d a l) a l n) l' n
  end.

(** [for (; n > 1;)] *)
Fixpoint sort_down (d : A) (a : list A) (n : nat) : list A :=
  match n with
  | 0 => a
  | S n' =>
      match n' with
      | 0 => a
      | S _ =>
          let tmp := at1 d a n in
          let a' := store1 a n (at1 d a 1) in
          sort_down d (sift n' d tmp a' 1 n') n'
      end
  end.

Definition aheapsort (d : A) (a : list A) : list A :=
  let n := length a in
  sort_down d (heapify d a (n / 2) n) n.

(** [aquicksort_] on one segment.  After a partition the longer side goes
    on the stack with the depth left; when it is taken up again
    ([popped]) and no depth is left, it is heap sorted.  The shorter side
    is gone on with at once. *)
Fixpoint introsort (fuel : nat) (cdepth : Z) (popped : bool) (a : list A)
  : list A :=
  match fuel with
  | 0 => a
  | S fuel' =>
      match a with
      | [] => []
      | d :: _ =>
          if popped && (cdepth <? 0)%Z then aheapsort d a
          else if 16 <? length a - 1
          then let '(lo, pivot, hi) := quick_partition d a in
               let depth := (cdepth - 1)%Z in
               if length lo <? length hi
               then introsort fuel' depth false lo
                    ++ pivot :: introsort fuel' depth true hi
               else introsort fuel' depth true lo
                    ++ pivot :: introsort fuel' depth false hi
          else insertion_sort a
      end
  end.

(** The depth limit is twice the position of the highest bit of the
    length. *)
Definition aquicksort (a : list A) : list A :=
  introsort (S (length a)) (2 * Z.of_nat (Nat.log2 (length a))) true a.

(** [nargsort(.., ascending=False)] and the take. *)
Definition pandas_sort_values (l : list A) : list A :=
  rev (aquicksort (rev l)).

(** Keys that do not decrease. *)
Definition ascending (l : list A) : Prop :=
  StronglySorted (fun x y => (key x <= key y)%Z) l.

(** In a heap indexed from 1 the children of [p] are at [2p] and
    [2p + 1]. *)
Definition child (p c : nat) : Prop := c = p + p \/ c = p + p + 1.

(** The entries [lo..n] are a heap: no child is greater than its parent. *)
Definition heap_on (d : A) (lo n : nat) (a : list A) : Prop :=
  forall p c, lo <= p -> c <= n -> child p c ->
    (key (at1 d a c) <= key (at1 d a p))%Z.

(** A heap but for the entry at [i], where [tmp] is to go. *)
Definition hole_at (d : A) (lo n i : nat) (tmp : A) (a : list A) : Prop :=
  (forall p c, lo <= p -> c <= n -> child p c -> p <> i -> c <> i ->
     (key (at1 d a c) <= key (at1 d a p))%Z)
  /\ (forall p c, lo <= p -> c <= n -> child p i -> child i c ->
        (key (at1 d a c) <= key (at1 d a p))%Z)
  /\ (forall p, lo <= p -> child p i -> (key tmp <= key (at1 d a p))%Z).

End Introsort.

(** ** A small runtime and repository to run the model on *)

(** Insertion into a list sorted by [key], largest first: after the
    elements of the same key ([strict]) or before them. *)
Fixpoint insert_by {A : Type} (strict : bool) (key : A -> Z) (x : A)
         (l : list A) : list A :=
  match l with
  | [] => [x]
  | y :: l' =>
      if (if strict then key y <? key x else key y <=? key x)%Z
      then x :: l
      else y :: insert_by strict key x l'
  end.

Definition sort_by {A : Type} (strict : bool) (key : A -> Z) (l : list A)
  : list A :=
  fold_left (fun acc x => insert_by strict key x acc) l [].

(** A stand-in for [int]: white space around an optional sign and
    ASCII digits. *)
Fixpoint digits_value (acc : Z) (t : text) : option Z :=
  match t with
  | [] => Some acc
  | c :: t' =>
      if ascii_digit c
      then digits_value (10 * acc + Z.of_N (digit_val c))%Z t'
      else None
  end.

Definition int_of_text (t : text) : option Z :=
  match strip t with
  | [] => None
  | c :: t' =>
      if (c =? ch "-")%N
      then match t' with
           | [] => None
           | _ :: _ => option_map Z.opp (digits_value 0%Z t')
           end
      else if (c =? ch "+")%N
      then match t' with
           | [] => None
           | _ :: _ => digits_value 0%Z t'
           end
      else digits_value 0%Z (c :: t')
  end.

(** Decimal digits of ASCII and the Arabic-Indic block. *)
Definition some_decimals (c : char) : bool :=
  (ascii_digit c || ((1632 <=? c) && (c <=? 1641)))%N.

(** A stand-in for [mimetypes.guess_type] that knows one extension. *)
Definition txt_only (name : text) : option text :=
  if startswith (rev name) (rev (str ".txt")) then Some (str "text/plain")
  else None.

(** Its [sort_values] is the insertion sort that keeps rows of equal key
    in order. *)
Definition small_runtime : runtime :=
  Runtime some_decimals int_of_text txt_only (fun d => d)
          (fun A key l => sort_by true key l).

Definition LF : text := [10%N].
Definition TAB : text := [9%N].
Definition NUL : text := [0%N].

(** A history of two commits: the first adds 1234567.txt and two copies of
    a binary file, the second deletes 1234567.txt. *)

Definition small_log : text :=
  str "COMMIT_START|c2|2024-01-02T10:00:00+00:00| (HEAD -> main)" ++ LF
  ++ str "D" ++ TAB ++ str "1234567.txt" ++ LF ++ LF
  ++ str "COMMIT_START|c1|2024-01-01T10:00:00+00:00|" ++ LF
  ++ str "A" ++ TAB ++ str "1234567.txt" ++ LF
  ++ str "A" ++ TAB ++ str "notes.txt" ++ LF
  ++ str "A" ++ TAB ++ str "readme.txt" ++ LF.

Definition small_ls_tree (commit : text) : completed text :=
  if text_eqb commit (str "c1")
  then Exit0 (str "100644 blob b1" ++ TAB ++ str "1234567.txt" ++ NUL
              ++ str "100644 blob b2" ++ TAB ++ str "notes.txt" ++ NUL
              ++ str "100644 blob b2" ++ TAB ++ str "readme.txt" ++ NUL) []
  else if text_eqb commit (str "c2")
  then Exit0 (str "100644 blob b2" ++ TAB ++ str "notes.txt" ++ NUL
              ++ str "100644 blob b2" ++ TAB ++ str "readme.txt" ++ NUL) []
  else NonZero (str "fatal: not a tree object").

Definition small_show (blob : text) : completed (list Byte.byte) :=
  if text_eqb blob (str "b1")
  then Exit0 (list_byte_of_string "eid 1234567 and 2345678, 1234567 again") []
  else if text_eqb blob (str "b2")
  then Exit0 [Byte.xff; Byte.xfe] []
  else NonZero (str "fatal: bad object").

Definition small_repo : repository :=
  Repository small_log
    [SizeRecord (str "b1") 38; SizeRecord (str "b2") 2]
    small_ls_tree small_show.

(** ** Vocabulary of the statements *)

(** The status codes compared with [==], and those tested by prefix. *)
Definition exact_code (s : text) : bool :=
  text_eqb s (str "A") || text_eqb s (str "D") || text_eqb s (str "M")
  || text_eqb s (str "T") || text_eqb s (str "U").

Definition similarity_code (s : text) : bool :=
  startswith s (str "R") || startswith s (str "B") || startswith s (str "C").

(** Seven ASCII digits that read as a number from 1000000 to 6500000. *)
Definition in_id_range (ds : text) : bool :=
  (length ds =? 7) && forallb ascii_digit ds
  && (1000000 <=? decimal_value ds)%N && (decimal_value ds <=? 6500000)%N.

(** A field of a tab-separated line. *)
Definition no_tab (t : text) : bool :=
  forallb (fun c => negb (c =? ch "009")%N) t.



(** The text of a blob, when [git show] succeeds and its output is
    UTF-8. *)
Definition content (repo : repository) (h : text) : option text :=
  match git_show repo h with
  | Exit0 out _ => decode_utf8 (bytes_of out)
  | NonZero _ => None
  end.

(** The sum of the counts of a frequency table. *)
Definition sum_counts (d : dict) : Z := fold_right Z.add 0%Z (map snd d).

(** The sum of the eid_occ column, NaN counted as 0. *)
Definition sum_eid_occ (rows : list Scan.row) : Z :=
  fold_right Z.add 0%Z (map (fun r => fillna0 (Scan.eid_occ r)) rows).

(** The identifiers found in a blob; none when it is unreadable. *)
Definition ids_of (rt : runtime) (repo : repository) (pattern : regex)
           (h : text) : list text :=
  match content repo h with
  | Some t => findall (is_decimal rt) pattern t
  | None => []
  end.

(** The row [analyze_glob_hashes_for_pattern] builds for a blob. *)
Definition scan_row_of (rt : runtime) (repo : repository) (pattern : regex)
           (h : text) : Scan.row :=
  let ids := ids_of rt repo pattern h in
  Scan.Row h
    (option_map (fun _ => Z.of_nat (length ids)) (content repo h))
    (Z.of_nat (length (unique text_eqb ids)))
    (most_common 5 (Counter ids)).

(** Keys that do not increase. *)
Definition descending {A : Type} (key : A -> Z) (l : list A) : Prop :=
  StronglySorted (fun a b => (key b <= key a)%Z) l.

(** [sort_values] returns the rows it was given. *)
Definition sort_values_permutes (rt : runtime) : Prop :=
  forall (A : Type) (key : A -> Z) (l : list A),
    Permutation (sort_values rt key l) l.

(** The rows of each key are in the same order in [post] as in [pre]. *)
Definition keeps_tie_order {A : Type} (key : A -> Z) (pre post : list A)
  : Prop :=
  forall k : Z,
    filter (fun r => (key r =? k)%Z) post = filter (fun r => (key r =? k)%Z) pre.

(** The tables of the audit of the small repository, evaluated. *)
Definition small_log_df : list Log.row :=
  Eval vm_compute in
    match parse_full_log_to_dataframe small_runtime small_log with
    | Ok df => df
    | Raised _ => []
    end.

Definition small_blob_hashes_df : list Tree.row :=
  Eval vm_compute in
    match result (get_blob_hashes_for_commits small_repo
                    (map Log.commit small_log_df)) with
    | Ok df => df
    | Raised _ => []
    end.

Definition small_final : list Audit.row * dict :=
  match result (audit_repository small_runtime small_repo) with
  | Ok (Report final eids) => (final, eids)
  | _ => ([], [])
  end.

Definition small_final_stable : list Audit.row * dict :=
  Eval vm_compute in small_final.

(** The deletion of the second commit. *)
Definition small_deletion : Log.row :=
  Log.Row (Some (str "c2")) (str "D") (str "1234567.txt")
    (Some (str "2024-01-02T10:00:00+00:00")) (Some (str " (HEAD -> main)")) [].

(** ** A longer history, and the runtime that sorts as pandas does *)

Definition pandas_runtime : runtime :=
  Runtime some_decimals int_of_text txt_only (fun d => d)
          (fun A key l => pandas_sort_values key l).

Definition sorts_like_pandas (rt : runtime) : Prop :=
  forall (A : Type) (key : A -> Z) (l : list A),
    sort_values rt key l = pandas_sort_values key l.

(** Eighteen files added by one commit, with the number of ids in each:
    f01.txt and f02.txt hold none, f03.txt holds one, f04.txt two, and
    so on to the sixteen of f18.txt. *)
Definition long_files : list (string * nat) :=
  [("01", 0); ("02", 0); ("03", 1); ("04", 2); ("05", 3); ("06", 4);
   ("07", 5); ("08", 6); ("09", 7); ("10", 8); ("11", 9); ("12", 10);
   ("13", 11); ("14", 12); ("15", 13); ("16", 14); ("17", 15); ("18", 16)]%string.

Definition long_name (f : string * nat) : text :=
  str "f" ++ str (fst f) ++ str ".txt".

Definition long_blob (f : string * nat) : text := str "b" ++ str (fst f).

(** File NN reads "file NN:" and then " 10000NN" as often as it holds
    its id. *)
Definition long_content (f : string * nat) : string :=
  ("file " ++ fst f ++ ":"
   ++ String.concat "" (repeat (" 10000" ++ fst f) (snd f)))%string.

Definition long_log : text :=
  str "COMMIT_START|c1|2024-01-01T10:00:00+00:00| (HEAD -> main)" ++ LF
  ++ concat (map (fun f => str "A" ++ TAB ++ long_name f ++ LF) long_files).

Definition long_ls_tree (commit : text) : completed text :=
  if text_eqb commit (str "c1")
  then Exit0 (concat (map (fun f => str "100644 blob " ++ long_blob f ++ TAB
                                    ++ long_name f ++ NUL) long_files)) []
  else NonZero (str "fatal: not a tree object").

Definition long_show (blob : text) : completed (list Byte.byte) :=
  match find (fun f => text_eqb blob (long_blob f)) long_files with
  | Some f => Exit0 (list_byte_of_string (long_content f)) []
  | None => NonZero (str "fatal: bad object")
  end.

Definition long_repo : repository :=
  Repository long_log
    (map (fun f => SizeRecord (long_blob f)
                     (Z.of_nat (String.length (long_content f)))) long_files)
    long_ls_tree long_show.

(** Its tables before and after [sort_values], evaluated. *)
Definition long_unsorted : list Audit.row * dict :=
  Eval vm_compute in
    match result (unsorted_audit pandas_runtime long_repo) with
    | Ok (Some r) => r
    | _ => ([], [])
    end.

Definition long_final : list Audit.row * dict :=
  Eval vm_compute in
    match result (audit_repository pandas_runtime long_repo) with
    | Ok (Report final eids) => (final, eids)
    | _ => ([], [])
    end.

(** ** Dictionaries, read *)

(** [d.get(k)] *)
Fixpoint dict_get (d : dict) (k : text) : option Z :=
  match d with
  | [] => None
  | (k', v) :: d' => if text_eqb k' k then Some v else dict_get d' k
  end.

(** [list(d)]: the keys in insertion order. *)
Definition keys (d : dict) : list text := map fst d.

(** What the items of key [k] add up to. *)
Definition weight (items : dict) (k : text) : Z :=
  fold_right Z.add 0%Z
    (map snd (filter (fun kv => text_eqb (fst kv) k) items)).

(** [ids.count(k)] *)
Definition occurrences (ids : list text) (k : text) : Z :=
  Z.of_nat (count_occ text_eq_dec ids k).

(** How often [k] is found in the blobs [blobs] together. *)
Definition total_occurrences (rt : runtime) (repo : repository)
           (pattern : regex) (blobs : list text) (k : text) : Z :=
  fold_right Z.add 0%Z
    (map (fun h => occurrences (ids_of rt repo pattern h) k) blobs).

(** ** Lines of the git log *)

(** The line begins with one of A .. Z. *)
Definition starts_upper (line : text) : bool :=
  match line with
  | c :: _ => ((ch "A" <=? c) && (c <=? ch "Z"))%N
  | [] => false
  end.

Definition is_header (line : text) : bool :=
  startswith line (str "COMMIT_START").

(** A line that reports a changed file. *)
Definition is_change_line (line : text) : bool :=
  negb (is_header line) && starts_upper line.

(** The status code of a change line: what stands before the first tab. *)
Definition first_field (line : text) : text :=
  hd [] (split_on (ch "009") line).

(** A header with fewer than three bars, or a change line with fewer
    tabs than its status asks for (two for a rename, else one). *)
Definition malformed (line : text) : bool :=
  if is_header line then length (split_on (ch "|") line) <? 4
  else starts_upper line
       && (length (split_on (ch "009") line)
           <? (if startswith (first_field line) (str "R") then 3 else 2)).

(** The lines [parse_full_log_to_dataframe] loops over. *)
Definition log_lines (raw_log_output : text) : list text :=
  split_on (ch "010") (strip raw_log_output).

(** The header a row takes its commit, date and refs from. *)
Definition under_header (lines : list text) (commit date refs : option text)
  : Prop :=
  exists h c d f,
    In h lines /\ is_header h = true
    /\ nth_error (split_on (ch "|") h) 1 = Some c
    /\ nth_error (split_on (ch "|") h) 2 = Some d
    /\ nth_error (split_on (ch "|") h) 3 = Some f
    /\ commit = Some c /\ date = Some d /\ refs = Some f.

(** ** The tree resolver, read *)

(** The commits listed with [git ls-tree], in the order of the calls. *)
Fixpoint listed (evs : list event) : list text :=
  match evs with
  | [] => []
  | RanLsTree c :: evs' => c :: listed evs'
  | _ :: evs' => listed evs'
  end.

(** The blob entries of the tree of a commit; none when the tree cannot
    be listed. *)
Definition entries_of (repo : repository) (commit : option text)
  : list Tree.row :=
  match git_ls_tree repo (fmt commit) with
  | Exit0 out _ =>
      match parse_tree commit out with
      | Ok found => found
      | Raised _ => []
      end
  | NonZero _ => []
  end.

(** The output of [git ls-tree] for a commit is a sequence of entries
    that each have their tab. *)
Definition listing_parses (repo : repository) (commit : option text) : Prop :=
  forall out err,
    git_ls_tree repo (fmt commit) = Exit0 out err ->
    exists found, parse_tree commit out = Ok found.

(** One entry of [git ls-tree -r -z]: mode, type, object, path. *)
Record ls_entry : Type := LsEntry {
  e_mode : text;
  e_type : text;
  e_hash : text;
  e_path : text
}.

(** <mode> SP <type> SP <object> TAB <path> *)
Definition render_entry (e : ls_entry) : text :=
  e_mode e ++ str " " ++ e_type e ++ str " " ++ e_hash e ++ TAB ++ e_path e.

Definition no_space (t : text) : bool :=
  forallb (fun c => negb (py_isspace c)) t.

Definition no_nul (t : text) : bool :=
  forallb (fun c => negb (c =? ch "000")%N) t.

Definition nonempty (t : text) : bool :=
  match t with
  | [] => false
  | _ :: _ => true
  end.

(** The three fields of the header are words, and nothing holds the NUL
    that ends an entry. *)
Definition entry_ok (e : ls_entry) : bool :=
  nonempty (e_mode e) && no_space (e_mode e) && no_nul (e_mode e)
  && nonempty (e_type e) && no_space (e_type e) && no_nul (e_type e)
  && nonempty (e_hash e) && no_space (e_hash e) && no_nul (e_hash e)
  && no_nul (e_path e).

(** A repository whose log is blank. *)
Definition blank_repo : repository :=
  Repository (str "  " ++ LF) [] small_ls_tree small_show.

(** A computation with some events before it. *)
Definition prepend {A : Type} (l : list event) (m : M A) : M A :=
  (l ++ fst m, snd m).

(** ** More repositories to run the model on *)

(** A listing with an entry that has no tab. *)
Definition broken_repo : repository :=
  Repository
    (str "COMMIT_START|c1|2024-01-01T10:00:00+00:00|" ++ LF
     ++ str "A" ++ TAB ++ str "a.txt" ++ LF)
    []
    (fun _ => Exit0 (str "100644 blob b1 a.txt" ++ NUL) [])
    small_show.

(** A history whose only change adds a submodule: the tree of the commit
    has no blob. *)
Definition submodule_repo : repository :=
  Repository
    (str "COMMIT_START|c1|2024-01-01T10:00:00+00:00|" ++ LF
     ++ str "A" ++ TAB ++ str "sub" ++ LF)
    []
    (fun _ => Exit0 (str "160000 commit s1" ++ TAB ++ str "sub" ++ NUL) [])
    small_show.

(** A history that adds a submodule and then removes it: neither tree
    has a blob. *)
Definition removed_submodule_repo : repository :=
  Repository
    (str "COMMIT_START|c2|2024-01-02T10:00:00+00:00| (HEAD -> main)" ++ LF
     ++ str "D" ++ TAB ++ str "sub" ++ LF ++ LF
     ++ str "COMMIT_START|c1|2024-01-01T10:00:00+00:00|" ++ LF
     ++ str "A" ++ TAB ++ str "sub" ++ LF)
    []
    (fun commit =>
       if text_eqb commit (str "c1")
       then Exit0 (str "160000 commit s1" ++ TAB ++ str "sub" ++ NUL) []
       else Exit0 [] [])
    small_show.

(** Its two change events, the removal first. *)
Definition removed_submodule_log_df : list Log.row :=
  [Log.Row (Some (str "c2")) (str "D") (str "sub")
     (Some (str "2024-01-02T10:00:00+00:00")) (Some (str " (HEAD -> main)"))
     [];
   Log.Row (Some (str "c1")) (str "A") (str "sub")
     (Some (str "2024-01-01T10:00:00+00:00")) (Some []) []].

(** No left row has two right rows of its key. *)
Definition at_most_one {L R : Type} (on : L -> R -> bool)
           (left : list L) (right : list R) : Prop :=
  forall l, In l left -> length (filter (on l) right) <= 1.

(** ** The repository URL (main.py, audit_repository) *)

(** [l[-i]] for [i >= 1] *)
Definition index_from_end {A : Type} (l : list A) (i : nat) : outcome A :=
  if (1 <=? i) && (i <=? length l) then index l (length l - i)
  else Raised IndexError.

Definition is_index_error (e : exn) : bool :=
  match e with
  | IndexError => true
  | _ => false
  end.

(** main.py, [extract_owner_repo(url)] *)
Definition extract_owner_repo (url : text) : M (option text * option text) :=
  try_except
    (lift (obind (index_from_end (split_on (ch "/") url) 2) (fun owner =>
           obind (index_from_end (split_on (ch "/") url) 1) (fun repo =>
             Ok (Some owner, Some repo)))))
    is_index_error
    (emit (Printed (str "Failed to extract owner/repo from URL: " ++ url)) ;;;
     ret (None, None)).

(** [t.replace(old, new)], left to right, for a non-empty [old]: after a
    replacement the characters of [old] are passed over ([skip]). *)
Fixpoint replace_from (old new t : text) (skip : nat) {struct t} : text :=
  match t with
  | [] => []
  | c :: t' =>
      match skip with
      | S k => replace_from old new t' k
      | O =>
          if startswith t old
          then new ++ replace_from old new t' (pred (length old))
          else c :: replace_from old new t' 0
      end
  end.

Definition replace (old new t : text) : text := replace_from old new t 0.

(** [t.rstrip("/")] *)
Fixpoint lstrip_char (c : char) (t : text) : text :=
  match t with
  | d :: t' => if (d =? c)%N then lstrip_char c t' else t
  | [] => []
  end.

Definition rstrip_char (c : char) (t : text) : text :=
  rev (lstrip_char c (rev t)).

(** audit_repository, line 248:
    [repo_name = args.git_url.split('/')[-1].replace('.git', '')] *)
Definition repo_name_of (git_url : text) : outcome text :=
  obind (index_from_end (split_on (ch "/") git_url) 1)
        (fun last => Ok (replace (str ".git") [] last)).

(** audit_repository, line 322:
    [owner = args.git_url.rstrip("/").split("/")[-2]] *)
Definition owner_of (git_url : text) : outcome text :=
  index_from_end (split_on (ch "/") (rstrip_char (ch "/") git_url)) 2.

Definition no_slash (t : text) : bool :=
  forallb (fun c => negb (c =? ch "/")%N) t.

(** [not x] for a value that is a [str] or [None]. *)
Definition falsy (o : option text) : bool :=
  match o with
  | None | Some [] => true
  | Some (_ :: _) => false
  end.

(** One turn of the loop of [run_from_csv] (main.py) up to the call of
    [audit_repository]: the directory to audit in and the URL handed on,
    or [None] when the loop goes on to the next URL. *)
Definition csv_url_target (cell : text) : M (option (text * text)) :=
  let url := strip cell in
  match url with
  | [] => ret None
  | _ :: _ =>
      p <- extract_owner_repo url ;;
      if falsy (fst p) || falsy (snd p)
      then emit (Printed (str "Could not parse owner/repo from URL: " ++ url)) ;;;
           ret None
      else match fst p with
           | Some owner => ret (Some (owner, url))
           | None => ret None
           end
  end.


(* ================================================================= *)
(** * Properties *)

(** ** The matcher on fixed-width patterns *)

Lemma firstn_plus (A : Type) (n m : nat) (l : list A) :
  firstn (n + m) l = firstn n l ++ firstn m (skipn n l).
Proof.
  revert l; induction n as [|n IH]; intros [|x l]; simpl; try reflexivity.
  - now rewrite firstn_nil.
  - now rewrite IH.
Qed.

Lemma advance_advance (n m : nat) (s : mstate) :
  advance m (advance n s) = advance (n + m) s.
Proof.
  unfold advance; simpl.
  rewrite skipn_skipn, firstn_plus, rev_app_distr, <- app_assoc.
  now rewrite (Nat.add_comm m n).
Qed.

Lemma advance_0 (s : mstate) : advance 0 s = s.
Proof. now destruct s. Qed.

Lemma advance_1 (s : mstate) (c : char) (rest : text) :
  after s = c :: rest -> advance 1 s = MState (c :: before s) rest (cap s).
Proof. intros E; unfold advance; now rewrite E. Qed.

Section RunSimple.

Variable is_decimal : char -> bool.

Local Abbreviation run := (run is_decimal).
Local Abbreviation accepts := (accepts is_decimal).
Local Abbreviation fits := (fits is_decimal).

Lemma eat_fits (p : char -> bool) (s : mstate) k :
  eat p s k =
  if (1 <=? length (after s)) && one p (firstn 1 (after s))
  then k (advance 1 s) else None.
Proof.
  unfold eat. destruct (after s) as [|c rest] eqn:E; simpl; [reflexivity|].
  rewrite (advance_1 s E). now destruct (p c).
Qed.

Lemma fits_cat (r1 r2 : regex) (a : text) :
  fits (Cat r1 r2) a = fits r1 a && fits r2 (skipn (width r1) a).
Proof.
  unfold fits; simpl.
  rewrite firstn_firstn, Nat.min_l by lia.
  rewrite <- firstn_skipn_comm, length_skipn.
  destruct (Nat.leb_spec (width r1) (length a)) as [H1|H1]; simpl.
  - replace (width r1 + width r2 <=? length a)
      with (width r2 <=? length a - width r1).
    + now destruct (accepts r1 _), (_ <=? _), (accepts r2 _).
    + destruct (Nat.leb_spec (width r2) (length a - width r1)),
               (Nat.leb_spec (width r1 + width r2) (length a));
        try reflexivity; lia.
  - destruct (Nat.leb_spec (width r1 + width r2) (length a)); [lia|reflexivity].
Qed.

Lemma times_fits (r : regex) :
  (forall s k, run r s k = if fits r (after s) then k (advance (width r) s) else None) ->
  forall n s k,
    times n (run r) s k =
    if fits (Repeat n r) (after s)
    then k (advance (n * width r) s) else None.
Proof.
  intros Hr n; induction n as [|n IH]; intros s k.
  - simpl. unfold fits; simpl. now rewrite advance_0.
  - simpl times. rewrite Hr.
    unfold fits at 2. simpl width. simpl accepts.
    rewrite firstn_firstn, Nat.min_l by lia.
    fold (width r).
    destruct (fits r (after s)) eqn:F1.
    + rewrite IH. unfold fits in *. simpl width in *. simpl accepts in *.
      apply andb_true_iff in F1 as [L1 A1]. apply Nat.leb_le in L1.
      rewrite A1. simpl after.
      rewrite advance_advance, length_skipn.
      rewrite <- firstn_skipn_comm. simpl.
      destruct (Nat.leb_spec (n * width r) (length (after s) - width r)),
               (Nat.leb_spec (width r + n * width r) (length (after s)));
        try lia; reflexivity.
    + unfold fits in F1. apply andb_false_iff in F1 as [L1|A1].
      * apply Nat.leb_gt in L1.
        destruct (Nat.leb_spec (width r + n * width r) (length (after s)));
          [lia|reflexivity].
      * rewrite A1. simpl. now rewrite andb_false_r.
Qed.

(** The matcher decides [fits] and then runs the rest of the pattern
    [width r] characters further on. *)
Lemma run_simple (r : regex) :
  simple r = true ->
  forall s k,
    run r s k = if fits r (after s) then k (advance (width r) s) else None.
Proof.
  induction r as [ | c | lo hi | | | r1 IH1 r2 IH2 | r1 IH1 r2 IH2
                 | n r1 IH1 | r1 _ | r1 _ | r1 _ ];
    simpl simple; intros S s k; try discriminate.
  - simpl. unfold fits; simpl. now rewrite advance_0.
  - simpl. apply eat_fits.
  - simpl. apply eat_fits.
  - simpl. apply eat_fits.
  - apply andb_true_iff in S as [S1 S2].
    simpl run. rewrite IH1 by assumption. rewrite fits_cat.
    destruct (fits r1 (after s)); [|reflexivity].
    rewrite IH2 by assumption. simpl after. simpl width.
    rewrite advance_advance. reflexivity.
  - apply andb_true_iff in S as [S12 W]. apply andb_true_iff in S12 as [S1 S2].
    apply Nat.eqb_eq in W.
    simpl run. rewrite IH1, IH2 by assumption.
    unfold fits. simpl width. simpl accepts. rewrite <- W.
    destruct (width r1 <=? length (after s)); simpl; [|reflexivity].
    destruct (accepts r1 _), (accepts r2 _); simpl; try reflexivity;
      now destruct (k _).
  - simpl run. apply times_fits. intros; now apply IH1.
Qed.

End RunSimple.

Section LookAround.

Variable is_decimal : char -> bool.

Local Abbreviation run := (run is_decimal).
Local Abbreviation accepts := (accepts is_decimal).

Lemma run_cat (r1 r2 : regex) s k :
  run (Cat r1 r2) s k = run r1 s (fun s1 => run r2 s1 k).
Proof. reflexivity. Qed.

Lemma run_not_ahead (r : regex) s k :
  simple r = true ->
  run (NotAhead r) s k = if fits is_decimal r (after s) then None else k s.
Proof.
  intros S. simpl. rewrite run_simple by assumption.
  now destruct (fits is_decimal r (after s)).
Qed.

Lemma run_not_behind (r : regex) s k :
  simple r = true ->
  run (NotBehind r) s k =
  if (width r <=? length (before s))
     && accepts r (rev (firstn (width r) (before s)))
  then None else k s.
Proof.
  intros S. simpl.
  destruct (Nat.ltb_spec (length (before s)) (width r)) as [L|L].
  - destruct (Nat.leb_spec (width r) (length (before s))); [lia|reflexivity].
  - destruct (Nat.leb_spec (width r) (length (before s))); [|lia].
    rewrite run_simple by assumption.
    assert (W : length (rev (firstn (width r) (before s))) = width r)
      by (rewrite length_rev, length_firstn; lia).
    unfold fits, step_back; simpl.
    rewrite length_app, W, firstn_app, W, Nat.sub_diag, firstn_O, app_nil_r.
    rewrite firstn_all2 by lia.
    destruct (Nat.leb_spec (width r) (width r + length (after s))); [|lia].
    simpl. destruct (accepts r _); [|reflexivity].
    rewrite skipn_app, W, Nat.sub_diag, skipn_all2 by lia. simpl.
    now rewrite Nat.eqb_refl.
Qed.

Lemma run_group (r : regex) s k :
  simple r = true ->
  run (Group r) s k =
  if fits is_decimal r (after s)
  then k (MState (rev (firstn (width r) (after s)) ++ before s)
            (skipn (width r) (after s))
            (Some (firstn (width r) (after s))))
  else None.
Proof.
  intros S. simpl. rewrite run_simple by assumption.
  destruct (fits is_decimal r (after s)) eqn:F; [|reflexivity].
  apply andb_true_iff in F as [L _]. apply Nat.leb_le in L.
  simpl. rewrite length_skipn.
  now replace (length (after s) - (length (after s) - width r))
    with (width r) by lia.
Qed.

End LookAround.

(** ** The sensitive-ID pattern *)

Lemma id_alternatives_shape (f : char -> bool) :
  simple id_alternatives = true /\ width id_alternatives = 7.
Proof. split; reflexivity. Qed.

(** Replace the character literals of the goal by their code points. *)
Ltac code_points :=
  repeat match goal with
         | |- context [ch ?a] =>
             let v := eval vm_compute in (ch a) in change (ch a) with v
         end.

Lemma id_alternatives_accepts (f : char -> bool) (d1 d2 d3 d4 d5 d6 d7 : char) :
  accepts f id_alternatives [d1; d2; d3; d4; d5; d6; d7] =
  forallb ascii_digit [d1; d2; d3; d4; d5; d6; d7]
  && (1000000 <=? decimal_value [d1; d2; d3; d4; d5; d6; d7])%N
  && (decimal_value [d1; d2; d3; d4; d5; d6; d7] <=? 6500000)%N.
Proof.
  apply eq_iff_eq_true.
  cbn -[ch N.leb N.eqb N.mul N.add N.sub].
  unfold ascii_digit, digit_val. code_points.
  rewrite !andb_true_iff, !orb_true_iff, !andb_true_iff, !N.leb_le, !N.eqb_eq.
  split.
  - intros [[[H|H]|H]|H]; repeat split; lia.
  - intros H.
    destruct (N.eq_dec d1 54) as [E1|E1].
    + destruct (N.le_gt_cases d2 52) as [L2|L2].
      * left; right; repeat split; lia.
      * right; repeat split; lia.
    + left; left; right; repeat split; lia.
Qed.

Lemma id_alternatives_fits (f : char -> bool) (a : text) :
  fits f id_alternatives a = in_id_range (firstn 7 a).
Proof.
  destruct a as [|d1 [|d2 [|d3 [|d4 [|d5 [|d6 [|d7 rest]]]]]]];
    try reflexivity.
  unfold fits, in_id_range.
  change (width id_alternatives) with 7.
  change (firstn 7 (d1 :: d2 :: d3 :: d4 :: d5 :: d6 :: d7 :: rest))
    with [d1; d2; d3; d4; d5; d6; d7].
  rewrite id_alternatives_accepts.
  change (length [d1; d2; d3; d4; d5; d6; d7] =? 7) with true.
  change (7 <=? length (d1 :: d2 :: d3 :: d4 :: d5 :: d6 :: d7 :: rest))
    with true.
  now rewrite <- !andb_assoc.
Qed.

Lemma fits_digit (f : char -> bool) (a : text) :
  fits f Digit a = followed_by_digit f a.
Proof. destruct a as [|c a]; [reflexivity|]. unfold fits; simpl. reflexivity. Qed.

Lemma preceded_by_guard_spec (f : char -> bool) (b : text) :
  preceded_by_guard f b =
  ((1 <=? length b) && accepts f Digit (rev (firstn 1 b)))
  || ((1 <=? length b) && accepts f (lits ".") (rev (firstn 1 b)))
  || ((2 <=? length b) && accepts f (lits "rs") (rev (firstn 2 b)))
  || ((2 <=? length b) && accepts f (lits "RS") (rev (firstn 2 b)))
  || ((2 <=? length b) && accepts f (lits "Rs") (rev (firstn 2 b)))
  || ((2 <=? length b) && accepts f (lits "rS") (rev (firstn 2 b))).
Proof.
  destruct b as [|c [|p b]].
  - reflexivity.
  - cbn -[ch N.eqb]. rewrite (N.eqb_sym (ch ".") c).
    now destruct (f c), (c =? ch ".")%N, (is_s c).
  - cbn -[ch N.eqb]. unfold is_s, is_r.
    rewrite (N.eqb_sym (ch ".") c), (N.eqb_sym (ch "r") p),
      (N.eqb_sym (ch "R") p), (N.eqb_sym (ch "s") c), (N.eqb_sym (ch "S") c).
    now destruct (f c), (c =? ch ".")%N, (c =? ch "s")%N, (c =? ch "S")%N,
      (p =? ch "r")%N, (p =? ch "R")%N.
Qed.

(** One match attempt of [regex_pattern] succeeds exactly where the spec
    places a sensitive ID, and captures it. *)
Lemma match_here_regex_pattern (f : char -> bool) (b a : text) :
  match_here f regex_pattern b a =
  match sensitive_id_at f b a with
  | Some ds => Some (MState (rev ds ++ b) (skipn 7 a) (Some ds))
  | None => None
  end.
Proof.
  unfold match_here, regex_pattern, seq, fold_right.
  repeat (rewrite run_cat, run_not_behind by reflexivity; cbv beta).
  rewrite run_cat, run_group by reflexivity.
  rewrite run_cat, run_not_ahead by reflexivity.
  change (width id_alternatives) with 7.
  cbn [after before run].
  rewrite id_alternatives_fits, fits_digit.
  unfold sensitive_id_at. fold (in_id_range (firstn 7 a)).
  rewrite preceded_by_guard_spec.
  change (width Digit) with 1. change (width (lits ".")) with 1.
  change (width (lits "rs")) with 2. change (width (lits "RS")) with 2.
  change (width (lits "Rs")) with 2. change (width (lits "rS")) with 2.
  generalize ((1 <=? length b) && accepts f Digit (rev (firstn 1 b))),
    ((1 <=? length b) && accepts f (lits ".") (rev (firstn 1 b))),
    ((2 <=? length b) && accepts f (lits "rs") (rev (firstn 2 b))),
    ((2 <=? length b) && accepts f (lits "RS") (rev (firstn 2 b))),
    ((2 <=? length b) && accepts f (lits "Rs") (rev (firstn 2 b))),
    ((2 <=? length b) && accepts f (lits "rS") (rev (firstn 2 b))),
    (in_id_range (firstn 7 a)), (followed_by_digit f (skipn 7 a)).
  intros [|] [|] [|] [|] [|] [|] [|] [|]; reflexivity.
Qed.

Section FindallSensitive.

Variable is_decimal : char -> bool.
Hypothesis ascii_digits_are_decimal :
  forall c, ascii_digit c = true -> is_decimal c = true.

Lemma sensitive_id_at_inv (b a ds : text) :
  sensitive_id_at is_decimal b a = Some ds ->
  exists d1 d2 d3 d4 d5 d6 d7 rest,
    a = d1 :: d2 :: d3 :: d4 :: d5 :: d6 :: d7 :: rest
    /\ ds = [d1; d2; d3; d4; d5; d6; d7]
    /\ forallb ascii_digit ds = true.
Proof.
  unfold sensitive_id_at.
  destruct a as [|d1 [|d2 [|d3 [|d4 [|d5 [|d6 [|d7 rest]]]]]]];
    try discriminate.
  change (firstn 7 (d1 :: d2 :: d3 :: d4 :: d5 :: d6 :: d7 :: rest))
    with [d1; d2; d3; d4; d5; d6; d7].
  destruct (forallb ascii_digit [d1; d2; d3; d4; d5; d6; d7]) eqn:D.
  - destruct (_ && _); intros H; inversion H; subst.
    exists d1, d2, d3, d4, d5, d6, d7, rest. auto.
  - rewrite andb_false_r. discriminate.
Qed.

Lemma no_id_after_digit (d : char) (b a : text) :
  ascii_digit d = true -> sensitive_id_at is_decimal (d :: b) a = None.
Proof.
  intros D. unfold sensitive_id_at, preceded_by_guard.
  rewrite (ascii_digits_are_decimal _ D). simpl orb. simpl negb.
  now rewrite andb_false_r.
Qed.

Lemma scan_regex_pattern (a b : text) (skip : nat) :
  (forall i, i < skip ->
     sensitive_id_at is_decimal (rev (firstn i a) ++ b) (skipn i a) = None) ->
  scan is_decimal regex_pattern b a skip = sensitive_ids_from is_decimal b a.
Proof.
  revert b skip; induction a as [|c a IH]; intros b skip Hs.
  - cbn [scan sensitive_ids_from]. rewrite app_nil_r.
    destruct skip as [|k].
    + rewrite match_here_regex_pattern.
      now destruct (sensitive_id_at is_decimal b []).
    + now rewrite (Hs 0 (Nat.lt_0_succ k) : sensitive_id_at _ b [] = None).
  - cbn [scan sensitive_ids_from].
    destruct skip as [|k].
    + rewrite match_here_regex_pattern.
      destruct (sensitive_id_at is_decimal b (c :: a)) as [ds|] eqn:E.
      * destruct (sensitive_id_at_inv _ _ E)
          as (d1 & d2 & d3 & d4 & d5 & d6 & d7 & rest & Ea & Eds & D).
        injection Ea as -> ->. subst ds.
        cbn [reported cap after app]. 
        change (skipn 7 (d1 :: d2 :: d3 :: d4 :: d5 :: d6 :: d7 :: rest))
          with rest.
        replace (pred (length (d1 :: d2 :: d3 :: d4 :: d5 :: d6 :: d7 :: rest)
                       - length rest)) with 6 by (cbn [length]; lia).
        f_equal. apply IH. intros i Hi.
        simpl in D. repeat rewrite andb_true_iff in D.
        destruct D as (D1 & D2 & D3 & D4 & D5 & D6 & D7 & _).
        destruct i as [|[|[|[|[|[|i]]]]]]; try lia; simpl;
          now apply no_id_after_digit.
      * simpl. apply IH. intros i Hi; lia.
    + rewrite (Hs 0 (Nat.lt_0_succ k) : sensitive_id_at _ b (c :: a) = None).
      simpl. apply IH. intros i Hi.
      specialize (Hs (S i) (proj1 (Nat.succ_lt_mono i k) Hi)).
      simpl in Hs. now rewrite <- app_assoc in Hs.
Qed.

Lemma findall_regex_pattern (t : text) :
  findall is_decimal regex_pattern t = sensitive_ids is_decimal t.
Proof. apply scan_regex_pattern. intros i Hi; lia. Qed.

End FindallSensitive.

(** ** Status codes *)

Lemma text_eqb_eq (a b : text) : text_eqb a b = true <-> a = b.
Proof. unfold text_eqb. destruct (text_eq_dec a b); split; congruence. Qed.

Lemma text_eqb_refl (a : text) : text_eqb a a = true.
Proof. now apply text_eqb_eq. Qed.

Lemma text_eqb_neq (a b : text) : text_eqb a b = false <-> a <> b.
Proof. unfold text_eqb. destruct (text_eq_dec a b); split; congruence. Qed.

Lemma startswith_one (s : text) (c : char) :
  startswith s [c] = true -> exists s', s = c :: s'.
Proof.
  destruct s as [|d s']; simpl; [discriminate|].
  destruct (N.eqb_spec c d) as [->|]; [|discriminate]. now exists s'.
Qed.

Lemma similarity_code_not_exact (s : text) :
  similarity_code s = true -> exact_code s = false.
Proof.
  unfold similarity_code, exact_code. intros H.
  apply orb_true_iff in H as [H|H]; [apply orb_true_iff in H as [H|H]|];
    apply startswith_one in H as [s' ->];
    repeat rewrite orb_false_iff; repeat split;
    apply text_eqb_neq; discriminate.
Qed.

(** On a status with an R, B or C prefix the result is decided by [int]
    on the rest of the string. *)
Lemma contextualise_similarity (rt : runtime) (s : text) :
  similarity_code s = true ->
  exists label : string,
    contextualise_git_status rt (PyStr s) = similarity rt label s.
Proof.
  intros H. pose proof (similarity_code_not_exact s H) as E.
  unfold exact_code in E. repeat rewrite orb_false_iff in E.
  destruct E as ((((EA & ED) & EM) & ET) & EU).
  unfold contextualise_git_status. rewrite EA, ED, EM, ET, EU.
  unfold similarity_code in H.
  destruct (startswith s (str "R")); [eauto|].
  destruct (startswith s (str "B")); [eauto|].
  destruct (startswith s (str "C")); [eauto|discriminate].
Qed.

(** C10.  [contextualise_git_status] returns 'unknown' for every input
    that is not a string and for every string that is neither one of the
    codes A, D, M, T, U nor prefixed by R, B or C.  On a string with an
    R, B or C prefix it raises ValueError when [int] rejects the rest of
    the string, as it does for "R" and "Rab", and it returns (the
    similarity label, never 'unknown' by default) only when [int]
    accepts the rest. *)
Theorem contextualise_git_status_partial (rt : runtime) :
  py_int rt [] = None ->
  py_int rt (str "ab") = None ->
  (forall v, (forall s, v <> PyStr s) ->
     contextualise_git_status rt v = Ok (str "unknown"))
  /\ (forall s, exact_code s = false -> similarity_code s = false ->
        contextualise_git_status rt (PyStr s) = Ok (str "unknown"))
  /\ (forall s, similarity_code s = true -> py_int rt (tl s) = None ->
        contextualise_git_status rt (PyStr s) = Raised ValueError)
  /\ (forall s t, similarity_code s = true ->
        contextualise_git_status rt (PyStr s) = Ok t ->
        exists (n : Z) (label : string),
          py_int rt (tl s) = Some n
          /\ t = str label ++ show_int n ++ str "%")
  /\ contextualise_git_status rt (PyStr (str "R")) = Raised ValueError
  /\ contextualise_git_status rt (PyStr (str "Rab")) = Raised ValueError.
Proof.
  intros Hempty Hab.
  assert (Hraise : forall s, similarity_code s = true ->
            py_int rt (tl s) = None ->
            contextualise_git_status rt (PyStr s) = Raised ValueError).
  { intros s Hs Hint. destruct (contextualise_similarity rt s Hs) as [l ->].
    unfold similarity. now rewrite Hint. }
  repeat split.
  - intros [s| | |] Hv; try reflexivity. now destruct (Hv s).
  - intros s He Hs. unfold exact_code in He. repeat rewrite orb_false_iff in He.
    destruct He as ((((EA & ED) & EM) & ET) & EU).
    unfold similarity_code in Hs. repeat rewrite orb_false_iff in Hs.
    destruct Hs as ((HR & HB) & HC).
    unfold contextualise_git_status.
    now rewrite EA, ED, EM, ET, EU, HR, HB, HC.
  - exact Hraise.
  - intros s t Hs Hok. destruct (contextualise_similarity rt s Hs) as [l E].
    rewrite E in Hok. unfold similarity in Hok.
    destruct (py_int rt (tl s)) as [n|]; [|discriminate].
    injection Hok as <-. now exists n, l.
  - apply Hraise; [reflexivity|exact Hempty].
  - apply Hraise; [reflexivity|exact Hab].
Qed.

Lemma contextualise_git_status_partial_witness :
  py_int small_runtime [] = None
  /\ py_int small_runtime (str "ab") = None
  /\ contextualise_git_status small_runtime (PyStr (str "R"))
     = Raised ValueError
  /\ contextualise_git_status small_runtime (PyStr (str "Rab"))
     = Raised ValueError.
Proof.
  split; [reflexivity|]. split; [reflexivity|].
  apply (contextualise_git_status_partial small_runtime);
    reflexivity.
Defined.

(** [re.search] finds the pattern exactly when the text holds a
    sensitive ID somewhere. *)
Lemma search_from_regex_pattern (f : char -> bool) (a b : text) :
  search_from f regex_pattern b a = None <-> sensitive_ids_from f b a = [].
Proof.
  revert b; induction a as [|c a IH]; intros b;
    cbn [search_from sensitive_ids_from];
    rewrite match_here_regex_pattern;
    destruct (sensitive_id_at f b _) as [ds|]; simpl.
  - split; discriminate.
  - tauto.
  - split; discriminate.
  - apply IH.
Qed.

Lemma search_regex_pattern (f : char -> bool) (t : text) :
  match search f regex_pattern t with Some _ => 1%Z | None => 0%Z end
  = match sensitive_ids f t with [] => 0%Z | _ :: _ => 1%Z end.
Proof.
  unfold search, sensitive_ids.
  pose proof (search_from_regex_pattern f t []) as H.
  destruct (search_from f regex_pattern [] t) as [e|];
    destruct (sensitive_ids_from f [] t) as [|i ids]; try reflexivity.
  - discriminate (proj2 H eq_refl).
  - discriminate (proj1 H eq_refl).
Qed.

(** ** The matcher on ASCII text *)

Lemma in_skipn_in (A : Type) (n : nat) (l : list A) (x : A) :
  In x (skipn n l) -> In x l.
Proof.
  intros H. rewrite <- (firstn_skipn n l). apply in_or_app. now right.
Qed.

Lemma sensitive_id_at_ext (f g : char -> bool) (b a : text) :
  (forall c, In c b \/ In c a -> f c = g c) ->
  sensitive_id_at f b a = sensitive_id_at g b a.
Proof.
  intros H. unfold sensitive_id_at.
  replace (preceded_by_guard g b) with (preceded_by_guard f b).
  - replace (followed_by_digit g (skipn 7 a))
      with (followed_by_digit f (skipn 7 a)); [reflexivity|].
    unfold followed_by_digit. destruct (skipn 7 a) as [|c r] eqn:E; [reflexivity|].
    apply H. right. apply (in_skipn_in 7). rewrite E. now left.
  - unfold preceded_by_guard. destruct b as [|c b']; [reflexivity|].
    rewrite (H c) by (left; now left). reflexivity.
Qed.

Lemma sensitive_ids_from_ext (f g : char -> bool) (a b : text) :
  (forall c, In c b \/ In c a -> f c = g c) ->
  sensitive_ids_from f b a = sensitive_ids_from g b a.
Proof.
  revert b; induction a as [|c a IH]; intros b H; cbn [sensitive_ids_from];
    rewrite (sensitive_id_at_ext f g b _ H); [reflexivity|].
  f_equal. apply IH. intros d [[<-|Hd]|Hd]; apply H.
  - right; now left.
  - now left.
  - right; now right.
Qed.

Lemma findall_ascii (f : char -> bool) (t : text) :
  (forall c, (c < 128)%N -> f c = ascii_digit c) ->
  forallb (fun c => c <? 128)%N t = true ->
  findall f regex_pattern t = sensitive_ids ascii_digit t.
Proof.
  intros H A. rewrite findall_regex_pattern.
  - apply sensitive_ids_from_ext. intros c [[]|Hc].
    apply H. rewrite forallb_forall in A. now apply N.ltb_lt, A.
  - intros c D. rewrite H; [exact D|].
    unfold ascii_digit in D. apply andb_true_iff in D as [_ D].
    apply N.leb_le in D. lia.
Qed.

(** C1.  On every text [findall] with [regex_pattern] returns exactly
    the 7-digit integers between 1000000 and 6500000 that are not
    preceded by a digit, a dot or "rs" in any letter case and not
    followed by a digit, left to right; "1234567" is matched, "0123456",
    "123456", "91234567" and "rs1234567" are not, and
    "3081375_20215_0_0.zip" and "3240971.tsv" give one match each.  The
    class [\d] is any set of characters whose ASCII members are 0-9. *)
Theorem regex_pattern_matches_sensitive_ids (is_dec : char -> bool) :
  (forall c, (c < 128)%N -> is_dec c = ascii_digit c) ->
  (forall t, findall is_dec regex_pattern t = sensitive_ids is_dec t)
  /\ findall is_dec regex_pattern (str "1234567") = [str "1234567"]
  /\ findall is_dec regex_pattern (str "0123456") = []
  /\ findall is_dec regex_pattern (str "123456") = []
  /\ findall is_dec regex_pattern (str "91234567") = []
  /\ findall is_dec regex_pattern (str "rs1234567") = []
  /\ findall is_dec regex_pattern (str "3081375_20215_0_0.zip")
     = [str "3081375"]
  /\ findall is_dec regex_pattern (str "3240971.tsv") = [str "3240971"].
Proof.
  intros H. split.
  - intros t. apply findall_regex_pattern. intros c D.
    rewrite H; [exact D|].
    unfold ascii_digit in D. apply andb_true_iff in D as [_ D].
    apply N.leb_le in D. lia.
  - repeat split; rewrite (findall_ascii _ _ H) by reflexivity;
      vm_compute; reflexivity.
Qed.

Lemma regex_pattern_matches_sensitive_ids_witness :
  (forall c, (c < 128)%N -> some_decimals c = ascii_digit c)
  /\ findall some_decimals regex_pattern (str "id 1234567, rs2345678")
     = [str "1234567"].
Proof.
  assert (H : forall c, (c < 128)%N -> some_decimals c = ascii_digit c).
  { intros c Hc. unfold some_decimals.
    destruct (N.leb_spec 1632 c); [lia|]. simpl. now rewrite orb_false_r. }
  split; [exact H|].
  rewrite (proj1 (regex_pattern_matches_sensitive_ids some_decimals H)).
  reflexivity.
Defined.

(** ** The git log parser *)

Lemma split_on_field (sep : char) (f rest : text) :
  forallb (fun c => negb (c =? sep)%N) f = true ->
  split_on sep (f ++ sep :: rest) = f :: split_on sep rest.
Proof.
  induction f as [|c f IH]; simpl; intros H.
  - now rewrite N.eqb_refl.
  - apply andb_true_iff in H as [Hc Hf]. apply negb_true_iff in Hc.
    rewrite Hc, IH by assumption. reflexivity.
Qed.

Lemma split_on_last (sep : char) (f : text) :
  forallb (fun c => negb (c =? sep)%N) f = true ->
  split_on sep f = [f].
Proof.
  induction f as [|c f IH]; simpl; intros H; [reflexivity|].
  apply andb_true_iff in H as [Hc Hf]. apply negb_true_iff in Hc.
  rewrite Hc, IH by assumption. reflexivity.
Qed.

Lemma split_three (a b c : text) :
  no_tab a = true -> no_tab b = true -> no_tab c = true ->
  split_on (ch "009") (a ++ TAB ++ b ++ TAB ++ c) = [a; b; c].
Proof.
  intros Ha Hb Hc. unfold TAB. cbn [app].
  change 9%N with (ch "009").
  rewrite (split_on_field _ _ _ Ha), (split_on_field _ _ _ Hb).
  now rewrite (split_on_last _ _ Hc).
Qed.

Lemma digit_no_tab (sim : text) :
  forallb ascii_digit sim = true -> no_tab sim = true.
Proof.
  induction sim as [|d sim IH]; simpl; intros H; [reflexivity|].
  apply andb_true_iff in H as [Hd Hs]. rewrite IH by assumption.
  unfold ascii_digit in Hd. apply andb_true_iff in Hd as [Hd _].
  apply N.leb_le in Hd. destruct (N.eqb_spec d 9) as [E|]; [lia|reflexivity].
Qed.

Lemma status_line_not_commit_start (c : char) (sim rest : text) :
  (c =? ch "C")%N || (c =? ch "R")%N = true ->
  forallb ascii_digit sim = true ->
  startswith ((c :: sim) ++ TAB ++ rest) (str "COMMIT_START") = false.
Proof.
  intros Hc Hs. destruct sim as [|d sim].
  - cbn -[N.eqb ch]. code_points.
    destruct (N.eqb_spec 67 c); [|reflexivity]. reflexivity.
  - cbn -[N.eqb ch]. code_points.
    simpl in Hs. apply andb_true_iff in Hs as [Hd _].
    unfold ascii_digit in Hd. apply andb_true_iff in Hd as [_ Hd].
    apply N.leb_le in Hd.
    destruct (N.eqb_spec 79 d); [lia|]. now rewrite andb_false_r.
Qed.

(** C8.  A copy line "C<similarity> TAB old TAB new" is parsed by the
    branch for one-path statuses: the row gets the old path as its
    filename and an empty old_filename, and the new path is lost; a
    rename line with the same fields gets the new path as filename and
    the old path as old_filename. *)
Theorem copy_line_loses_new_path (rt : runtime) (cur : log_cursor)
        (sim old new : text) :
  forallb ascii_digit sim = true ->
  no_tab old = true -> no_tab new = true ->
  parse_log_line rt cur ((str "C" ++ sim) ++ TAB ++ old ++ TAB ++ new)
  = Ok (cur, [Log.Row (current_commit cur) (str "C" ++ sim) old
                (current_date cur) (current_refs cur) []])
  /\ parse_log_line rt cur ((str "R" ++ sim) ++ TAB ++ old ++ TAB ++ new)
     = Ok (cur, [Log.Row (current_commit cur) (str "R" ++ sim) new
                   (current_date cur) (current_refs cur) old]).
Proof.
  intros Hs Ho Hn.
  pose proof (digit_no_tab _ Hs) as Ht.
  assert (HC : no_tab (str "C" ++ sim) = true) by exact Ht.
  assert (HR : no_tab (str "R" ++ sim) = true) by exact Ht.
  split; unfold parse_log_line.
  - change (str "C" ++ sim) with (ch "C" :: sim) at 1.
    rewrite status_line_not_commit_start by (assumption || reflexivity).
    rewrite (split_three _ _ _ HC Ho Hn). reflexivity.
  - change (str "R" ++ sim) with (ch "R" :: sim) at 1.
    rewrite status_line_not_commit_start by (assumption || reflexivity).
    rewrite (split_three _ _ _ HR Ho Hn). reflexivity.
Qed.

Lemma copy_line_loses_new_path_witness :
  forallb ascii_digit (str "100") = true
  /\ no_tab (str "old.txt") = true /\ no_tab (str "new.txt") = true
  /\ parse_log_line small_runtime (LogCursor None None None)
       ((str "C" ++ str "100") ++ TAB ++ str "old.txt" ++ TAB ++ str "new.txt")
     = Ok (LogCursor None None None,
           [Log.Row None (str "C100") (str "old.txt") None None []]).
Proof.
  split; [reflexivity|]. split; [reflexivity|]. split; [reflexivity|].
  apply (copy_line_loses_new_path small_runtime
           (LogCursor None None None) (str "100") (str "old.txt")
           (str "new.txt")); reflexivity.
Defined.

(** The whole parser on a log with one copy. *)
Example parse_copy_log (rt : runtime) :
  parse_full_log_to_dataframe rt
    (str "COMMIT_START|c1|2024-01-01|" ++ LF
     ++ str "C100" ++ TAB ++ str "old.txt" ++ TAB ++ str "new.txt" ++ LF)
  = Ok [Log.Row (Some (str "c1")) (str "C100") (str "old.txt")
          (Some (str "2024-01-01")) (Some []) []].
Proof. reflexivity. Qed.

(** ** The tree resolver *)

Lemma ls_tree_loop_first_failure (repo : repository) (c : option text)
      (rest : list (option text)) (err : text) (all : list Tree.row) :
  git_ls_tree repo (fmt c) = NonZero err ->
  ls_tree_loop repo (c :: rest) None all
  = ([RanLsTree (fmt c)], Raised UnboundLocalError).
Proof.
  intros H. cbn [ls_tree_loop]. unfold run_ls_tree. rewrite H. reflexivity.
Qed.

(** A failure after a success is passed over, and what is printed is
    the stderr of the last command that succeeded. *)
Lemma ls_tree_loop_later_failure (repo : repository) (c : option text)
      (rest : list (option text)) (err : text) (cmd : text * text)
      (all : list Tree.row) :
  git_ls_tree repo (fmt c) = NonZero err ->
  ls_tree_loop repo (c :: rest) (Some cmd) all
  = bind (emit (RanLsTree (fmt c)))
      (fun _ => bind (emit (Printed (snd cmd)))
         (fun _ => ls_tree_loop repo rest (Some cmd) all)).
Proof.
  intros H. cbn [ls_tree_loop]. unfold run_ls_tree. rewrite H.
  cbn. now destruct (ls_tree_loop repo rest (Some cmd) all).
Qed.

(** C7.  When [git ls-tree] fails for the first commit processed,
    [get_blob_hashes_for_commits] raises UnboundLocalError from its
    handler (ls_tree_cmd is not bound yet) after that one command: no
    entries are returned and the other commits are not listed. *)
Theorem first_commit_failure_raises (repo : repository) (c : option text)
        (rest : list (option text)) (err : text) :
  git_ls_tree repo (fmt c) = NonZero err ->
  get_blob_hashes_for_commits repo (c :: rest)
  = ([RanLsTree (fmt c)], Raised UnboundLocalError).
Proof.
  intros H. unfold get_blob_hashes_for_commits, unique.
  cbn [unique_from existsb]. now apply ls_tree_loop_first_failure with err.
Qed.

Lemma first_commit_failure_raises_witness :
  git_ls_tree small_repo (fmt (Some (str "c0")))
  = NonZero (str "fatal: not a tree object")
  /\ get_blob_hashes_for_commits small_repo
       [Some (str "c0"); Some (str "c1"); Some (str "c2")]
     = ([RanLsTree (str "c0")], Raised UnboundLocalError).
Proof.
  split; [reflexivity|].
  apply first_commit_failure_raises
    with (err := str "fatal: not a tree object").
  reflexivity.
Defined.

(** The same failure after a commit that listed: it is skipped. *)
Example later_commit_failure_skipped :
  get_blob_hashes_for_commits small_repo [Some (str "c2"); Some (str "c0")]
  = ([RanLsTree (str "c2"); RanLsTree (str "c0"); Printed []],
     Ok [Tree.Row (Some (str "c2")) (str "b2") (str "notes.txt");
         Tree.Row (Some (str "c2")) (str "b2") (str "readme.txt")]).
Proof. reflexivity. Qed.

(** ** The content scan *)

Section ScanLoop.

Variable rt : runtime.
Variable repo : repository.
Variable pattern : regex.

Lemma scan_blob_spec (d : dict) (h : text) :
  scan_blob rt repo pattern d h
  = ([RanShow h],
     Ok (Scan.eid_occ (scan_row_of rt repo pattern h),
         Scan.unique_occ (scan_row_of rt repo pattern h),
         Scan.found_ids (scan_row_of rt repo pattern h),
         update_dictionary d (Counter (ids_of rt repo pattern h)))).
Proof.
  unfold scan_blob, run_show, scan_row_of, ids_of, content, decode.
  destruct (git_show repo h) as [out err|err]; [|reflexivity].
  cbn [bind emit ret raise lift app].
  destruct (decode_utf8 (bytes_of out)) as [t|]; [|reflexivity].
  cbn [bind emit ret raise lift app option_map].
  destruct (findall (is_decimal rt) pattern t) as [|i ids] eqn:E;
    [reflexivity|].
  destruct (Z.eqb_spec (Z.of_nat (length (i :: ids))) 0) as [Z0|_];
    [simpl in Z0; lia|reflexivity].
Qed.

Lemma scan_loop_spec (blobs : list text) (rows : list Scan.row) (d : dict) :
  scan_loop rt repo pattern blobs rows d
  = (map RanShow blobs,
     Ok (rows ++ map (scan_row_of rt repo pattern) blobs,
         fold_left
           (fun acc h => update_dictionary acc
                           (Counter (ids_of rt repo pattern h)))
           blobs d)).
Proof.
  revert rows d; induction blobs as [|h blobs IH]; intros rows d.
  - simpl. now rewrite app_nil_r.
  - cbn [scan_loop]. rewrite scan_blob_spec. cbn [bind].
    rewrite IH. cbn. now rewrite <- app_assoc.
Qed.

End ScanLoop.

(** ** Distinct values *)

Section Unique.

Variable A : Type.
Variable eqb : A -> A -> bool.
Hypothesis eqb_eq : forall x y, eqb x y = true <-> x = y.

Lemma existsb_eqb (seen : list A) (x : A) :
  existsb (eqb x) seen = true <-> In x seen.
Proof.
  rewrite existsb_exists. split.
  - intros (y & Hy & E). apply eqb_eq in E. now subst.
  - intros H. exists x. split; [assumption|]. now apply eqb_eq.
Qed.

Lemma unique_from_in (l seen : list A) (x : A) :
  In x (unique_from eqb seen l) <-> In x l /\ ~ In x seen.
Proof.
  revert seen; induction l as [|y l IH]; intros seen; simpl.
  - tauto.
  - destruct (existsb (eqb y) seen) eqn:E.
    + apply existsb_eqb in E. rewrite IH. split.
      * intros [H1 H2]; auto.
      * intros [[->|H1] H2]; [contradiction|auto].
    + assert (Hy : ~ In y seen).
      { intros H. apply existsb_eqb in H. congruence. }
      simpl. rewrite IH. simpl. split.
      * intros [->|[H1 H2]]; auto.
      * intros [[->|H1] H2]; [now left|].
        destruct (existsb (eqb x) [y]) eqn:Exy.
        -- apply existsb_eqb in Exy as [->|[]]. now left.
        -- right. split; [assumption|]. intros [->|H]; [|contradiction].
           assert (In x [x]) as Hin by now left.
           apply existsb_eqb in Hin. congruence.
Qed.

Lemma unique_from_nodup (l seen : list A) : NoDup (unique_from eqb seen l).
Proof.
  revert seen; induction l as [|y l IH]; intros seen; simpl.
  - constructor.
  - destruct (existsb (eqb y) seen); [apply IH|].
    constructor; [|apply IH].
    rewrite unique_from_in. intros [_ H]. apply H. now left.
Qed.

Lemma unique_in (l : list A) (x : A) : In x (unique eqb l) <-> In x l.
Proof. unfold unique. rewrite unique_from_in. simpl. tauto. Qed.

Lemma unique_nodup (l : list A) : NoDup (unique eqb l).
Proof. apply unique_from_nodup. Qed.

End Unique.

Lemma dropna_in (A : Type) (l : list (option A)) (x : A) :
  In x (dropna l) <-> In (Some x) l.
Proof.
  induction l as [|[y|] l IH]; simpl.
  - tauto.
  - rewrite IH. split; intros [H|H]; auto; [left; congruence|].
    left. congruence.
  - rewrite IH. split; [auto|]. intros [H|H]; [discriminate|assumption].
Qed.




Lemma scan_rows_blob_hash (rt : runtime) (repo : repository) (pattern : regex)
      (blobs : list text) :
  map Scan.blob_hash (map (scan_row_of rt repo pattern) blobs) = blobs.
Proof. rewrite map_map. simpl. apply map_id. Qed.


Lemma scan_row_eid_occ (rt : runtime) (repo : repository) (pattern : regex)
      (h : text) :
  Scan.eid_occ (scan_row_of rt repo pattern h)
  = match git_show repo h with
    | Exit0 out _ =>
        match decode_utf8 (bytes_of out) with
        | Some t => Some (Z.of_nat (length (findall (is_decimal rt) pattern t)))
        | None => None
        end
    | NonZero _ => None
    end.
Proof.
  unfold scan_row_of, ids_of, content. simpl.
  destruct (git_show repo h) as [out err|err]; [|reflexivity].
  now destruct (decode_utf8 (bytes_of out)).
Qed.

(** C6.  The scan never raises and passes over no blob: whatever
    [git show] and the decoding do, it fetches every distinct non-null
    blob_hash of the table and returns one row for each, in that order.
    A blob whose [git show] fails or whose bytes are not UTF-8 has
    eid_occ NaN in its row; a blob that reads has the number of its
    matches there, 0 when it holds none, so the two kinds of row differ
    in that column. *)
Theorem unreadable_is_not_zero_matches (rt : runtime) (repo : repository)
        (df : list (option text)) (pattern : regex) :
  exists (rows : list Scan.row) (eids : dict),
    analyze_glob_hashes_for_pattern rt repo df pattern
    = (map RanShow (unique text_eqb (dropna df)), Ok (rows, eids))
    /\ map Scan.blob_hash rows = unique text_eqb (dropna df)
    /\ (forall h, In (Some h) df ->
          exists r, In r rows /\ Scan.blob_hash r = h)
    /\ forall r, In r rows ->
         (forall err, git_show repo (Scan.blob_hash r) = NonZero err ->
            Scan.eid_occ r = None)
         /\ (forall out err,
               git_show repo (Scan.blob_hash r) = Exit0 out err ->
               decode_utf8 (bytes_of out) = None ->
               Scan.eid_occ r = None)
         /\ (forall out err t,
               git_show repo (Scan.blob_hash r) = Exit0 out err ->
               decode_utf8 (bytes_of out) = Some t ->
               Scan.eid_occ r
               = Some (Z.of_nat (length (findall (is_decimal rt) pattern t)))
               /\ (findall (is_decimal rt) pattern t = [] ->
                   Scan.eid_occ r = Some 0%Z /\ Scan.eid_occ r <> None)).
Proof.
  unfold analyze_glob_hashes_for_pattern. rewrite scan_loop_spec.
  exists (map (scan_row_of rt repo pattern) (unique text_eqb (dropna df))).
  eexists. split; [reflexivity|].
  split; [apply scan_rows_blob_hash|]. split.
  - intros h Hh.
    exists (scan_row_of rt repo pattern h). split; [|reflexivity].
    apply in_map. apply (unique_in text_eqb text_eqb_eq).
    now apply dropna_in.
  - intros r Hr. apply in_map_iff in Hr as (h & <- & _).
    rewrite scan_row_eid_occ. simpl Scan.blob_hash.
    split; [|split].
    + intros err E. now rewrite E.
    + intros out err E D. now rewrite E, D.
    + intros out err t E D. rewrite E, D. split; [reflexivity|].
      intros F. rewrite F. split; [reflexivity|discriminate].
Qed.

(** ** The frequency table *)

Lemma sum_counts_dict_add (d : dict) (k : text) (v : Z) :
  sum_counts (dict_add d k v) = (sum_counts d + v)%Z.
Proof.
  unfold sum_counts. induction d as [|[k' v'] d IH]; simpl; [lia|].
  destruct (text_eqb k' k); simpl; lia.
Qed.

Lemma sum_counts_update_dictionary (new ref : dict) :
  sum_counts (update_dictionary ref new)
  = (sum_counts ref + sum_counts new)%Z.
Proof.
  unfold update_dictionary. revert ref.
  induction new as [|[k v] new IH]; intros ref; simpl.
  - unfold sum_counts at 3. simpl. lia.
  - rewrite IH, sum_counts_dict_add. unfold sum_counts at 4. simpl.
    fold (sum_counts new). lia.
Qed.

Lemma sum_counts_fold_ids (ids : list text) (d : dict) :
  sum_counts (fold_left (fun d i => dict_add d i 1%Z) ids d)
  = (sum_counts d + Z.of_nat (length ids))%Z.
Proof.
  revert d; induction ids as [|i ids IH]; intros d; simpl length.
  - simpl. lia.
  - cbn [fold_left]. rewrite IH, sum_counts_dict_add. lia.
Qed.

Lemma sum_counts_Counter (ids : list text) :
  sum_counts (Counter ids) = Z.of_nat (length ids).
Proof. unfold Counter. now rewrite sum_counts_fold_ids. Qed.

Lemma scan_row_fillna0 (rt : runtime) (repo : repository) (pattern : regex)
      (h : text) :
  fillna0 (Scan.eid_occ (scan_row_of rt repo pattern h))
  = Z.of_nat (length (ids_of rt repo pattern h)).
Proof.
  unfold scan_row_of, ids_of. simpl. now destruct (content repo h).
Qed.

Lemma sum_counts_scan (rt : runtime) (repo : repository) (pattern : regex)
      (blobs : list text) (d : dict) :
  sum_counts
    (fold_left
       (fun acc h => update_dictionary acc (Counter (ids_of rt repo pattern h)))
       blobs d)
  = (sum_counts d + sum_eid_occ (map (scan_row_of rt repo pattern) blobs))%Z.
Proof.
  revert d; induction blobs as [|h blobs IH]; intros d.
  - unfold sum_eid_occ. simpl. lia.
  - cbn [fold_left]. rewrite IH, sum_counts_update_dictionary, sum_counts_Counter.
    unfold sum_eid_occ. cbn [map fold_right]. rewrite scan_row_fillna0. lia.
Qed.

(** C9.  The counts of the ID frequency table add up to the sum of
    eid_occ over the rows of the scan, an unreadable blob counting 0;
    there is one row for each distinct blob_hash of the table, so a
    blob that many rows of the table mention is counted once. *)
Theorem frequency_sum_is_scan_sum (rt : runtime) (repo : repository)
        (df : list (option text)) (pattern : regex) :
  exists (rows : list Scan.row) (eids : dict),
    result (analyze_glob_hashes_for_pattern rt repo df pattern)
    = Ok (rows, eids)
    /\ sum_counts eids = sum_eid_occ rows
    /\ map Scan.blob_hash rows = unique text_eqb (dropna df)
    /\ NoDup (map Scan.blob_hash rows)
    /\ (forall r, In r rows ->
          fillna0 (Scan.eid_occ r)
          = Z.of_nat (length (ids_of rt repo pattern (Scan.blob_hash r)))).
Proof.
  unfold analyze_glob_hashes_for_pattern. rewrite scan_loop_spec.
  eexists _, _. split; [reflexivity|]. cbn [app].
  rewrite scan_rows_blob_hash, sum_counts_scan.
  repeat split.
  - apply (unique_nodup text_eqb text_eqb_eq).
  - intros r Hr. apply in_map_iff in Hr as (h & <- & _).
    apply scan_row_fillna0.
Qed.

(** ** Results of the monad *)

Lemma result_bind (A B : Type) (m : M A) (f : A -> M B) (b : B) :
  result (bind m f) = Ok b ->
  exists a, result m = Ok a /\ result (f a) = Ok b.
Proof.
  unfold result, bind. destruct m as [l [a|e]]; simpl.
  - destruct (f a) as [l' r] eqn:E. simpl. intros ->. exists a.
    now rewrite E.
  - discriminate.
Qed.

Lemma result_lift (A : Type) (o : outcome A) : result (lift o) = o.
Proof. reflexivity. Qed.

Lemma obind_ok (A B : Type) (o : outcome A) (f : A -> outcome B) (b : B) :
  obind o f = Ok b -> exists a, o = Ok a /\ f a = Ok b.
Proof. destruct o as [a|e]; simpl; [eauto|discriminate]. Qed.

Lemma traverse_ok (A B : Type) (f : A -> outcome B) (l : list A)
      (bs : list B) :
  traverse f l = Ok bs ->
  length bs = length l
  /\ forall a, In a l -> exists b, In (a, b) (combine l bs) /\ f a = Ok b.
Proof.
  revert bs; induction l as [|x l IH]; intros bs; simpl.
  - intros E. injection E as <-. split; [reflexivity|]. intros a [].
  - intros E. apply obind_ok in E as (b & Eb & E).
    apply obind_ok in E as (bs' & Ebs & E). injection E as <-.
    destruct (IH _ Ebs) as [Hlen Hin]. split; [simpl; congruence|].
    intros a [<-|Ha].
    + exists b. split; [now left|assumption].
    + destruct (Hin a Ha) as (b' & Hb' & Ef). exists b'.
      split; [now right|assumption].
Qed.

Lemma traverse_combine (A B : Type) (f : A -> outcome B) (l : list A)
      (bs : list B) :
  traverse f l = Ok bs ->
  forall a b, In (a, b) (combine l bs) -> In a l /\ f a = Ok b.
Proof.
  revert bs; induction l as [|x l IH]; intros bs; simpl.
  - intros _ a b [].
  - intros E. apply obind_ok in E as (b0 & Eb & E).
    apply obind_ok in E as (bs' & Ebs & E). injection E as <-.
    intros a b [H|H].
    + injection H as <- <-. split; [now left|assumption].
    + destruct (IH _ Ebs a b H). split; [now right|assumption].
Qed.

(** ** Left joins *)

Lemma left_join_keeps (L R : Type) (on : L -> R -> bool) (left : list L)
      (right : list R) (l : L) :
  In l left -> (forall r, In r right -> on l r = false) ->
  In (l, None) (left_join on left right).
Proof.
  intros Hl Hr. unfold left_join. apply in_flat_map. exists l.
  split; [assumption|].
  replace (filter (on l) right) with (@nil R); [now left|].
  symmetry. induction right as [|r right IH]; [reflexivity|].
  simpl. rewrite Hr by now left. apply IH. intros r' Hr'. apply Hr. now right.
Qed.

Lemma left_join_from (L R : Type) (on : L -> R -> bool) (left : list L)
      (right : list R) (l : L) (o : option R) :
  In (l, o) (left_join on left right) ->
  In l left /\ forall r, o = Some r -> In r right /\ on l r = true.
Proof.
  unfold left_join. rewrite in_flat_map. intros (l' & Hl' & H).
  destruct (filter (on l') right) as [|m ms] eqn:F.
  - destruct H as [H|[]]. injection H as <- <-. split; [assumption|].
    discriminate.
  - apply in_map_iff in H as (r & E & Hr). injection E as <- <-.
    split; [assumption|]. intros r' E. injection E as <-.
    rewrite <- F in Hr. now apply filter_In in Hr.
Qed.

Lemma merge_ok (L R : Type) (on : L -> R -> bool) (left : list L)
      (right : list R) (out : list (L * option R)) :
  merge on left right = Ok out -> out = left_join on left right.
Proof. unfold merge. destruct (has_columns right); congruence. Qed.

(** ** The audit table *)

Section AuditTable.

Variable rt : runtime.
Variable repo : repository.

(** The intermediate tables of a run that reaches [sort_values]. *)
Lemma unsorted_audit_inv (pre : list Audit.row) (eids : dict) :
  result (unsorted_audit rt repo) = Ok (Some (pre, eids)) ->
  exists (full_log_df : list Log.row) (blob_hashes_df : list Tree.row)
         (glob_hash_hits : list Scan.row) (statuses : list text),
    let merged_df := left_join on_commit_filename full_log_df blob_hashes_df in
    let sized_df :=
      left_join (on_blob_hash merged_blob_hash sz_blob_hash)
        merged_df (git_sizes repo) in
    let final_df :=
      left_join (on_blob_hash (fun r => merged_blob_hash (fst r))
                   Scan.blob_hash)
        sized_df glob_hash_hits in
    let named := analyse_file_names rt final_df regex_pattern in
    parse_full_log_to_dataframe rt (git_log repo) = Ok full_log_df
    /\ result (get_blob_hashes_for_commits repo
                 (map Log.commit full_log_df)) = Ok blob_hashes_df
    /\ result (analyze_glob_hashes_for_pattern rt repo
                 (map (fun r => merged_blob_hash (fst r)) sized_df)
                 regex_pattern) = Ok (glob_hash_hits, eids)
    /\ traverse
         (fun n : joined * Z * text =>
            contextualise_git_status rt
              (PyStr (Log.status (j_log (fst (fst n))))))
         named = Ok statuses
    /\ pre = map (fun ns => finish_row rt (fst ns) (snd ns))
               (combine named statuses).
Proof.
  unfold unsorted_audit. intros H.
  apply result_bind in H as (full_log_df & Hlog & H).
  rewrite result_lift in Hlog.
  destruct (negb (has_columns full_log_df) || empty full_log_df);
    [discriminate|].
  apply result_bind in H as (blob_hashes_df & Htree & H).
  apply result_bind in H as (merged_df & Hm & H).
  rewrite result_lift in Hm. apply merge_ok in Hm. subst merged_df.
  apply result_bind in H as ([glob_hash_hits total] & Hscan & H).
  apply result_bind in H as (final_df & Hf & H).
  rewrite result_lift in Hf. apply merge_ok in Hf. subst final_df.
  apply result_bind in H as (statuses & Hst & H).
  rewrite result_lift in Hst.
  injection H as <- <-.
  exists full_log_df, blob_hashes_df, glob_hash_hits, statuses.
  cbv zeta. auto.
Qed.

Lemma audit_repository_inv (final : list Audit.row) (eids : dict) :
  result (audit_repository rt repo) = Ok (Report final eids) ->
  exists (pre : list Audit.row) (eids0 : dict),
    result (unsorted_audit rt repo) = Ok (Some (pre, eids0))
    /\ final = sort_values rt Audit.total_occ pre
    /\ eids = sort_values rt snd eids0.
Proof.
  unfold audit_repository. intros H.
  apply result_bind in H as ([[pre eids0]|] & Hu & H); [|discriminate].
  destruct (negb (empty pre)); [|discriminate].
  injection H as <- <-. now exists pre, eids0.
Qed.

End AuditTable.

(** ** Insertion sort meets the promise of [sort_values] *)

Lemma insert_by_perm (A : Type) (strict : bool) (key : A -> Z) (x : A)
      (l : list A) :
  Permutation (insert_by strict key x l) (x :: l).
Proof.
  induction l as [|y l IH]; simpl; [reflexivity|].
  destruct (if strict then _ else _); [reflexivity|].
  rewrite IH. apply perm_swap.
Qed.

Lemma sort_by_acc_perm (A : Type) (strict : bool) (key : A -> Z)
      (l acc : list A) :
  Permutation (fold_left (fun a x => insert_by strict key x a) l acc)
              (acc ++ l).
Proof.
  revert acc; induction l as [|x l IH]; intros acc; simpl.
  - now rewrite app_nil_r.
  - rewrite IH, insert_by_perm. simpl. apply Permutation_middle.
Qed.

Lemma sort_by_perm (A : Type) (strict : bool) (key : A -> Z) (l : list A) :
  Permutation (sort_by strict key l) l.
Proof. unfold sort_by. now rewrite sort_by_acc_perm. Qed.

Lemma insert_by_descending (A : Type) (strict : bool) (key : A -> Z) (x : A)
      (l : list A) :
  descending key l -> descending key (insert_by strict key x l).
Proof.
  unfold descending. induction 1 as [|y l Hl IH Hy]; simpl.
  - repeat constructor.
  - destruct (if strict then _ else _) eqn:C.
    + constructor; [now constructor|].
      assert (Hxy : (key y <= key x)%Z).
      { destruct strict; [apply Z.ltb_lt in C|apply Z.leb_le in C]; lia. }
      constructor; [assumption|].
      eapply Forall_impl; [|exact Hy]. simpl. intros z Hz. lia.
    + constructor; [assumption|].
      assert (Hxy : (key x <= key y)%Z).
      { destruct strict; [apply Z.ltb_ge in C|apply Z.leb_gt in C]; lia. }
      apply (Permutation_Forall (Permutation_sym (insert_by_perm strict key x l))).
      now constructor.
Qed.

Lemma sort_by_descending (A : Type) (strict : bool) (key : A -> Z)
      (l : list A) :
  descending key (sort_by strict key l).
Proof.
  unfold sort_by.
  assert (G : forall acc, descending key acc ->
            descending key (fold_left (fun a x => insert_by strict key x a) l acc)).
  { induction l as [|x l IH]; intros acc Hacc; simpl; [assumption|].
    apply IH. now apply insert_by_descending. }
  apply G. constructor.
Qed.

Lemma small_runtime_permutes :
  sort_values_permutes small_runtime.
Proof. intros A key l. apply sort_by_perm. Qed.

(** ** Rows of the audit table *)

Section AuditRows.

Variable rt : runtime.
Variable repo : repository.

Lemma analyze_rows (df : list (option text)) (pattern : regex)
      (rows : list Scan.row) (eids : dict) :
  result (analyze_glob_hashes_for_pattern rt repo df pattern)
  = Ok (rows, eids) ->
  rows = map (scan_row_of rt repo pattern) (unique text_eqb (dropna df)).
Proof.
  unfold analyze_glob_hashes_for_pattern. rewrite scan_loop_spec.
  unfold result. simpl. congruence.
Qed.

Lemma scan_row_eid_occ_nonneg (pattern : regex) (h : text) (n : Z) :
  Scan.eid_occ (scan_row_of rt repo pattern h) = Some n -> (0 <= n)%Z.
Proof.
  unfold scan_row_of. simpl. destruct (content repo h); simpl;
    [|discriminate].
  intros E. injection E as <-. lia.
Qed.

(** Every row before the sort comes from a row of the joined table, the
    filename columns being computed from its path and the status from
    its status code. *)
Lemma pre_row_inv (pre : list Audit.row) (eids : dict) (row : Audit.row) :
  result (unsorted_audit rt repo) = Ok (Some (pre, eids)) ->
  In row pre ->
  exists (j : joined) (status : text),
    row = finish_row rt
            (j, filename_occ_of rt regex_pattern (Log.filename (j_log j)),
             file_ext_of rt (Log.filename (j_log j))) status
    /\ contextualise_git_status rt (PyStr (Log.status (j_log j))) = Ok status
    /\ forall s, j_scan j = Some s ->
         exists h, s = scan_row_of rt repo regex_pattern h.
Proof.
  intros H Hrow.
  destruct (unsorted_audit_inv _ _ H)
    as (logs & trees & hits & statuses & _ & _ & Hscan & Hst & ->).
  apply in_map_iff in Hrow as ([n status] & <- & Hin).
  destruct (traverse_combine _ _ Hst _ _ Hin) as [Hn Hs].
  unfold analyse_file_names in Hn. apply in_map_iff in Hn as (j & <- & Hj).
  exists j, status. split; [reflexivity|]. split; [exact Hs|].
  intros s Es. destruct j as [js o]. unfold j_scan in Es. simpl in Es. subst o.
  apply left_join_from in Hj as [_ Hj].
  destruct (Hj s eq_refl) as [Hs' _].
  rewrite (analyze_rows _ _ Hscan) in Hs'.
  apply in_map_iff in Hs' as (h & <- & _). now exists h.
Qed.

End AuditRows.

(** C3.  In every row of the final table total_occ is eid_occ, a NaN
    counted as 0, plus filename_occ; filename_occ is 1 when
    [regex_pattern] is found in the file name, that is when the name
    holds a sensitive ID, and 0 otherwise; eid_occ, when known, and
    total_occ are not negative. *)
Theorem total_occ_is_content_plus_filename (rt : runtime) (repo : repository)
        (final : list Audit.row) (eids : dict) :
  sort_values_permutes rt ->
  result (audit_repository rt repo) = Ok (Report final eids) ->
  forall row, In row final ->
    Audit.total_occ row
    = (fillna0 (Audit.eid_occ row) + Audit.filename_occ row)%Z
    /\ Audit.filename_occ row
       = match search (is_decimal rt) regex_pattern (Audit.filename row) with
         | Some _ => 1%Z
         | None => 0%Z
         end
    /\ Audit.filename_occ row
       = match sensitive_ids (is_decimal rt) (Audit.filename row) with
         | [] => 0%Z
         | _ :: _ => 1%Z
         end
    /\ (forall n, Audit.eid_occ row = Some n -> (0 <= n)%Z)
    /\ (0 <= Audit.total_occ row)%Z.
Proof.
  intros Hperm H row Hrow.
  destruct (audit_repository_inv _ _ H) as (pre & eids0 & Hpre & -> & _).
  apply (Permutation_in _ (Hperm _ Audit.total_occ pre)) in Hrow.
  destruct (pre_row_inv _ _ _ Hpre Hrow) as (j & status & -> & _ & Hscan).
  assert (Hnn : forall n,
             match j_scan j with
             | Some s => Scan.eid_occ s
             | None => None
             end = Some n -> (0 <= n)%Z).
  { intros n. destruct (j_scan j) as [s|]; [|discriminate].
    destruct (Hscan s eq_refl) as [h ->]. apply scan_row_eid_occ_nonneg. }
  unfold finish_row. cbn [Audit.total_occ Audit.eid_occ Audit.filename_occ
                          Audit.filename fillna0].
  split; [reflexivity|]. split; [reflexivity|].
  split; [apply search_regex_pattern|]. split; [exact Hnn|].
  assert (Hocc : (0 <= filename_occ_of rt regex_pattern
                         (Log.filename (j_log j)))%Z).
  { unfold filename_occ_of. destruct (search _ _ _); lia. }
  destruct (match j_scan j with Some s => Scan.eid_occ s | None => None end)
    as [n|] eqn:E; simpl.
  - specialize (Hnn n eq_refl). lia.
  - lia.
Qed.

(** ** The model of [sort_values] sorts

    Arrays *)

Section IntrosortFacts.

Variable A : Type.
Variable key : A -> Z.

Lemma length_store (a : list A) (i : nat) (x : A) :
  length (store a i x) = length a.
Proof.
  revert i; induction a as [|y a IH]; intros [|i]; simpl; auto.
Qed.

Lemma nth_store_eq (a : list A) (i : nat) (x d : A) :
  i < length a -> nth i (store a i x) d = x.
Proof.
  revert i; induction a as [|y a IH]; intros [|i] H; simpl in *;
    try lia; auto. apply IH. lia.
Qed.

Lemma nth_store_neq (a : list A) (i j : nat) (x d : A) :
  i <> j -> nth j (store a i x) d = nth j a d.
Proof.
  revert i j; induction a as [|y a IH]; intros [|i] [|j] H; simpl;
    try congruence; auto.
Qed.

Lemma store_perm (a : list A) (j : nat) (y d : A) :
  j < length a -> Permutation (nth j a d :: store a j y) (y :: a).
Proof.
  revert j; induction a as [|z a IH]; intros [|j] H; simpl in *; try lia.
  - apply perm_swap.
  - etransitivity; [apply perm_swap|].
    etransitivity; [apply perm_skip, IH; lia|]. apply perm_swap.
Qed.

Lemma length_swap (d : A) (a : list A) (i j : nat) :
  length (swap d a i j) = length a.
Proof. unfold swap. now rewrite !length_store. Qed.

Lemma swap_perm (d : A) (a : list A) (i j : nat) :
  i < length a -> j < length a -> Permutation (swap d a i j) a.
Proof.
  unfold swap. revert i j; induction a as [|y a IH]; intros [|i] [|j] Hi Hj;
    simpl in *; try lia.
  - reflexivity.
  - apply store_perm. lia.
  - apply store_perm. lia.
  - apply perm_skip, IH; lia.
Qed.

Lemma nth_swap (d : A) (a : list A) (i j k : nat) :
  i < length a -> j < length a ->
  nth k (swap d a i j) d
  = if k =? j then nth i a d else if k =? i then nth j a d else nth k a d.
Proof.
  intros Hi Hj. unfold swap.
  destruct (Nat.eqb_spec k j) as [->|Hkj].
  - apply nth_store_eq. now rewrite length_store.
  - rewrite nth_store_neq by congruence.
    destruct (Nat.eqb_spec k i) as [->|Hki].
    + now apply nth_store_eq.
    + apply nth_store_neq. congruence.
Qed.

(** *** The insertion sort *)

Lemma shift_in_perm (x : A) (s : list A) : Permutation (shift_in key x s) (x :: s).
Proof.
  induction s as [|y s IH]; simpl; [reflexivity|].
  destruct (less key x y); [|reflexivity].
  etransitivity; [apply perm_skip, IH|apply perm_swap].
Qed.

Lemma shift_in_sorted (x : A) (s : list A) :
  descending key s -> descending key (shift_in key x s).
Proof.
  unfold descending.
  induction s as [|y s IH]; intros H; simpl.
  - constructor; constructor.
  - inversion H as [|? ? Hs Hy]; subst. unfold less.
    destruct (Z.ltb_spec (key x) (key y)) as [L|L].
    + constructor; [now apply IH|].
      apply (Permutation_Forall (Permutation_sym (shift_in_perm x s))).
      constructor; [lia|assumption].
    + constructor; [assumption|]. constructor; [lia|].
      eapply Forall_impl; [|exact Hy]. simpl. intros; lia.
Qed.

Lemma fold_shift_in (a s : list A) :
  descending key s ->
  descending key (fold_left (fun s x => shift_in key x s) a s)
  /\ Permutation (fold_left (fun s x => shift_in key x s) a s) (a ++ s).
Proof.
  revert s; induction a as [|x a IH]; intros s H; simpl.
  - split; [assumption|reflexivity].
  - destruct (IH _ (shift_in_sorted x H)) as [S P]. split; [assumption|].
    etransitivity; [exact P|].
    etransitivity; [apply Permutation_app_head, shift_in_perm|].
    symmetry. apply Permutation_middle.
Qed.

Lemma sorted_app (R : A -> A -> Prop) (l1 l2 : list A) :
  StronglySorted R l1 -> StronglySorted R l2 ->
  (forall x y, In x l1 -> In y l2 -> R x y) ->
  StronglySorted R (l1 ++ l2).
Proof.
  induction 1 as [|x l1 Hs IH Hx]; intros H2 H; simpl; [assumption|].
  constructor.
  - apply IH; [assumption|]. intros; apply H; simpl; auto.
  - apply Forall_app. split; [assumption|].
    apply Forall_forall. intros y Hy. apply H; simpl; auto.
Qed.

Lemma sorted_rev (R : A -> A -> Prop) (l : list A) :
  StronglySorted R l -> StronglySorted (fun x y => R y x) (rev l).
Proof.
  induction 1 as [|x l Hs IH Hx]; simpl; [constructor|].
  apply sorted_app; [assumption|constructor; constructor|].
  intros y z Hy [<-|[]]. apply in_rev in Hy.
  now apply (proj1 (Forall_forall _ _) Hx).
Qed.

Lemma insertion_sort_spec (a : list A) :
  ascending key (insertion_sort key a) /\ Permutation (insertion_sort key a) a.
Proof.
  unfold insertion_sort.
  destruct (@fold_shift_in a []) as [S P]; [constructor|].
  split.
  - apply (sorted_rev S).
  - etransitivity; [symmetry; apply Permutation_rev|].
    now rewrite app_nil_r in P.
Qed.


(** *** The partition *)

Lemma run_less_spec (vp : Z) (l : list A) (d : A) (b : nat) :
  b < length l -> (vp <= key (nth b l d))%Z ->
  run_less key vp l <= b
  /\ (forall k, k < run_less key vp l -> (key (nth k l d) < vp)%Z)
  /\ (vp <= key (nth (run_less key vp l) l d))%Z.
Proof.
  revert b; induction l as [|x l IH]; intros b Hb Hvb; simpl in *; [lia|].
  destruct (Z.ltb_spec (key x) vp) as [L|L].
  - destruct b as [|b]; [lia|].
    destruct (IH b) as (H1 & H2 & H3); [lia|assumption|].
    split; [lia|]. split; [|assumption].
    intros [|k] Hk; [assumption|]. apply H2. lia.
  - split; [lia|]. split; [intros k Hk; lia|assumption].
Qed.

Lemma scan_up_spec (vp : Z) (a : list A) (d : A) (i b : nat) :
  i <= b -> b < length a -> (vp <= key (nth b a d))%Z ->
  i <= scan_up key vp a i <= b
  /\ (forall k, i <= k < scan_up key vp a i -> (key (nth k a d) < vp)%Z)
  /\ (vp <= key (nth (scan_up key vp a i) a d))%Z.
Proof.
  intros Hib Hb Hvb. unfold scan_up.
  destruct (@run_less_spec vp (skipn i a) d (b - i)) as (H1 & H2 & H3).
  - rewrite length_skipn. lia.
  - rewrite nth_skipn. now replace (i + (b - i)) with b by lia.
  - rewrite nth_skipn in H3. split; [lia|]. split; [|assumption].
    intros k Hk. specialize (H2 (k - i)). rewrite nth_skipn in H2.
    replace (i + (k - i)) with k in H2 by lia. apply H2. lia.
Qed.

Lemma scan_down_spec (vp : Z) (a : list A) (d : A) (j b : nat) :
  b <= j -> (key (nth b a d) <= vp)%Z ->
  b <= scan_down key d vp a j <= j
  /\ (forall k, scan_down key d vp a j < k <= j -> (vp < key (nth k a d))%Z)
  /\ (key (nth (scan_down key d vp a j) a d) <= vp)%Z.
Proof.
  induction j as [|j IH]; intros Hb Hvb; simpl.
  - assert (b = 0) as -> by lia.
    destruct (Z.ltb_spec vp (key (nth 0 a d))); [lia|].
    split; [lia|]. split; [intros; lia|assumption].
  - destruct (Z.ltb_spec vp (key (nth (S j) a d))) as [L|L].
    + assert (b <= j).
      { destruct (Nat.eq_dec b (S j)) as [->|]; lia. }
      destruct IH as (H1 & H2 & H3); [assumption|assumption|].
      split; [lia|]. split; [|assumption].
      intros k Hk. destruct (Nat.eq_dec k (S j)) as [->|]; [assumption|].
      apply H2. lia.
    + split; [lia|]. split; [intros; lia|assumption].
Qed.

Lemma hoare_spec (fuel : nat) (d : A) (vp : Z) (a : list A) (pi pj : nat) :
  pi < pj -> pj <= length a - 2 -> 2 <= length a -> pj - pi <= fuel ->
  (forall k, k <= pi -> (key (nth k a d) <= vp)%Z) ->
  (forall k, pj <= k < length a -> (vp <= key (nth k a d))%Z) ->
  exists a' p,
    hoare key fuel d vp a pi pj = (a', p)
    /\ Permutation a' a
    /\ length a' = length a
    /\ pi < p <= pj
    /\ (forall k, length a - 2 <= k -> nth k a' d = nth k a d)
    /\ (forall k, k < p -> (key (nth k a' d) <= vp)%Z)
    /\ (forall k, p <= k < length a -> (vp <= key (nth k a' d))%Z).
Proof.
  revert a pi pj; induction fuel as [|fuel IH]; intros a pi pj Hlt Hpj Hn Hf Hlo Hhi;
    [lia|].
  cbn [hoare].
  destruct (@scan_up_spec vp a d (S pi) pj) as (U1 & U2 & U3);
    [lia|lia|apply Hhi; lia|].
  destruct (@scan_down_spec vp a d (pj - 1) pi) as (D1 & D2 & D3);
    [lia|apply Hlo; lia|].
  set (pi' := scan_up key vp a (S pi)) in *.
  set (pj' := scan_down key d vp a (pj - 1)) in *.
  assert (Hlow : forall k, k < pi' -> (key (nth k a d) <= vp)%Z).
  { intros k Hk. destruct (Nat.le_gt_cases k pi) as [L|L]; [now apply Hlo|].
    specialize (U2 k). lia. }
  assert (Hhigh : forall k, pj' < k < length a -> (vp <= key (nth k a d))%Z).
  { intros k Hk. destruct (Nat.le_gt_cases pj k) as [L|L]; [apply Hhi; lia|].
    specialize (D2 k). lia. }
  destruct (Nat.leb_spec pj' pi') as [E|E].
  - exists a, pi'. split; [reflexivity|]. split; [reflexivity|].
    split; [reflexivity|]. split; [lia|]. split; [reflexivity|].
    split; [assumption|].
    intros k Hk. destruct (Nat.eq_dec k pi') as [->|]; [assumption|].
    apply Hhigh. lia.
  - assert (Hi : pi' < length a) by lia.
    assert (Hj : pj' < length a) by lia.
    destruct (IH (swap d a pi' pj') pi' pj') as (a' & p & E' & P & L & R & F & Lo & Hi').
    + assumption.
    + rewrite length_swap. lia.
    + now rewrite length_swap.
    + lia.
    + intros k Hk. rewrite nth_swap by assumption.
      destruct (Nat.eqb_spec k pj'); [lia|].
      destruct (Nat.eqb_spec k pi') as [->|]; [assumption|].
      apply Hlow. lia.
    + rewrite length_swap. intros k Hk. rewrite nth_swap by assumption.
      destruct (Nat.eqb_spec k pj') as [->|]; [assumption|].
      destruct (Nat.eqb_spec k pi'); [lia|].
      apply Hhigh. lia.
    + rewrite length_swap in *.
      exists a', p. split; [assumption|].
      split; [etransitivity; [exact P|now apply swap_perm]|].
      split; [assumption|]. split; [lia|].
      split; [|split; assumption].
      intros k Hk. rewrite F by assumption. rewrite nth_swap by assumption.
      destruct (Nat.eqb_spec k pj'); [lia|].
      destruct (Nat.eqb_spec k pi'); [lia|reflexivity].
Qed.

Lemma median_of_three_spec (d : A) (a : list A) :
  3 <= length a ->
  Permutation (median_of_three key d a) a
  /\ length (median_of_three key d a) = length a
  /\ (key (nth 0 (median_of_three key d a) d)
      <= key (nth ((length a - 1) / 2) (median_of_three key d a) d))%Z
  /\ (key (nth ((length a - 1) / 2) (median_of_three key d a) d)
      <= key (nth (length a - 1) (median_of_three key d a) d))%Z.
Proof.
  intros Hn. unfold median_of_three.
  set (pm := (length a - 1) / 2). set (pr := length a - 1).
  assert (Hm : 0 < pm < pr).
  { unfold pm, pr. split.
    - apply Nat.div_str_pos. lia.
    - apply Nat.Div0.div_lt_upper_bound; lia. }
  assert (Hr : pr < length a) by (unfold pr; lia).
  set (a1 := if less key (nth pm a d) (nth 0 a d) then swap d a pm 0 else a).
  assert (H1 : Permutation a1 a /\ length a1 = length a
               /\ (key (nth 0 a1 d) <= key (nth pm a1 d))%Z).
  { unfold a1, less. destruct (Z.ltb_spec (key (nth pm a d)) (key (nth 0 a d))).
    - split; [apply swap_perm; lia|]. split; [apply length_swap|].
      rewrite !nth_swap by lia. simpl.
      destruct (Nat.eqb_spec pm 0); [lia|]. rewrite Nat.eqb_refl. lia.
    - split; [reflexivity|]. split; [reflexivity|lia]. }
  destruct H1 as (P1 & L1 & O1).
  set (a2 := if less key (nth pr a1 d) (nth pm a1 d) then swap d a1 pr pm else a1).
  assert (H2 : Permutation a2 a /\ length a2 = length a
               /\ (key (nth pm a2 d) <= key (nth pr a2 d))%Z
               /\ (key (nth 0 a2 d) <= key (nth pr a2 d))%Z).
  { unfold a2, less.
    destruct (Z.ltb_spec (key (nth pr a1 d)) (key (nth pm a1 d))).
    - split; [etransitivity; [apply swap_perm; lia|assumption]|].
      split; [now rewrite length_swap|].
      rewrite !nth_swap by lia. rewrite !Nat.eqb_refl.
      destruct (Nat.eqb_spec pr pm); [lia|].
      destruct (Nat.eqb_spec 0 pm); [lia|].
      destruct (Nat.eqb_spec 0 pr); [lia|]. lia.
    - split; [assumption|]. split; [assumption|]. lia. }
  destruct H2 as (P2 & L2 & O2 & O2').
  unfold less.
  destruct (Z.ltb_spec (key (nth pm a2 d)) (key (nth 0 a2 d))).
  - split; [etransitivity; [apply swap_perm; lia|assumption]|].
    split; [now rewrite length_swap|].
    rewrite !nth_swap by lia. rewrite !Nat.eqb_refl. simpl.
    destruct (Nat.eqb_spec pm 0); [lia|].
    destruct (Nat.eqb_spec pr 0); [lia|].
    destruct (Nat.eqb_spec pr pm); [lia|]. lia.
  - split; [assumption|]. split; [assumption|]. lia.
Qed.

Lemma firstn_nth_skipn (a : list A) (d : A) (p : nat) :
  p < length a -> firstn p a ++ nth p a d :: skipn (S p) a = a.
Proof.
  revert p; induction a as [|x a IH]; intros [|p] H; simpl in *; try lia.
  - reflexivity.
  - f_equal. apply IH. lia.
Qed.

Lemma Forall_firstn_nth (P : A -> Prop) (a : list A) (d : A) (p : nat) :
  p <= length a -> (forall k, k < p -> P (nth k a d)) -> Forall P (firstn p a).
Proof.
  revert p; induction a as [|x a IH]; intros [|p] Hp H; simpl in *;
    try constructor; try lia.
  - apply (H 0). lia.
  - apply IH; [lia|]. intros k Hk. apply (H (S k)). lia.
Qed.

Lemma Forall_skipn_nth (P : A -> Prop) (a : list A) (d : A) (p : nat) :
  (forall k, p <= k < length a -> P (nth k a d)) -> Forall P (skipn p a).
Proof.
  revert p; induction a as [|x a IH]; intros [|p] H; simpl in *;
    try constructor.
  - apply (H 0). lia.
  - apply (IH 0). intros k Hk. apply (H (S k)). lia.
  - apply IH. intros k Hk. apply (H (S k)). lia.
Qed.

Lemma quick_partition_spec (d : A) (a : list A) :
  4 <= length a ->
  let '(lo, pivot, hi) := quick_partition key d a in
  Permutation (lo ++ pivot :: hi) a
  /\ Forall (fun x => (key x <= key pivot)%Z) lo
  /\ Forall (fun x => (key pivot <= key x)%Z) hi.
Proof.
  intros Hn. unfold quick_partition.
  destruct (@median_of_three_spec d a) as (P3 & L3 & O1 & O2); [lia|].
  set (a3 := median_of_three key d a) in *.
  set (pm := (length a - 1) / 2) in *.
  set (vp := key (nth pm a3 d)).
  assert (Hm : 0 < pm < length a - 1).
  { unfold pm. split.
    - apply Nat.div_str_pos. lia.
    - apply Nat.Div0.div_lt_upper_bound; lia. }
  set (a4 := swap d a3 pm (length a - 2)).
  assert (L4 : length a4 = length a) by (unfold a4; now rewrite length_swap).
  assert (N4 : forall k, nth k a4 d
               = if k =? length a - 2 then nth pm a3 d
                 else if k =? pm then nth (length a - 2) a3 d
                 else nth k a3 d).
  { intros k. unfold a4. apply nth_swap; lia. }
  destruct (@hoare_spec (length a) d vp a4 0 (length a - 2))
    as (a5 & p & E & P5 & L5 & R5 & F5 & Lo5 & Hi5).
  - lia.
  - lia.
  - lia.
  - lia.
  - intros k Hk. assert (k = 0) as -> by lia. rewrite N4.
    destruct (Nat.eqb_spec 0 (length a - 2)); [lia|].
    destruct (Nat.eqb_spec 0 pm); [lia|]. exact O1.
  - rewrite L4. intros k Hk. rewrite N4.
    destruct (Nat.eqb_spec k (length a - 2)); [unfold vp; lia|].
    assert (k = length a - 1) as -> by lia.
    destruct (Nat.eqb_spec (length a - 1) pm); [lia|]. exact O2.
  - rewrite E. rewrite L4 in *.
    set (a6 := swap d a5 p (length a - 2)).
    assert (N6 : forall k, nth k a6 d
                 = if k =? length a - 2 then nth p a5 d
                   else if k =? p then nth (length a - 2) a5 d
                   else nth k a5 d).
    { intros k. unfold a6. apply nth_swap; lia. }
    assert (L6 : length a6 = length a) by (unfold a6; now rewrite length_swap).
    assert (Hpivot : key (nth p a6 d) = vp).
    { rewrite N6. destruct (Nat.eqb_spec p (length a - 2)) as [->|].
      - rewrite F5 by lia. rewrite N4, Nat.eqb_refl. reflexivity.
      - rewrite Nat.eqb_refl, F5 by lia. now rewrite N4, Nat.eqb_refl. }
    split; [|split].
    + rewrite firstn_nth_skipn by lia.
      etransitivity; [apply swap_perm; lia|].
      etransitivity; [exact P5|].
      etransitivity; [apply swap_perm; lia|exact P3].
    + apply (@Forall_firstn_nth _ a6 d); [lia|].
      intros k Hk. rewrite Hpivot, N6.
      destruct (Nat.eqb_spec k (length a - 2)); [lia|].
      destruct (Nat.eqb_spec k p); [lia|]. now apply Lo5.
    + apply (@Forall_skipn_nth _ a6 d). rewrite L6.
      intros k Hk. rewrite Hpivot, N6.
      destruct (Nat.eqb_spec k (length a - 2)); [apply Hi5; lia|].
      destruct (Nat.eqb_spec k p); [lia|]. apply Hi5. lia.
Qed.

End IntrosortFacts.

(** *** Heap sort *)

Section HeapSortFacts.

Variable A : Type.
Variable key : A -> Z.
Variable d : A.

Local Notation "a .[ i ]" := (key (at1 d a i)) (at level 1, format "a .[ i ]").

Lemma length_store1 (a : list A) (i : nat) (x : A) :
  length (store1 a i x) = length a.
Proof. apply length_store. Qed.

Lemma at1_store1_eq (a : list A) (i : nat) (x : A) :
  1 <= i <= length a -> at1 d (store1 a i x) i = x.
Proof. intros H. unfold at1, store1. apply nth_store_eq. lia. Qed.

Lemma at1_store1_neq (a : list A) (i k : nat) (x : A) :
  1 <= i -> 1 <= k -> i <> k -> at1 d (store1 a i x) k = at1 d a k.
Proof. intros Hi Hk H. unfold at1, store1. apply nth_store_neq. lia. Qed.

Lemma store_same (a : list A) (i : nat) : store a i (nth i a d) = a.
Proof.
  revert i; induction a as [|y a IH]; intros [|i]; simpl; auto.
  now rewrite IH.
Qed.

Lemma store_store_perm (a : list A) (i j : nat) (x : A) :
  i < length a -> j < length a -> i <> j ->
  Permutation (store (store a i (nth j a d)) j x) (store a i x).
Proof.
  intros Hi Hj Hij.
  apply (@Permutation_cons_inv _ _ _ (nth j a d)).
  apply (@Permutation_cons_inv _ _ _ (nth i a d)).
  transitivity (x :: nth j a d :: a).
  - transitivity (nth i a d :: x :: store a i (nth j a d)).
    + apply perm_skip.
      pose proof (@store_perm _ (store a i (nth j a d)) j x d) as P.
      rewrite length_store, nth_store_neq in P by assumption.
      now apply P.
    + transitivity (x :: nth i a d :: store a i (nth j a d));
        [apply perm_swap|].
      now apply perm_skip, store_perm.
  - symmetry.
    transitivity (nth j a d :: nth i a d :: store a i x); [apply perm_swap|].
    transitivity (nth j a d :: x :: a); [|apply perm_swap].
    now apply perm_skip, store_perm.
Qed.

Lemma sift_spec (fuel : nat) (tmp : A) (a : list A) (lo i n : nat) :
  1 <= lo -> lo <= i -> i <= n -> n <= length a -> n < i + fuel ->
  hole_at key d lo n i tmp a ->
  heap_on key d lo n (sift key fuel d tmp a i n)
  /\ Permutation (sift key fuel d tmp a i n) (store1 a i tmp)
  /\ length (sift key fuel d tmp a i n) = length a
  /\ (forall k, n < k -> at1 d (sift key fuel d tmp a i n) k = at1 d a k).
Proof.
  revert a i; induction fuel as [|fuel IH]; intros a i Hlo Hi Hn Hlen Hf Hh.
  - cbn [sift]. split; [|split; [reflexivity|split; [apply length_store1|]]].
    + destruct Hh as (H1 & H2 & H3). intros p c Hp Hc Hpc.
      destruct (Nat.eq_dec p i) as [->|Np]; [unfold child in Hpc; lia|].
      rewrite (@at1_store1_neq a i p) by lia.
      destruct (Nat.eq_dec c i) as [->|Nc].
      * rewrite at1_store1_eq by lia. now apply H3.
      * rewrite at1_store1_neq by (unfold child in Hpc; lia). now apply H1.
    + intros k Hk. apply at1_store1_neq; lia.
  - cbn [sift]. destruct (Nat.leb_spec (i + i) n) as [Hj|Hj].
    + set (j := if (i + i <? n) && less key (at1 d a (i + i)) (at1 d a (i + i + 1))
                then i + i + 1 else i + i).
      assert (Hjc : child i j /\ j <= n
                    /\ forall c, c <= n -> child i c -> (a.[c] <= a.[j])%Z).
      { unfold j, less.
        destruct (Nat.ltb_spec (i + i) n) as [L|L]; simpl.
        - destruct (Z.ltb_spec a.[i + i] a.[i + i + 1]) as [C|C].
          + split; [right; reflexivity|]. split; [lia|].
            intros c Hc [->| ->]; lia.
          + split; [left; reflexivity|]. split; [lia|].
            intros c Hc [->| ->]; lia.
        - split; [left; reflexivity|]. split; [lia|].
          intros c Hc [->| ->]; lia. }
      destruct Hjc as (Cj & Jn & Jmax). clearbody j.
      assert (Ji : i < j) by (unfold child in Cj; lia).
      destruct Hh as (H1 & H2 & H3). unfold less.
      destruct (Z.ltb_spec (key tmp) a.[j]) as [T|T].
      * destruct (IH (store1 a i (at1 d a j)) j) as (R1 & R2 & R3 & R4);
          [lia|lia|lia|now rewrite length_store1|lia| |].
        -- split; [|split].
           ++ intros p c Hp Hc Hpc Np Nc.
              assert (1 <= c) by (unfold child in Hpc; lia).
              destruct (Nat.eq_dec p i) as [->|Npi].
              ** rewrite at1_store1_eq by lia.
                 rewrite at1_store1_neq by (unfold child in Hpc; lia).
                 now apply Jmax.
              ** rewrite (@at1_store1_neq a i p) by lia.
                 destruct (Nat.eq_dec c i) as [->|Nci].
                 --- rewrite at1_store1_eq by lia. now apply H2.
                 --- rewrite at1_store1_neq by lia. now apply H1.
           ++ intros p c Hp Hc Hpj Hjc.
              assert (p = i) as -> by (unfold child in *; lia).
              rewrite at1_store1_eq by lia.
              rewrite at1_store1_neq by (unfold child in *; lia).
              apply H1; [lia|assumption|assumption|lia|unfold child in *; lia].
           ++ intros p Hp Hpj.
              assert (p = i) as -> by (unfold child in *; lia).
              rewrite at1_store1_eq by lia. lia.
        -- rewrite length_store1 in R3.
           split; [assumption|]. split; [|split; [assumption|]].
           ++ etransitivity; [exact R2|]. unfold store1, at1.
              apply store_store_perm; lia.
           ++ intros k Hk. rewrite R4 by assumption.
              apply at1_store1_neq; lia.
      * split; [|split; [reflexivity|split; [apply length_store1|]]].
        -- intros p c Hp Hc Hpc.
           assert (1 <= c) by (unfold child in Hpc; lia).
           destruct (Nat.eq_dec p i) as [->|Np].
           ++ rewrite at1_store1_eq by lia.
              rewrite at1_store1_neq by (unfold child in Hpc; lia).
              specialize (Jmax c Hc Hpc). lia.
           ++ rewrite (@at1_store1_neq a i p) by lia.
              destruct (Nat.eq_dec c i) as [->|Nc].
              ** rewrite at1_store1_eq by lia. now apply H3.
              ** rewrite at1_store1_neq by lia. now apply H1.
        -- intros k Hk. apply at1_store1_neq; lia.
    + split; [|split; [reflexivity|split; [apply length_store1|]]].
      * destruct Hh as (H1 & H2 & H3). intros p c Hp Hc Hpc.
        assert (1 <= c) by (unfold child in Hpc; lia).
        destruct (Nat.eq_dec p i) as [->|Np]; [unfold child in Hpc; lia|].
        rewrite (@at1_store1_neq a i p) by lia.
        destruct (Nat.eq_dec c i) as [->|Nc].
        -- rewrite at1_store1_eq by lia. now apply H3.
        -- rewrite at1_store1_neq by lia. now apply H1.
      * intros k Hk. apply at1_store1_neq; lia.
Qed.


Lemma sift_entries (fuel : nat) (tmp : A) (a : list A) (i n : nat) (k : nat) :
  1 <= i -> i <= n -> n <= length a -> 1 <= k <= n ->
  at1 d (sift key fuel d tmp a i n) k = tmp
  \/ exists k', 1 <= k' <= n /\ at1 d (sift key fuel d tmp a i n) k = at1 d a k'.
Proof.
  revert a i; induction fuel as [|fuel IH]; intros a i Hi Hn Hlen Hk.
  - cbn [sift]. destruct (Nat.eq_dec i k) as [->|N].
    + left. apply at1_store1_eq. lia.
    + right. exists k. split; [lia|]. apply at1_store1_neq; lia.
  - cbn [sift].
    assert (Hdone : at1 d (store1 a i tmp) k = tmp
                    \/ exists k', 1 <= k' <= n
                                  /\ at1 d (store1 a i tmp) k = at1 d a k').
    { destruct (Nat.eq_dec i k) as [->|N].
      - left. apply at1_store1_eq. lia.
      - right. exists k. split; [lia|]. apply at1_store1_neq; lia. }
    destruct (Nat.leb_spec (i + i) n) as [Hj|Hj]; [|assumption].
    set (j := if (i + i <? n) && less key (at1 d a (i + i)) (at1 d a (i + i + 1))
              then i + i + 1 else i + i).
    assert (Hjn : i < j <= n).
    { unfold j. destruct (Nat.ltb_spec (i + i) n); simpl;
        [destruct (less key _ _)|]; lia. }
    clearbody j.
    destruct (less key tmp (at1 d a j)); [|assumption].
    destruct (IH (store1 a i (at1 d a j)) j) as [E|(k' & Hk' & E)];
      [lia|lia|now rewrite length_store1|assumption|now left|].
    right. rewrite E.
    destruct (Nat.eq_dec i k') as [<-|N].
    + exists j. split; [lia|]. apply at1_store1_eq. lia.
    + exists k'. split; [assumption|]. apply at1_store1_neq; lia.
Qed.

Lemma heapify_spec (a : list A) (l n : nat) :
  l <= n -> n <= length a -> heap_on key d (S l) n a ->
  heap_on key d 1 n (heapify key d a l n)
  /\ Permutation (heapify key d a l n) a
  /\ length (heapify key d a l n) = length a.
Proof.
  revert a; induction l as [|l IH]; intros a Hl Hn Hh; cbn [heapify].
  - split; [assumption|]. split; reflexivity.
  - destruct (@sift_spec n (at1 d a (S l)) a (S l) (S l) n)
      as (S1 & S2 & S3 & _); [lia|lia|lia|assumption|lia| |].
    + split; [|split].
      * intros p c Hp Hc Hpc Np Nc. apply Hh; [lia|assumption|assumption].
      * intros p c Hp Hc Hpl. unfold child in Hpl. lia.
      * intros p Hp Hpl. unfold child in Hpl. lia.
    + destruct (IH (sift key n d (at1 d a (S l)) a (S l) n)) as (R1 & R2 & R3);
        [lia|now rewrite S3|assumption|].
      split; [assumption|]. split; [|now rewrite R3].
      etransitivity; [exact R2|]. etransitivity; [exact S2|].
      unfold store1, at1. now rewrite store_same.
Qed.

Lemma heap_root_max (a : list A) (m : nat) :
  heap_on key d 1 m a -> forall k, 1 <= k <= m -> (a.[k] <= a.[1])%Z.
Proof.
  intros Hh k. induction k as [k IH] using lt_wf_ind. intros Hk.
  destruct (Nat.eq_dec k 1) as [->|N]; [lia|].
  pose proof (Nat.div_mod_eq k 2) as E.
  pose proof (Nat.mod_upper_bound k 2) as U.
  assert (Hc : child (k / 2) k) by (unfold child; lia).
  assert (Hp : 1 <= k / 2 < k) by lia.
  specialize (Hh (k / 2) k (proj1 Hp) (proj2 Hk) Hc).
  specialize (IH (k / 2) (proj2 Hp)). lia.
Qed.

Lemma sort_down_spec (m : nat) (a : list A) :
  m <= length a -> heap_on key d 1 m a ->
  (forall k k', 1 <= k <= m -> m < k' <= length a -> (a.[k] <= a.[k'])%Z) ->
  (forall k k', m < k -> k <= k' -> k' <= length a -> (a.[k] <= a.[k'])%Z) ->
  (forall k k', 1 <= k -> k <= k' -> k' <= length a ->
     ((sort_down key d a m).[k] <= (sort_down key d a m).[k'])%Z)
  /\ Permutation (sort_down key d a m) a
  /\ length (sort_down key d a m) = length a.
Proof.
  revert a; induction m as [|m IH]; intros a Hm Hh Hlow Hsuf.
  - cbn [sort_down]. split; [|split; reflexivity].
    intros k k' H1 H2 H3. apply Hsuf; lia.
  - cbn [sort_down]. destruct m as [|m'].
    + split; [|split; reflexivity].
      intros k k' H1 H2 H3.
      destruct (Nat.eq_dec k 1) as [->|N].
      * destruct (Nat.eq_dec k' 1) as [->|N']; [lia|]. apply Hlow; lia.
      * apply Hsuf; lia.
    + set (m := S m') in *. set (n := S m) in *.
      set (tmp := at1 d a n). set (a' := store1 a n (at1 d a 1)).
      assert (La' : length a' = length a) by apply length_store1.
      assert (Na' : forall k, 1 <= k -> k <> n -> at1 d a' k = at1 d a k).
      { intros k H1 H2. unfold a'. apply at1_store1_neq; lia. }
      assert (Nn : at1 d a' n = at1 d a 1).
      { unfold a'. apply at1_store1_eq. lia. }
      destruct (@sift_spec m tmp a' 1 1 m) as (S1 & S2 & S3 & S4);
        [lia|lia|lia|lia|lia| |].
      * split; [|split].
        -- intros p c Hp Hc Hpc Np Nc.
           rewrite !Na' by (unfold child in Hpc; lia).
           apply Hh; [assumption|lia|assumption].
        -- intros p c Hp Hc Hp1. unfold child in Hp1. lia.
        -- intros p Hp Hp1. unfold child in Hp1. lia.
      * set (a'' := sift key m d tmp a' 1 m) in *.
        assert (Hin : forall k, 1 <= k <= m ->
                        exists k0, 1 <= k0 <= n /\ at1 d a'' k = at1 d a k0).
        { intros k Hk.
          destruct (@sift_entries m tmp a' 1 m k) as [E|(k0 & Hk0 & E)];
            [lia|lia|lia|assumption| |].
          - exists n. split; [lia|exact E].
          - exists k0. split; [lia|]. unfold a''. rewrite E. apply Na'; lia. }
        clearbody a''.
        destruct (IH a'') as (R1 & R2 & R3).
        -- lia.
        -- assumption.
        -- intros k k' Hk Hk'. destruct (Hin k Hk) as (k0 & Hk0 & ->).
           rewrite S4 by lia.
           destruct (Nat.eq_dec k' n) as [->|N].
           ++ rewrite Nn. apply (heap_root_max Hh). lia.
           ++ rewrite Na' by lia. apply Hlow; lia.
        -- intros k k' Hk Hkk Hk'. rewrite !S4 by lia.
           destruct (Nat.eq_dec k n) as [->|N].
           ++ rewrite Nn. destruct (Nat.eq_dec k' n) as [->|N'].
              ** rewrite Nn. lia.
              ** rewrite Na' by lia. apply Hlow; lia.
           ++ rewrite !Na' by lia. apply Hsuf; lia.
        -- rewrite S3, La' in *.
           split; [intros k k' H1 H2 H3; apply R1; lia|].
           split; [|assumption].
           etransitivity; [exact R2|]. etransitivity; [exact S2|].
           unfold a', tmp, store1, at1.
           replace (1 - 1) with 0 by lia.
           etransitivity; [apply store_store_perm; lia|].
           now rewrite store_same.
Qed.

Lemma ascending_by_index (l : list A) :
  (forall k k', 1 <= k -> k <= k' -> k' <= length l -> (l.[k] <= l.[k'])%Z) ->
  ascending key l.
Proof.
  unfold ascending. induction l as [|x l IH]; intros H; constructor.
  - apply IH. intros k k' H1 H2 H3.
    specialize (H (S k) (S k')). unfold at1 in *. simpl in H.
    rewrite !Nat.sub_0_r in H.
    destruct k as [|k]; [lia|]. destruct k' as [|k']; [lia|].
    simpl. rewrite !Nat.sub_0_r. apply H; simpl; lia.
  - apply Forall_forall. intros y Hy.
    destruct (In_nth _ _ d Hy) as (k & Hk & <-).
    specialize (H 1 (S (S k))). unfold at1 in H. simpl in H.
    apply H; lia.
Qed.

Lemma aheapsort_spec (a : list A) :
  ascending key (aheapsort key d a) /\ Permutation (aheapsort key d a) a.
Proof.
  unfold aheapsort.
  pose proof (Nat.div_mod_eq (length a) 2) as E.
  pose proof (Nat.mod_upper_bound (length a) 2) as U.
  destruct (@heapify_spec a (length a / 2) (length a)) as (H1 & H2 & H3);
    [lia|lia| |].
  { intros p c Hp Hc Hpc. unfold child in Hpc. lia. }
  destruct (@sort_down_spec (length a) (heapify key d a (length a / 2) (length a)))
    as (R1 & R2 & R3); [lia| | | |].
  - assumption.
  - intros k k' Hk Hk'. lia.
  - intros k k' Hk Hkk Hk'. lia.
  - split.
    + apply ascending_by_index. rewrite R3. exact R1.
    + etransitivity; [exact R2|exact H2].
Qed.

End HeapSortFacts.

(** *** The whole sort *)

Section IntrosortSpec.

Variable A : Type.
Variable key : A -> Z.

Lemma ascending_around (lo hi : list A) (pivot : A) :
  ascending key lo -> ascending key hi ->
  Forall (fun x => (key x <= key pivot)%Z) lo ->
  Forall (fun x => (key pivot <= key x)%Z) hi ->
  ascending key (lo ++ pivot :: hi).
Proof.
  intros Hlo Hhi Flo Fhi. apply sorted_app; [assumption| |].
  - constructor; assumption.
  - intros x y Hx Hy.
    pose proof (proj1 (Forall_forall _ _) Flo x Hx) as Lx. simpl in Lx.
    destruct Hy as [<-|Hy]; [assumption|].
    pose proof (proj1 (Forall_forall _ _) Fhi y Hy) as Ly. simpl in Ly. lia.
Qed.

Lemma introsort_spec (fuel : nat) (cdepth : Z) (popped : bool) (a : list A) :
  length a <= fuel ->
  ascending key (introsort key fuel cdepth popped a)
  /\ Permutation (introsort key fuel cdepth popped a) a.
Proof.
  revert cdepth popped a; induction fuel as [|fuel IH];
    intros cdepth popped a Hf.
  - destruct a; [|simpl in Hf; lia]. split; [constructor|reflexivity].
  - cbn [introsort]. destruct a as [|d t]; [split; [constructor|reflexivity]|].
    set (a := d :: t) in *.
    destruct (popped && (cdepth <? 0)%Z); [apply aheapsort_spec|].
    destruct (Nat.ltb_spec 16 (length a - 1)) as [L|L];
      [|apply insertion_sort_spec].
    pose proof (@quick_partition_spec _ key d a) as P.
    destruct (quick_partition key d a) as [[lo pivot] hi].
    destruct P as (P & Flo & Fhi); [lia|].
    pose proof (Permutation_length P) as Len.
    rewrite length_app in Len. simpl in Len.
    assert (La : length a = S (length t)) by reflexivity.
    assert (Hlo : length lo <= fuel) by lia.
    assert (Hhi : length hi <= fuel) by lia.
    assert (Both : forall b1 b2,
              ascending key (introsort key fuel (cdepth - 1) b1 lo
                             ++ pivot :: introsort key fuel (cdepth - 1) b2 hi)
              /\ Permutation (introsort key fuel (cdepth - 1) b1 lo
                              ++ pivot :: introsort key fuel (cdepth - 1) b2 hi)
                   a).
    { intros b1 b2.
      destruct (IH (cdepth - 1)%Z b1 lo Hlo) as (S1 & P1).
      destruct (IH (cdepth - 1)%Z b2 hi Hhi) as (S2 & P2).
      split.
      - apply ascending_around; [assumption|assumption| |].
        + apply (Permutation_Forall (Permutation_sym P1)). assumption.
        + apply (Permutation_Forall (Permutation_sym P2)). assumption.
      - etransitivity; [|exact P].
        apply Permutation_app; [assumption|]. now apply perm_skip. }
    destruct (length lo <? length hi); apply Both.
Qed.

Lemma aquicksort_spec (a : list A) :
  ascending key (aquicksort key a) /\ Permutation (aquicksort key a) a.
Proof. unfold aquicksort. apply introsort_spec. lia. Qed.

Lemma pandas_sort_values_spec (l : list A) :
  descending key (pandas_sort_values key l)
  /\ Permutation (pandas_sort_values key l) l.
Proof.
  unfold pandas_sort_values.
  destruct (aquicksort_spec (rev l)) as (S & P). split.
  - apply (sorted_rev S).
  - etransitivity; [symmetry; apply Permutation_rev|].
    etransitivity; [exact P|]. symmetry. apply Permutation_rev.
Qed.

End IntrosortSpec.

(** C4, as the code has it.  The final table holds the rows that were
    there before the sort, ordered so that total_occ never increases.
    This is proved of the sort itself: [sort_values] is pandas'
    [nargsort] over numpy's quicksort.  The order among rows of equal
    total_occ is whatever that sort leaves. *)
Theorem final_table_descends (rt : runtime) (repo : repository)
        (final : list Audit.row) (eids : dict) :
  sorts_like_pandas rt ->
  result (audit_repository rt repo) = Ok (Report final eids) ->
  descending Audit.total_occ final
  /\ exists (pre : list Audit.row) (eids0 : dict),
       result (unsorted_audit rt repo) = Ok (Some (pre, eids0))
       /\ Permutation final pre.
Proof.
  intros Hsort H.
  destruct (audit_repository_inv _ _ H) as (pre & eids0 & Hpre & -> & _).
  rewrite Hsort.
  destruct (pandas_sort_values_spec Audit.total_occ pre) as (S & P).
  split; [exact S|]. exists pre, eids0. split; assumption.
Qed.

(** In a run that returns the final table, a change event without a
    tree entry for its commit and path (a deleted file) has a row in
    it: blob_hash, size_bytes, eid_occ, unique_occ and found_ids are
    null, and filename_occ and file_ext are computed from its path. *)
Theorem event_without_tree_entry_is_kept (rt : runtime) (repo : repository)
        (full_log_df : list Log.row) (blob_hashes_df : list Tree.row)
        (final : list Audit.row) (eids : dict) :
  sort_values_permutes rt ->
  parse_full_log_to_dataframe rt (git_log repo) = Ok full_log_df ->
  result (get_blob_hashes_for_commits repo (map Log.commit full_log_df))
  = Ok blob_hashes_df ->
  result (audit_repository rt repo) = Ok (Report final eids) ->
  forall ev, In ev full_log_df ->
    (forall t, In t blob_hashes_df -> on_commit_filename ev t = false) ->
    exists row,
      In row final
      /\ Audit.commit row = Log.commit ev
      /\ Audit.filename row = Log.filename ev
      /\ Audit.old_filename row = Log.old_filename ev
      /\ Audit.refs row = Log.refs ev
      /\ contextualise_git_status rt (PyStr (Log.status ev))
         = Ok (Audit.status row)
      /\ Audit.blob_hash row = None
      /\ Audit.size_bytes row = None
      /\ Audit.eid_occ row = None
      /\ Audit.unique_occ row = None
      /\ Audit.found_ids row = None
      /\ Audit.filename_occ row
         = filename_occ_of rt regex_pattern (Log.filename ev)
      /\ Audit.file_ext row = file_ext_of rt (Log.filename ev).
Proof.
  intros Hperm Hlog Htree H ev Hev Hno.
  destruct (audit_repository_inv _ _ H) as (pre & eids0 & Hpre & -> & _).
  destruct (unsorted_audit_inv _ _ Hpre)
    as (logs & trees & hits & statuses & Hlog' & Htree' & _ & Hst & ->).
  rewrite Hlog in Hlog'. injection Hlog' as <-.
  rewrite Htree in Htree'. injection Htree' as <-.
  set (j := (((ev, @None Tree.row), @None size_record), @None Scan.row)).
  assert (Hj : In j
                 (left_join
                    (on_blob_hash (fun r => merged_blob_hash (fst r))
                       Scan.blob_hash)
                    (left_join (on_blob_hash merged_blob_hash sz_blob_hash)
                       (left_join on_commit_filename full_log_df
                          blob_hashes_df)
                       (git_sizes repo))
                    hits)).
  { apply left_join_keeps; [|reflexivity].
    apply left_join_keeps; [|reflexivity].
    now apply left_join_keeps. }
  set (n := (j, filename_occ_of rt regex_pattern (Log.filename ev),
             file_ext_of rt (Log.filename ev))).
  assert (Hn : In n (analyse_file_names rt
                       (left_join
                          (on_blob_hash (fun r => merged_blob_hash (fst r))
                             Scan.blob_hash)
                          (left_join
                             (on_blob_hash merged_blob_hash sz_blob_hash)
                             (left_join on_commit_filename full_log_df
                                blob_hashes_df)
                             (git_sizes repo))
                          hits)
                       regex_pattern)).
  { unfold analyse_file_names. apply in_map_iff. now exists j. }
  destruct (proj2 (traverse_ok _ _ Hst) n Hn) as (status & Hc & Hs).
  exists (finish_row rt n status). split.
  - apply (Permutation_in _ (Permutation_sym (Hperm _ Audit.total_occ _))).
    apply in_map_iff. now exists (n, status).
  - repeat split. exact Hs.
Qed.

(** ** The small repository *)

Lemma small_log_parsed :
  parse_full_log_to_dataframe small_runtime (git_log small_repo)
  = Ok small_log_df.
Proof. vm_compute. reflexivity. Qed.

Lemma small_trees_listed :
  result (get_blob_hashes_for_commits small_repo (map Log.commit small_log_df))
  = Ok small_blob_hashes_df.
Proof. vm_compute. reflexivity. Qed.

Lemma small_audit_stable :
  result (audit_repository small_runtime small_repo)
  = Ok (Report (fst small_final_stable) (snd small_final_stable)).
Proof. vm_compute. reflexivity. Qed.

Lemma total_occ_is_content_plus_filename_witness :
  sort_values_permutes small_runtime
  /\ result (audit_repository small_runtime small_repo)
     = Ok (Report (fst small_final_stable) (snd small_final_stable))
  /\ forall row, In row (fst small_final_stable) ->
       Audit.total_occ row
       = (fillna0 (Audit.eid_occ row) + Audit.filename_occ row)%Z.
Proof.
  split; [apply small_runtime_permutes|].
  split; [exact small_audit_stable|].
  intros row Hrow.
  apply (@total_occ_is_content_plus_filename small_runtime small_repo
           _ _ small_runtime_permutes small_audit_stable row Hrow).
Defined.

Lemma pandas_runtime_sorts : sorts_like_pandas pandas_runtime.
Proof. intros A key l. reflexivity. Qed.

Lemma pandas_runtime_permutes : sort_values_permutes pandas_runtime.
Proof. intros A key l. apply pandas_sort_values_spec. Qed.

Lemma long_audit :
  result (audit_repository pandas_runtime long_repo)
  = Ok (Report (fst long_final) (snd long_final)).
Proof. vm_compute. reflexivity. Qed.

Lemma long_unsorted_audit :
  result (unsorted_audit pandas_runtime long_repo)
  = Ok (Some (fst long_unsorted, snd long_unsorted)).
Proof. vm_compute. reflexivity. Qed.

(** On the small repository the stand-in sort and the model of pandas'
    sort give the same table. *)
Lemma small_audit_pandas :
  result (audit_repository pandas_runtime small_repo)
  = Ok (Report (fst small_final_stable) (snd small_final_stable)).
Proof. vm_compute. reflexivity. Qed.

Lemma final_table_descends_witness :
  sorts_like_pandas pandas_runtime
  /\ result (audit_repository pandas_runtime long_repo)
     = Ok (Report (fst long_final) (snd long_final))
  /\ descending Audit.total_occ (fst long_final).
Proof.
  split; [exact pandas_runtime_sorts|].
  split; [exact long_audit|].
  apply (@final_table_descends pandas_runtime long_repo _ _
           pandas_runtime_sorts long_audit).
Defined.

(** In the longer history the table is in rising order of total_occ
    before the sort, f01.txt and f02.txt first with 0 each.  The sort
    turns the whole table round, these two rows with it: f02.txt comes
    out before f01.txt. *)
Lemma ties_change_places :
  result (unsorted_audit pandas_runtime long_repo)
  = Ok (Some (fst long_unsorted, snd long_unsorted))
  /\ result (audit_repository pandas_runtime long_repo)
     = Ok (Report (fst long_final) (snd long_final))
  /\ map Audit.total_occ (fst long_unsorted)
     = [0; 0; 1; 2; 3; 4; 5; 6; 7; 8; 9; 10; 11; 12; 13; 14; 15; 16]%Z
  /\ map Audit.filename (fst long_unsorted) = map long_name long_files
  /\ map Audit.filename (fst long_final) = rev (map long_name long_files)
  /\ map Audit.filename
       (filter (fun r => (Audit.total_occ r =? 0)%Z) (fst long_unsorted))
     = [str "f01.txt"; str "f02.txt"]
  /\ map Audit.filename
       (filter (fun r => (Audit.total_occ r =? 0)%Z) (fst long_final))
     = [str "f02.txt"; str "f01.txt"]
  /\ ~ keeps_tie_order Audit.total_occ (fst long_unsorted) (fst long_final).
Proof.
  split; [exact long_unsorted_audit|].
  split; [exact long_audit|].
  split; [vm_compute; reflexivity|].
  split; [vm_compute; reflexivity|].
  split; [vm_compute; reflexivity|].
  split; [vm_compute; reflexivity|].
  split; [vm_compute; reflexivity|].
  intros K. specialize (K 0%Z). vm_compute in K. discriminate K.
Qed.

Lemma small_deletion_has_no_tree_entry (t : Tree.row) :
  In t small_blob_hashes_df -> on_commit_filename small_deletion t = false.
Proof.
  unfold small_blob_hashes_df.
  intros [<-|[<-|[<-|[<-|[<-|[]]]]]]; vm_compute; reflexivity.
Qed.

Lemma event_without_tree_entry_is_kept_witness :
  sort_values_permutes small_runtime
  /\ parse_full_log_to_dataframe small_runtime (git_log small_repo)
     = Ok small_log_df
  /\ result (get_blob_hashes_for_commits small_repo
               (map Log.commit small_log_df)) = Ok small_blob_hashes_df
  /\ result (audit_repository small_runtime small_repo)
     = Ok (Report (fst small_final_stable) (snd small_final_stable))
  /\ In small_deletion small_log_df
  /\ (forall t, In t small_blob_hashes_df ->
        on_commit_filename small_deletion t = false)
  /\ exists row,
       In row (fst small_final_stable)
       /\ Audit.filename row = str "1234567.txt"
       /\ contextualise_git_status small_runtime (PyStr (str "D"))
          = Ok (Audit.status row)
       /\ Audit.blob_hash row = None
       /\ Audit.eid_occ row = None.
Proof.
  assert (Hin : In small_deletion small_log_df) by (now left).
  split; [apply small_runtime_permutes|].
  split; [exact small_log_parsed|].
  split; [exact small_trees_listed|].
  split; [exact small_audit_stable|].
  split; [exact Hin|].
  split; [exact small_deletion_has_no_tree_entry|].
  destruct (@event_without_tree_entry_is_kept small_runtime
              small_repo _ _ _ _ small_runtime_permutes
              small_log_parsed small_trees_listed small_audit_stable
              _ Hin small_deletion_has_no_tree_entry)
    as (row & Hrow & _ & Hf & _ & _ & Hst & Hb & _ & He & _).
  exists row. repeat split; assumption.
Defined.

(** C5.  The rows of change events without a tree entry are not always
    kept.  In the history that adds a submodule and then removes it,
    neither change event has a tree entry: [git ls-tree] lists no blob
    for either commit, the table of tree entries is built from an empty
    list and has no columns, and the first left join raises KeyError.
    No final table is produced, so the removal has no row in it. *)
Theorem event_without_tree_entry_raises :
  parse_full_log_to_dataframe small_runtime (git_log removed_submodule_repo)
  = Ok removed_submodule_log_df
  /\ get_blob_hashes_for_commits removed_submodule_repo
       (map Log.commit removed_submodule_log_df)
     = ([RanLsTree (str "c2"); RanLsTree (str "c1")], Ok [])
  /\ audit_repository small_runtime removed_submodule_repo
     = ([RanLsTree (str "c2"); RanLsTree (str "c1")], Raised KeyError).
Proof.
  split; [vm_compute; reflexivity|].
  split; [vm_compute; reflexivity|].
  vm_compute. reflexivity.
Qed.

(* ================================================================= *)
(** * Further properties *)

(** ** update_dictionary and Counter *)

Lemma in_keys_existsb (d : dict) (k : text) :
  existsb (text_eqb k) (keys d) = true <-> In k (keys d).
Proof. apply existsb_eqb. apply text_eqb_eq. Qed.

Lemma text_eqb_sym (a b : text) : text_eqb a b = text_eqb b a.
Proof.
  destruct (text_eqb a b) eqn:E.
  - apply text_eqb_eq in E. subst. symmetry. apply text_eqb_refl.
  - apply text_eqb_neq in E. symmetry. apply text_eqb_neq. congruence.
Qed.

Lemma dict_get_none (d : dict) (k : text) :
  dict_get d k = None <-> ~ In k (keys d).
Proof.
  induction d as [|[k' v] d IH]; simpl.
  - tauto.
  - destruct (text_eqb k' k) eqn:E.
    + apply text_eqb_eq in E. subst. split; [discriminate|]. intros H.
      destruct H. now left.
    + apply text_eqb_neq in E. rewrite IH. tauto.
Qed.

Lemma dict_get_dict_add (d : dict) (k : text) (v : Z) (k' : text) :
  dict_get (dict_add d k v) k'
  = if text_eqb k k' then Some (fillna0 (dict_get d k) + v)%Z
    else dict_get d k'.
Proof.
  induction d as [|[k0 v0] d IH]; simpl.
  - destruct (text_eqb k k'); reflexivity.
  - destruct (text_eqb k0 k) eqn:E0; simpl.
    + apply text_eqb_eq in E0. subst k0.
      destruct (text_eqb k k'); reflexivity.
    + rewrite IH. destruct (text_eqb k k') eqn:E.
      * apply text_eqb_eq in E. subst k'. now rewrite E0.
      * reflexivity.
Qed.

Lemma keys_dict_add (d : dict) (k : text) (v : Z) :
  keys (dict_add d k v)
  = if existsb (text_eqb k) (keys d) then keys d else keys d ++ [k].
Proof.
  induction d as [|[k0 v0] d IH]; simpl; [reflexivity|].
  rewrite (text_eqb_sym k k0).
  destruct (text_eqb k0 k); simpl; [reflexivity|].
  rewrite IH. now destruct (existsb (text_eqb k) (keys d)).
Qed.

Lemma unique_from_ext (A : Type) (eqb : A -> A -> bool) (l s1 s2 : list A) :
  (forall x, existsb (eqb x) s1 = existsb (eqb x) s2) ->
  unique_from eqb s1 l = unique_from eqb s2 l.
Proof.
  revert s1 s2; induction l as [|x l IH]; intros s1 s2 H; simpl;
    [reflexivity|].
  rewrite H. destruct (existsb (eqb x) s2); [now apply IH|].
  f_equal. apply IH. intros y. simpl. now rewrite H.
Qed.

(** The keys after a run of [d[k] += v]: the old ones in place, then the
    new ones in the order they are first met. *)
Lemma keys_fold_dict_add (items : dict) (d : dict) :
  keys (fold_left (fun r kv => dict_add r (fst kv) (snd kv)) items d)
  = keys d ++ unique_from text_eqb (keys d) (keys items).
Proof.
  revert d; induction items as [|[k v] items IH]; intros d; simpl.
  - now rewrite app_nil_r.
  - rewrite IH, keys_dict_add.
    destruct (existsb (text_eqb k) (keys d)) eqn:E; [reflexivity|].
    rewrite <- app_assoc. simpl. do 2 f_equal.
    apply unique_from_ext. intros x. rewrite existsb_app. simpl.
    rewrite orb_false_r. apply orb_comm.
Qed.

Lemma dict_get_fold_dict_add (items : dict) (d : dict) (k : text) :
  dict_get (fold_left (fun r kv => dict_add r (fst kv) (snd kv)) items d) k
  = if existsb (text_eqb k) (keys d ++ keys items)
    then Some (fillna0 (dict_get d k) + weight items k)%Z
    else None.
Proof.
  revert d; induction items as [|[k0 v0] items IH]; intros d.
  - simpl. rewrite app_nil_r. unfold weight. simpl.
    destruct (existsb (text_eqb k) (keys d)) eqn:E.
    + apply in_keys_existsb in E.
      destruct (dict_get d k) as [v|] eqn:G.
      * simpl. f_equal. lia.
      * apply dict_get_none in G. contradiction.
    + apply dict_get_none. intros H. apply in_keys_existsb in H. congruence.
  - cbn [fold_left fst snd]. rewrite IH, keys_dict_add, dict_get_dict_add.
    unfold weight. cbn [filter fst keys map].
    rewrite !existsb_app. cbn [existsb].
    rewrite (text_eqb_sym k k0).
    destruct (text_eqb k0 k) eqn:E0.
    + apply text_eqb_eq in E0. subst k0.
      replace (existsb (text_eqb k)
                 (if existsb (text_eqb k) (keys d) then keys d
                  else keys d ++ [k])) with true.
      * rewrite orb_true_r. simpl. f_equal. unfold keys. lia.
      * destruct (existsb (text_eqb k) (keys d)) eqn:E; [now rewrite E|].
        rewrite existsb_app. simpl. rewrite text_eqb_refl.
        now rewrite orb_true_r.
    + replace (existsb (text_eqb k)
                 (if existsb (text_eqb k0) (keys d) then keys d
                  else keys d ++ [k0]))
        with (existsb (text_eqb k) (keys d)).
      * reflexivity.
      * destruct (existsb (text_eqb k0) (keys d)); [reflexivity|].
        rewrite existsb_app. simpl. rewrite (text_eqb_sym k k0), E0.
        now rewrite !orb_false_r.
Qed.

Lemma weight_nodup (items : dict) (k : text) :
  NoDup (keys items) -> weight items k = fillna0 (dict_get items k).
Proof.
  unfold weight. induction items as [|[k0 v0] items IH]; simpl; intros ND;
    [reflexivity|].
  inversion ND as [|? ? Hnin ND']; subst.
  destruct (text_eqb k0 k) eqn:E; simpl.
  - apply text_eqb_eq in E. subst k0.
    rewrite IH by assumption.
    apply dict_get_none in Hnin. rewrite Hnin. simpl. lia.
  - now apply IH.
Qed.

Lemma dict_get_update_dictionary (ref_dic new_dic : dict) :
  NoDup (keys new_dic) ->
  forall k,
    dict_get (update_dictionary ref_dic new_dic) k
    = match dict_get ref_dic k, dict_get new_dic k with
      | Some a, Some b => Some (a + b)%Z
      | Some a, None => Some a
      | None, Some b => Some b
      | None, None => None
      end.
Proof.
  intros ND k. unfold update_dictionary.
  rewrite dict_get_fold_dict_add, existsb_app, (@weight_nodup new_dic k ND).
  destruct (dict_get ref_dic k) as [a|] eqn:Ga;
    destruct (dict_get new_dic k) as [b|] eqn:Gb; simpl.
  - replace (existsb (text_eqb k) (keys ref_dic)) with true; [reflexivity|].
    symmetry. apply in_keys_existsb.
    destruct (in_dec text_eq_dec k (keys ref_dic)) as [H|H]; [assumption|].
    apply dict_get_none in H. congruence.
  - replace (existsb (text_eqb k) (keys ref_dic)) with true;
      [simpl; f_equal; lia|].
    symmetry. apply in_keys_existsb.
    destruct (in_dec text_eq_dec k (keys ref_dic)) as [H|H]; [assumption|].
    apply dict_get_none in H. congruence.
  - replace (existsb (text_eqb k) (keys new_dic)) with true;
      [now rewrite orb_true_r|].
    symmetry. apply in_keys_existsb.
    destruct (in_dec text_eq_dec k (keys new_dic)) as [H|H]; [assumption|].
    apply dict_get_none in H. congruence.
  - apply dict_get_none in Ga. apply dict_get_none in Gb.
    destruct (existsb (text_eqb k) (keys ref_dic)) eqn:Ea;
      [apply in_keys_existsb in Ea; contradiction|].
    destruct (existsb (text_eqb k) (keys new_dic)) eqn:Eb;
      [apply in_keys_existsb in Eb; contradiction|].
    reflexivity.
Qed.

(** X1.  [update_dictionary(ref, new)] holds, for each key, the value
    of [ref] plus the value of [new], a missing key counting as absent:
    no key is lost and none is invented. *)
Theorem update_dictionary_adds_values (ref_dic new_dic : dict) :
  NoDup (keys new_dic) ->
  forall k,
    dict_get (update_dictionary ref_dic new_dic) k
    = match dict_get ref_dic k, dict_get new_dic k with
      | Some a, Some b => Some (a + b)%Z
      | Some a, None => Some a
      | None, Some b => Some b
      | None, None => None
      end.
Proof. apply dict_get_update_dictionary. Qed.

Lemma update_dictionary_adds_values_witness :
  NoDup (keys [(str "1234567", 2%Z); (str "2345678", 1%Z)])
  /\ dict_get
       (update_dictionary [(str "2345678", 4%Z)]
          [(str "1234567", 2%Z); (str "2345678", 1%Z)])
       (str "2345678")
     = Some 5%Z.
Proof.
  assert (ND : NoDup (keys [(str "1234567", 2%Z); (str "2345678", 1%Z)])).
  { apply NoDup_cons; [|apply NoDup_cons; [|apply NoDup_nil]].
    - simpl. intros [H|[]]. discriminate H.
    - simpl. intros []. }
  split; [exact ND|].
  apply (@update_dictionary_adds_values [(str "2345678", 4%Z)] _ ND).
Defined.

Lemma keys_update_dictionary (ref_dic new_dic : dict) :
  keys (update_dictionary ref_dic new_dic)
  = keys ref_dic ++ unique_from text_eqb (keys ref_dic) (keys new_dic).
Proof. unfold update_dictionary. apply keys_fold_dict_add. Qed.

Lemma update_dictionary_nodup (ref_dic new_dic : dict) :
  NoDup (keys ref_dic) -> NoDup (keys (update_dictionary ref_dic new_dic)).
Proof.
  intros ND. rewrite keys_update_dictionary.
  apply NoDup_app; [assumption|apply (unique_from_nodup text_eqb text_eqb_eq)|].
  intros k Hk Hu.
  apply (unique_from_in text_eqb text_eqb_eq) in Hu. tauto.
Qed.

(** X2.  [update_dictionary] keeps the keys of [ref] where they are and
    puts the keys that are new after them, in the order they come in
    [new]; keys that were distinct stay distinct. *)
Theorem update_dictionary_keeps_order (ref_dic new_dic : dict) :
  keys (update_dictionary ref_dic new_dic)
  = keys ref_dic ++ unique_from text_eqb (keys ref_dic) (keys new_dic)
  /\ (NoDup (keys ref_dic) -> NoDup (keys (update_dictionary ref_dic new_dic))).
Proof.
  split; [apply keys_update_dictionary|apply update_dictionary_nodup].
Qed.

Lemma Counter_as_items (ids : list text) (d : dict) :
  fold_left (fun d i => dict_add d i 1%Z) ids d
  = fold_left (fun r kv => dict_add r (fst kv) (snd kv))
      (map (fun i => (i, 1%Z)) ids) d.
Proof.
  revert d; induction ids as [|i ids IH]; intros d; simpl; [reflexivity|].
  apply IH.
Qed.

Lemma keys_unit_items (ids : list text) :
  keys (map (fun i => (i, 1%Z)) ids) = ids.
Proof. unfold keys. rewrite map_map. simpl. apply map_id. Qed.

Lemma weight_unit_items (ids : list text) (k : text) :
  weight (map (fun i => (i, 1%Z)) ids) k = occurrences ids k.
Proof.
  unfold weight, occurrences. induction ids as [|i ids IH]; [reflexivity|].
  cbn [map filter fst count_occ]. unfold text_eqb at 1.
  destruct (text_eq_dec i k); cbn [map fold_right snd]; rewrite IH; lia.
Qed.

Lemma keys_Counter (ids : list text) :
  keys (Counter ids) = unique text_eqb ids.
Proof.
  unfold Counter. rewrite Counter_as_items, keys_fold_dict_add.
  now rewrite keys_unit_items.
Qed.

Lemma dict_get_Counter (ids : list text) (k : text) :
  dict_get (Counter ids) k
  = if existsb (text_eqb k) ids then Some (occurrences ids k) else None.
Proof.
  unfold Counter. rewrite Counter_as_items, dict_get_fold_dict_add.
  now rewrite keys_unit_items, weight_unit_items.
Qed.

(** X3.  [Counter(ids)] has one key for each distinct id, in the order
    the ids are first met, and its value is the number of times the id
    occurs; so [len(set(ids))], the unique_occ column, is its size. *)
Theorem Counter_counts_occurrences (ids : list text) :
  keys (Counter ids) = unique text_eqb ids
  /\ length (Counter ids) = length (unique text_eqb ids)
  /\ forall k,
       dict_get (Counter ids) k
       = if existsb (text_eqb k) ids then Some (occurrences ids k) else None.
Proof.
  split; [apply keys_Counter|]. split.
  - rewrite <- keys_Counter. unfold keys. now rewrite length_map.
  - apply dict_get_Counter.
Qed.

(** ** most_common *)

Lemma insert_desc_insert_by (x : text * Z) (l : dict) :
  insert_desc x l = insert_by true snd x l.
Proof. induction l as [|y l IH]; simpl; [reflexivity|]. now rewrite IH. Qed.

Lemma most_common_sort_by (n : nat) (c : dict) :
  most_common n c = firstn n (sort_by true snd c).
Proof.
  unfold most_common, sort_by. f_equal.
  generalize (@nil (text * Z)). induction c as [|x c IH]; intros acc; simpl;
    [reflexivity|].
  now rewrite insert_desc_insert_by, IH.
Qed.

Lemma filter_none (A : Type) (f : A -> bool) (l : list A) :
  (forall z, In z l -> f z = false) -> filter f l = [].
Proof.
  induction l as [|y l IH]; simpl; intros H; [reflexivity|].
  rewrite H by now left. apply IH. intros z Hz. apply H. now right.
Qed.

Lemma insert_by_stable (A : Type) (key : A -> Z) (k : Z) (x : A) (l : list A) :
  descending key l ->
  filter (fun r => (key r =? k)%Z) (insert_by true key x l)
  = filter (fun r => (key r =? k)%Z) l ++ (if (key x =? k)%Z then [x] else []).
Proof.
  unfold descending. induction 1 as [|y l Hl IH Hy]; simpl.
  - reflexivity.
  - destruct (Z.ltb_spec (key y) (key x)) as [Lt|Ge].
    + cbn [filter].
      destruct (Z.eqb_spec (key x) k) as [Ex|Nx]; [|now rewrite app_nil_r].
      destruct (Z.eqb_spec (key y) k) as [Ey|_]; [lia|].
      replace (filter (fun r => (key r =? k)%Z) l) with (@nil A);
        [reflexivity|].
      symmetry. apply filter_none. intros z Hz.
      rewrite Forall_forall in Hy. specialize (Hy z Hz). simpl in Hy.
      destruct (Z.eqb_spec (key z) k); [lia|reflexivity].
    + cbn [filter]. rewrite IH.
      now destruct (key y =? k)%Z.
Qed.

Lemma sort_by_acc_stable (A : Type) (key : A -> Z) (k : Z) (l acc : list A) :
  descending key acc ->
  filter (fun r => (key r =? k)%Z)
    (fold_left (fun a x => insert_by true key x a) l acc)
  = filter (fun r => (key r =? k)%Z) acc ++ filter (fun r => (key r =? k)%Z) l.
Proof.
  revert acc; induction l as [|x l IH]; intros acc Hacc; simpl.
  - now rewrite app_nil_r.
  - rewrite IH by now apply insert_by_descending.
    rewrite insert_by_stable by assumption. rewrite <- app_assoc.
    now destruct (key x =? k)%Z.
Qed.

Lemma sort_by_stable (A : Type) (key : A -> Z) (l : list A) :
  keeps_tie_order key l (sort_by true key l).
Proof.
  intros k. unfold sort_by. rewrite sort_by_acc_stable; [reflexivity|].
  constructor.
Qed.

Lemma most_common_in (n : nat) (c : dict) (x : text * Z) :
  In x (most_common n c) -> In x c.
Proof.
  rewrite most_common_sort_by. intros H.
  apply (Permutation_in _ (sort_by_perm true snd c)).
  rewrite <- (firstn_skipn n (sort_by true snd c)).
  apply in_or_app. now left.
Qed.

Lemma most_common_length (n : nat) (c : dict) :
  length (most_common n c) = Nat.min n (length c).
Proof.
  rewrite most_common_sort_by, length_firstn. f_equal.
  apply Permutation_length, sort_by_perm.
Qed.

(** X4.  [most_common(n)] is the first [n] entries of the Counter put in
    order of count, largest first, entries of the same count staying in
    the order they were first met: it has [min(n, len(c))] entries and
    the entries it leaves out have counts no larger than any it keeps. *)
Theorem most_common_is_top (n : nat) (c : dict) :
  exists rest : dict,
    Permutation (most_common n c ++ rest) c
    /\ descending snd (most_common n c ++ rest)
    /\ keeps_tie_order snd c (most_common n c ++ rest)
    /\ length (most_common n c) = Nat.min n (length c).
Proof.
  exists (skipn n (sort_by true snd c)).
  rewrite most_common_sort_by, firstn_skipn.
  split; [apply sort_by_perm|]. split; [apply sort_by_descending|].
  split; [apply sort_by_stable|].
  rewrite length_firstn. f_equal.
  apply Permutation_length, sort_by_perm.
Qed.

(** ** The columns of a scan row *)

Lemma unique_length_le (l : list text) :
  length (unique text_eqb l) <= length l.
Proof.
  apply NoDup_incl_length; [apply (unique_nodup text_eqb text_eqb_eq)|].
  intros x Hx. now apply (proj1 (unique_in text_eqb text_eqb_eq l x)).
Qed.

Lemma unique_nil_iff (l : list text) : unique text_eqb l = [] <-> l = [].
Proof.
  split; [|now intros ->].
  destruct l as [|x l]; [reflexivity|]. discriminate.
Qed.

Lemma occurrences_pos (ids : list text) (k : text) :
  existsb (text_eqb k) ids = true <-> (0 < occurrences ids k)%Z.
Proof.
  unfold occurrences. rewrite (existsb_eqb text_eqb text_eqb_eq).
  rewrite (count_occ_In text_eq_dec). lia.
Qed.

Lemma dict_get_in (d : dict) (k : text) (v : Z) :
  NoDup (keys d) -> In (k, v) d -> dict_get d k = Some v.
Proof.
  induction d as [|[k0 v0] d IH]; simpl; intros ND H; [contradiction|].
  inversion ND as [|? ? Hnin ND']; subst.
  destruct H as [E|H].
  - injection E as -> ->. now rewrite text_eqb_refl.
  - destruct (text_eqb k0 k) eqn:E.
    + apply text_eqb_eq in E. subst k0. destruct Hnin.
      apply in_map_iff. now exists (k, v).
    + now apply IH.
Qed.

(** X5.  In every row of the scan: unique_occ lies between 0 and
    eid_occ (NaN as 0) and is 0 exactly when eid_occ is 0 or NaN;
    found_ids has [min(5, unique_occ)] entries, each an id of the blob
    with the number of times it occurs there; an unreadable blob has
    unique_occ 0 and no found_ids, like a blob without a match. *)
Theorem scan_row_columns_agree (rt : runtime) (repo : repository)
        (df : list (option text)) (pattern : regex) :
  exists (rows : list Scan.row) (eids : dict),
    result (analyze_glob_hashes_for_pattern rt repo df pattern)
    = Ok (rows, eids)
    /\ forall r, In r rows ->
         (0 <= Scan.unique_occ r <= fillna0 (Scan.eid_occ r))%Z
         /\ (Scan.unique_occ r = 0%Z <-> fillna0 (Scan.eid_occ r) = 0%Z)
         /\ Z.of_nat (length (Scan.found_ids r))
            = Z.min 5 (Scan.unique_occ r)
         /\ (forall k v, In (k, v) (Scan.found_ids r) ->
               (0 < v)%Z
               /\ v = occurrences (ids_of rt repo pattern (Scan.blob_hash r)) k)
         /\ (Scan.eid_occ r = None ->
             Scan.unique_occ r = 0%Z /\ Scan.found_ids r = []).
Proof.
  unfold analyze_glob_hashes_for_pattern. rewrite scan_loop_spec.
  eexists _, _. split; [reflexivity|].
  intros r Hr. simpl in Hr. apply in_map_iff in Hr as (h & <- & _).
  rewrite scan_row_fillna0. unfold scan_row_of.
  cbn [Scan.unique_occ Scan.found_ids Scan.eid_occ Scan.blob_hash].
  set (ids := ids_of rt repo pattern h).
  pose proof (unique_length_le ids) as Hle.
  pose proof (unique_nil_iff ids) as Hnil.
  split; [lia|]. split.
  - split; intros H.
    + assert (E : unique text_eqb ids = [])
        by (destruct (unique text_eqb ids); [reflexivity|simpl in H; lia]).
      apply Hnil in E. now rewrite E.
    + assert (E : ids = []) by (destruct ids; [reflexivity|simpl in H; lia]).
      now rewrite E.
  - split; [|split].
    + rewrite most_common_length.
      assert (L : length (Counter ids) = length (unique text_eqb ids)).
      { rewrite <- keys_Counter. unfold keys. now rewrite length_map. }
      rewrite L. lia.
    + intros k v Hin. apply most_common_in in Hin.
      assert (ND : NoDup (keys (Counter ids))).
      { rewrite keys_Counter. apply (unique_nodup text_eqb text_eqb_eq). }
      pose proof (@dict_get_in _ k v ND Hin) as G.
      rewrite dict_get_Counter in G.
      destruct (existsb (text_eqb k) ids) eqn:E; [|discriminate].
      injection G as <-. split; [now apply occurrences_pos|reflexivity].
    + unfold ids, ids_of. destruct (content repo h); [discriminate|].
      intros _. split; reflexivity.
Qed.

(** ** The frequency table, by id *)

Lemma occurrences_nonneg (ids : list text) (k : text) :
  (0 <= occurrences ids k)%Z.
Proof. unfold occurrences. lia. Qed.

Lemma total_occurrences_nonneg (rt : runtime) (repo : repository)
      (pattern : regex) (blobs : list text) (k : text) :
  (0 <= total_occurrences rt repo pattern blobs k)%Z.
Proof.
  unfold total_occurrences. induction blobs as [|h blobs IH]; simpl; [lia|].
  pose proof (occurrences_nonneg (ids_of rt repo pattern h) k). lia.
Qed.

Lemma dict_get_scan (rt : runtime) (repo : repository) (pattern : regex)
      (blobs : list text) (d : dict) (k : text) :
  dict_get
    (fold_left
       (fun acc h => update_dictionary acc (Counter (ids_of rt repo pattern h)))
       blobs d) k
  = match dict_get d k with
    | Some a => Some (a + total_occurrences rt repo pattern blobs k)%Z
    | None =>
        if (0 <? total_occurrences rt repo pattern blobs k)%Z
        then Some (total_occurrences rt repo pattern blobs k)
        else None
    end.
Proof.
  revert d; induction blobs as [|h blobs IH]; intros d.
  - simpl. unfold total_occurrences. simpl.
    destruct (dict_get d k); [f_equal; lia|reflexivity].
  - cbn [fold_left]. rewrite IH.
    rewrite dict_get_update_dictionary
      by (rewrite keys_Counter; apply (unique_nodup text_eqb text_eqb_eq)).
    rewrite dict_get_Counter.
    unfold total_occurrences. cbn [map fold_right].
    fold (total_occurrences rt repo pattern blobs k).
    pose proof (total_occurrences_nonneg rt repo pattern blobs k) as Ht.
    pose proof (occurrences_pos (ids_of rt repo pattern h) k) as Hp.
    pose proof (occurrences_nonneg (ids_of rt repo pattern h) k) as Hn.
    destruct (existsb (text_eqb k) (ids_of rt repo pattern h)) eqn:E.
    + assert (0 < occurrences (ids_of rt repo pattern h) k)%Z
        by now apply Hp.
      destruct (dict_get d k) as [a|].
      * f_equal. lia.
      * destruct (Z.ltb_spec 0
                    (occurrences (ids_of rt repo pattern h) k
                     + total_occurrences rt repo pattern blobs k)); [|lia].
        reflexivity.
    + assert (Z0 : occurrences (ids_of rt repo pattern h) k = 0%Z).
      { destruct (Z.ltb_spec 0 (occurrences (ids_of rt repo pattern h) k))
          as [L|L]; [|lia].
        apply Hp in L. discriminate. }
      rewrite Z0. destruct (dict_get d k) as [a|]; reflexivity.
Qed.

Lemma keys_scan_nodup (rt : runtime) (repo : repository) (pattern : regex)
      (blobs : list text) (d : dict) :
  NoDup (keys d) ->
  NoDup (keys
           (fold_left
              (fun acc h =>
                 update_dictionary acc (Counter (ids_of rt repo pattern h)))
              blobs d)).
Proof.
  revert d; induction blobs as [|h blobs IH]; intros d ND; simpl;
    [assumption|].
  apply IH. now apply update_dictionary_nodup.
Qed.

(** X6.  The frequency table has each id once, and its count is the
    number of times the id occurs in the distinct blobs of the table
    taken together; an id that occurs nowhere is not in the table. *)
Theorem frequency_table_counts_each_id (rt : runtime) (repo : repository)
        (df : list (option text)) (pattern : regex) :
  exists (rows : list Scan.row) (eids : dict),
    result (analyze_glob_hashes_for_pattern rt repo df pattern)
    = Ok (rows, eids)
    /\ NoDup (keys eids)
    /\ forall k,
         dict_get eids k
         = if (0 <? total_occurrences rt repo pattern
                      (unique text_eqb (dropna df)) k)%Z
           then Some (total_occurrences rt repo pattern
                        (unique text_eqb (dropna df)) k)
           else None.
Proof.
  unfold analyze_glob_hashes_for_pattern. rewrite scan_loop_spec.
  eexists _, _. split; [reflexivity|]. split.
  - apply keys_scan_nodup. constructor.
  - intros k. now rewrite dict_get_scan.
Qed.

(** ** The git log parser, line by line *)

Lemma re_match_status_line (f : char -> bool) (line : text) :
  re_match f status_line line
  = if starts_upper line
    then Some (MState [hd 0%N line] (tl line) None)
    else None.
Proof.
  destruct line as [|c line]; [reflexivity|].
  unfold re_match, match_here, status_line, starts_upper. simpl.
  now destruct ((ch "A" <=? c)%N && (c <=? ch "Z")%N).
Qed.

Lemma index_lt (A : Type) (l : list A) (i : nat) :
  i < length l -> exists a, index l i = Ok a /\ nth_error l i = Some a.
Proof.
  intros H. unfold index. destruct (nth_error l i) as [a|] eqn:E.
  - now exists a.
  - apply nth_error_None in E. lia.
Qed.

Lemma index_ge (A : Type) (l : list A) (i : nat) :
  length l <= i -> index l i = Raised IndexError.
Proof.
  intros H. unfold index. now rewrite (proj2 (nth_error_None l i) H).
Qed.

Lemma index_0_split (sep : char) (t : text) :
  index (split_on sep t) 0 = Ok (hd [] (split_on sep t)).
Proof.
  unfold index. destruct (split_on sep t) as [|f fs] eqn:E; [|reflexivity].
  destruct t as [|c t]; simpl in E; [discriminate|].
  destruct (c =? sep)%N; [discriminate|].
  destruct (split_on sep t); discriminate.
Qed.

(** What one turn of the loop does, by the kind of line. *)
Lemma parse_log_line_cases (rt : runtime) (cur : log_cursor) (line : text) :
  (malformed line = true /\ parse_log_line rt cur line = Raised IndexError)
  \/ (malformed line = false /\ is_header line = true
      /\ exists c d r,
           nth_error (split_on (ch "|") line) 1 = Some c
           /\ nth_error (split_on (ch "|") line) 2 = Some d
           /\ nth_error (split_on (ch "|") line) 3 = Some r
           /\ parse_log_line rt cur line
              = Ok (LogCursor (Some c) (Some d) (Some r), []))
  \/ (malformed line = false /\ is_change_line line = true
      /\ exists row,
           parse_log_line rt cur line = Ok (cur, [row])
           /\ Log.status row = first_field line
           /\ Log.commit row = current_commit cur
           /\ Log.date row = current_date cur
           /\ Log.refs row = current_refs cur)
  \/ (malformed line = false /\ is_header line = false
      /\ is_change_line line = false
      /\ parse_log_line rt cur line = Ok (cur, [])).
Proof.
  unfold malformed, is_change_line, parse_log_line, is_header.
  destruct (startswith line (str "COMMIT_START")) eqn:H.
  - destruct (Nat.ltb_spec (length (split_on (ch "|") line)) 4) as [L|L].
    + left. split; [reflexivity|].
      destruct (Nat.le_gt_cases (length (split_on (ch "|") line)) 1) as [L1|L1].
      { now rewrite (index_ge _ L1). }
      destruct (index_lt _ L1) as (c & -> & _). cbn [obind].
      destruct (Nat.le_gt_cases (length (split_on (ch "|") line)) 2) as [L2|L2].
      { now rewrite (index_ge _ L2). }
      destruct (index_lt _ L2) as (d & -> & _). cbn [obind].
      rewrite index_ge by lia. reflexivity.
    + right. left. split; [reflexivity|]. split; [reflexivity|].
      destruct (@index_lt _ (split_on (ch "|") line) 1) as (c & Ec & Nc); [lia|].
      destruct (@index_lt _ (split_on (ch "|") line) 2) as (d & Ed & Nd); [lia|].
      destruct (@index_lt _ (split_on (ch "|") line) 3) as (r & Er & Nr); [lia|].
      exists c, d, r. rewrite Ec, Ed, Er. auto.
  - rewrite re_match_status_line. simpl negb. rewrite andb_true_l.
    destruct (starts_upper line) eqn:U.
    + rewrite index_0_split. cbn [obind]. fold (first_field line).
      rewrite andb_true_l.
      destruct (startswith (first_field line) (str "R")) eqn:R.
      * destruct (Nat.ltb_spec (length (split_on (ch "009") line)) 3) as [L|L].
        -- left. split; [reflexivity|].
           destruct (Nat.le_gt_cases (length (split_on (ch "009") line)) 1)
             as [L1|L1].
           { now rewrite (index_ge _ L1). }
           destruct (index_lt _ L1) as (o & -> & _). cbn [obind].
           rewrite index_ge by lia. reflexivity.
        -- right. right. left. split; [reflexivity|]. split; [reflexivity|].
           destruct (@index_lt _ (split_on (ch "009") line) 1) as (o & -> & _);
             [lia|].
           destruct (@index_lt _ (split_on (ch "009") line) 2) as (n & -> & _);
             [lia|].
           eexists. split; [reflexivity|]. auto.
      * destruct (Nat.ltb_spec (length (split_on (ch "009") line)) 2) as [L|L].
        -- left. split; [reflexivity|]. rewrite index_ge by lia. reflexivity.
        -- right. right. left. split; [reflexivity|]. split; [reflexivity|].
           destruct (@index_lt _ (split_on (ch "009") line) 1) as (o & -> & _);
             [lia|].
           eexists. split; [reflexivity|]. auto.
    + right. right. right. auto.
Qed.

Lemma parse_log_lines_spec (rt : runtime) (lines : list text)
      (cur : log_cursor) :
  if existsb malformed lines
  then parse_log_lines rt cur lines = Raised IndexError
  else exists rows,
         parse_log_lines rt cur lines = Ok rows
         /\ map Log.status rows
            = map first_field (filter is_change_line lines).
Proof.
  revert cur; induction lines as [|line lines IH]; intros cur.
  - simpl. now exists [].
  - cbn [existsb parse_log_lines filter].
    destruct (parse_log_line_cases rt cur line)
      as [[M E]|[(M & H & c & d & r & _ & _ & _ & E)
                |[(M & C & row & E & S & _)|(M & H & C & E)]]];
      rewrite M, E; cbn [orb obind]; try reflexivity.
    + specialize (IH (LogCursor (Some c) (Some d) (Some r))).
      unfold is_change_line. rewrite H. cbn [negb andb].
      destruct (existsb malformed lines); [now rewrite IH|].
      destruct IH as (rows & -> & Hs). now exists rows.
    + specialize (IH cur). rewrite C.
      destruct (existsb malformed lines); [now rewrite IH|].
      destruct IH as (rows & -> & Hs). exists (row :: rows).
      split; [reflexivity|]. simpl. now rewrite S, Hs.
    + specialize (IH cur). rewrite C.
      destruct (existsb malformed lines); [now rewrite IH|].
      destruct IH as (rows & -> & Hs). now exists rows.
Qed.

(** X7.  [parse_full_log_to_dataframe] raises IndexError exactly when
    some line of the stripped log is a header with fewer than three
    bars or a change line with fewer tab-separated fields than its
    status needs (three for R, two otherwise); on every other log it
    returns. *)
Theorem parse_log_raises_iff_malformed (rt : runtime) (raw : text) :
  (existsb malformed (log_lines raw) = true ->
   parse_full_log_to_dataframe rt raw = Raised IndexError)
  /\ (existsb malformed (log_lines raw) = false ->
      exists rows, parse_full_log_to_dataframe rt raw = Ok rows).
Proof.
  unfold parse_full_log_to_dataframe. fold (log_lines raw).
  pose proof (parse_log_lines_spec rt (log_lines raw)
                (LogCursor None None None)) as H.
  split; intros E; rewrite E in H; [exact H|].
  destruct H as (rows & H & _). now exists rows.
Qed.

Lemma parse_log_raises_iff_malformed_witness :
  parse_full_log_to_dataframe small_runtime
    (str "COMMIT_START|c1" ++ LF ++ str "A" ++ TAB ++ str "notes.txt")
  = Raised IndexError
  /\ exists rows,
       parse_full_log_to_dataframe small_runtime small_log = Ok rows.
Proof.
  split.
  - apply (proj1 (parse_log_raises_iff_malformed small_runtime
                    (str "COMMIT_START|c1" ++ LF ++ str "A" ++ TAB
                     ++ str "notes.txt"))).
    vm_compute. reflexivity.
  - apply (proj2 (parse_log_raises_iff_malformed small_runtime
                    small_log)).
    vm_compute. reflexivity.
Defined.

(** X8.  When the parser returns, the table has one row for each change
    line of the log (a line that begins with a capital letter and is
    not a header), in the order of the lines, with the status code of
    that line; all other lines give no row. *)
Theorem parse_log_row_per_change_line (rt : runtime) (raw : text)
        (rows : list Log.row) :
  parse_full_log_to_dataframe rt raw = Ok rows ->
  map Log.status rows
  = map first_field (filter is_change_line (log_lines raw))
  /\ length rows = length (filter is_change_line (log_lines raw)).
Proof.
  unfold parse_full_log_to_dataframe. fold (log_lines raw). intros H.
  pose proof (parse_log_lines_spec rt (log_lines raw)
                (LogCursor None None None)) as S.
  destruct (existsb malformed (log_lines raw)); [congruence|].
  destruct S as (rows' & E & Hs). rewrite H in E. injection E as <-.
  split; [exact Hs|].
  rewrite <- (length_map Log.status), Hs. apply length_map.
Qed.

Lemma parse_log_row_per_change_line_witness :
  parse_full_log_to_dataframe small_runtime small_log = Ok small_log_df
  /\ length small_log_df = 4.
Proof.
  split; [exact small_log_parsed|].
  rewrite (proj2 (@parse_log_row_per_change_line small_runtime
                    small_log small_log_df small_log_parsed)).
  vm_compute. reflexivity.
Defined.

Lemma parse_log_lines_under_header (rt : runtime) (all lines : list text)
      (cur : log_cursor) (rows : list Log.row) :
  incl lines all ->
  under_header all (current_commit cur) (current_date cur) (current_refs cur) ->
  parse_log_lines rt cur lines = Ok rows ->
  forall r, In r rows ->
    under_header all (Log.commit r) (Log.date r) (Log.refs r).
Proof.
  revert cur rows; induction lines as [|line lines IH];
    intros cur rows Hincl Hcur H r Hr.
  - simpl in H. injection H as <-. destruct Hr.
  - cbn [parse_log_lines] in H.
    assert (Hrest : incl lines all)
      by (intros x Hx; apply Hincl; now right).
    destruct (parse_log_line_cases rt cur line)
      as [[M E]|[(M & Hh & c & d & f & Nc & Nd & Nf & E)
                |[(M & C & row & E & S & Ec & Ed & Ef)|(M & Hh & C & E)]]];
      rewrite E in H; cbn [obind] in H; try discriminate.
    + apply obind_ok in H as (rows' & H' & Er). injection Er as <-.
      simpl in Hr. apply (IH _ _ Hrest) with (r := r) in H'; try assumption.
      exists line, c, d, f. simpl.
      repeat split; try assumption. apply Hincl. now left.
    + apply obind_ok in H as (rows' & H' & Er). injection Er as <-.
      destruct Hr as [<-|Hr].
      * now rewrite Ec, Ed, Ef.
      * now apply (IH _ _ Hrest Hcur H').
    + apply obind_ok in H as (rows' & H' & Er). injection Er as <-.
      now apply (IH _ _ Hrest Hcur H').
Qed.

(** X9.  When the stripped log begins with a header line, every row of
    the table carries the commit, date and refs of a header line of the
    log (fields 1, 2 and 3 between the bars): no row has a null
    commit, so [git ls-tree] is never asked for 'None'. *)
Theorem parse_log_rows_have_commit (rt : runtime) (raw : text)
        (rows : list Log.row) :
  is_header (hd [] (log_lines raw)) = true ->
  parse_full_log_to_dataframe rt raw = Ok rows ->
  forall r, In r rows ->
    under_header (log_lines raw) (Log.commit r) (Log.date r) (Log.refs r)
    /\ Log.commit r <> None.
Proof.
  unfold parse_full_log_to_dataframe. fold (log_lines raw).
  destruct (log_lines raw) as [|line lines] eqn:L; [discriminate|].
  cbn [hd]. intros Hh H r Hr.
  assert (U : under_header (line :: lines) (Log.commit r) (Log.date r)
                (Log.refs r)).
  { cbn [parse_log_lines] in H.
    destruct (parse_log_line_cases rt (LogCursor None None None) line)
      as [[M E]|[(M & _ & c & d & f & Nc & Nd & Nf & E)
                |[(M & C & _)|(M & Hh' & _)]]].
    - rewrite E in H. discriminate.
    - rewrite E in H. cbn [obind] in H.
      apply obind_ok in H as (rows' & H' & Er). injection Er as <-.
      simpl in Hr.
      apply parse_log_lines_under_header
        with (rt := rt) (lines := lines) (rows := rows')
             (cur := LogCursor (Some c) (Some d) (Some f));
        try assumption.
      + intros x Hx. now right.
      + exists line, c, d, f. simpl. repeat split; auto.
    - unfold is_change_line in C. rewrite Hh in C. discriminate.
    - congruence. }
  split; [exact U|].
  destruct U as (h & c & d & f & _ & _ & _ & _ & _ & -> & _). discriminate.
Qed.

Lemma parse_log_rows_have_commit_witness :
  is_header (hd [] (log_lines small_log)) = true
  /\ parse_full_log_to_dataframe small_runtime small_log
     = Ok small_log_df
  /\ forall r, In r small_log_df -> Log.commit r <> None.
Proof.
  split; [reflexivity|]. split; [exact small_log_parsed|].
  intros r Hr.
  apply (@parse_log_rows_have_commit small_runtime small_log
           small_log_df eq_refl small_log_parsed r Hr).
Defined.

(** ** No change line, no audit *)

Lemma lstrip_spaces (t : text) : forallb py_isspace t = true -> lstrip t = [].
Proof.
  induction t as [|c t IH]; simpl; [reflexivity|]. intros H.
  apply andb_true_iff in H as [Hc Ht]. rewrite Hc. now apply IH.
Qed.

Lemma blank_log_parses_to_nothing (rt : runtime) (raw : text) :
  forallb py_isspace raw = true -> parse_full_log_to_dataframe rt raw = Ok [].
Proof.
  intros H. unfold parse_full_log_to_dataframe, strip.
  now rewrite (lstrip_spaces _ H).
Qed.

(** X10.  When the log has no change line, so that the parsed table is
    empty (a blank log, or commits that changed no file), the audit
    runs no git command and returns the "no commits" placeholder. *)
Theorem empty_log_gives_placeholder (rt : runtime) (repo : repository) :
  parse_full_log_to_dataframe rt (git_log repo) = Ok [] ->
  audit_repository rt repo = ([], Ok NoCommits).
Proof.
  intros H. unfold audit_repository, unsorted_audit. now rewrite H.
Qed.

Lemma empty_log_gives_placeholder_witness :
  parse_full_log_to_dataframe small_runtime (git_log blank_repo) = Ok []
  /\ audit_repository small_runtime blank_repo = ([], Ok NoCommits).
Proof.
  assert (H : parse_full_log_to_dataframe small_runtime
                (git_log blank_repo) = Ok [])
    by (apply blank_log_parses_to_nothing; reflexivity).
  split; [exact H|].
  apply (@empty_log_gives_placeholder small_runtime blank_repo H).
Defined.

(** ** The loop over the commits *)

Lemma traverse_raises (A B : Type) (f : A -> outcome B) (l : list A)
      (e : exn) :
  traverse f l = Raised e -> exists a, In a l /\ f a = Raised e.
Proof.
  induction l as [|x l IH]; simpl; [discriminate|].
  destruct (f x) as [b|e'] eqn:E; simpl.
  - destruct (traverse f l) as [bs|e'']; simpl; [discriminate|].
    intros H. injection H as ->. destruct (IH eq_refl) as (a & Ha & Ea).
    exists a. split; [now right|assumption].
  - intros H. injection H as ->. exists x. split; [now left|assumption].
Qed.

Lemma parse_tree_raises (c : option text) (out : text) (e : exn) :
  parse_tree c out = Raised e -> e = ValueError.
Proof.
  unfold parse_tree. intros H.
  destruct (traverse (parse_tree_part c) (removelast (split_on (ch "000") out)))
    as [found|e'] eqn:T; simpl in H; [discriminate|].
  injection H as ->. apply traverse_raises in T as (part & _ & P).
  unfold parse_tree_part in P.
  destruct (split_once (ch "009") part) as [header [filename|]];
    [|congruence].
  destruct (_ && _); discriminate.
Qed.

Lemma ls_tree_loop_step (repo : repository) (c : option text)
      (rest : list (option text)) (cmd : option (text * text))
      (all : list Tree.row) :
  ls_tree_loop repo (c :: rest) cmd all
  = match git_ls_tree repo (fmt c) with
    | Exit0 out err =>
        match parse_tree c out with
        | Ok found =>
            prepend [RanLsTree (fmt c)]
              (ls_tree_loop repo rest (Some (out, err)) (all ++ found))
        | Raised e => ([RanLsTree (fmt c)], Raised e)
        end
    | NonZero _ =>
        match cmd with
        | None => ([RanLsTree (fmt c)], Raised UnboundLocalError)
        | Some cm =>
            prepend [RanLsTree (fmt c); Printed (snd cm)]
              (ls_tree_loop repo rest cmd all)
        end
    end.
Proof.
  cbn [ls_tree_loop]. unfold run_ls_tree, prepend.
  destruct (git_ls_tree repo (fmt c)) as [out err|err].
  - cbn. destruct (parse_tree c out) as [found|e] eqn:P; cbn.
    + now destruct (ls_tree_loop repo rest (Some (out, err)) (all ++ found)).
    + now rewrite (parse_tree_raises _ _ P).
  - destruct cmd as [cm|]; cbn; [|reflexivity].
    now destruct (ls_tree_loop repo rest (Some cm) all).
Qed.

Lemma ls_tree_loop_listed (repo : repository) (cs : list (option text))
      (cmd : option (text * text)) (all : list Tree.row) :
  exists k,
    k <= length cs
    /\ listed (events (ls_tree_loop repo cs cmd all)) = map fmt (firstn k cs)
    /\ forall rows,
         result (ls_tree_loop repo cs cmd all) = Ok rows -> k = length cs.
Proof.
  revert cmd all; induction cs as [|c cs IH]; intros cmd all.
  - exists 0. simpl. auto.
  - rewrite ls_tree_loop_step.
    destruct (git_ls_tree repo (fmt c)) as [out err|err].
    + destruct (parse_tree c out) as [found|e].
      * destruct (IH (Some (out, err)) (all ++ found)) as (k & Hk & Hl & Hr).
        exists (S k). unfold prepend, events, result in *. cbn [fst snd].
        split; [simpl; lia|]. split.
        -- cbn [app listed firstn map]. now rewrite Hl.
        -- intros rows E. simpl. f_equal. now apply Hr with rows.
      * exists 1. unfold events, result. cbn. split; [lia|].
        split; [reflexivity|discriminate].
    + destruct cmd as [cm|].
      * destruct (IH (Some cm) all) as (k & Hk & Hl & Hr).
        exists (S k). unfold prepend, events, result in *. cbn [fst snd].
        split; [simpl; lia|]. split.
        -- cbn [app listed firstn map]. now rewrite Hl.
        -- intros rows E. simpl. f_equal. now apply Hr with rows.
      * exists 1. unfold events, result. cbn. split; [lia|].
        split; [reflexivity|discriminate].
Qed.

(** X11.  [get_blob_hashes_for_commits] asks [git ls-tree] for the
    distinct commits of the column in the order they first appear, each
    at most once, stopping only when it raises: the commands it runs
    are a beginning of that list, and the whole list when it returns. *)
Theorem ls_tree_once_per_commit (repo : repository)
        (commits : list (option text)) :
  NoDup (unique opt_text_eqb commits)
  /\ exists k,
       listed (events (get_blob_hashes_for_commits repo commits))
       = map fmt (firstn k (unique opt_text_eqb commits))
       /\ forall rows,
            result (get_blob_hashes_for_commits repo commits) = Ok rows ->
            listed (events (get_blob_hashes_for_commits repo commits))
            = map fmt (unique opt_text_eqb commits).
Proof.
  split.
  - apply unique_nodup. intros [x|] [y|]; simpl; split; intros H;
      try discriminate; try reflexivity.
    + apply text_eqb_eq in H. now subst.
    + injection H as ->. apply text_eqb_refl.
  - unfold get_blob_hashes_for_commits.
    destruct (ls_tree_loop_listed repo (unique opt_text_eqb commits) None [])
      as (k & Hk & Hl & Hr).
    exists k. split; [exact Hl|]. intros rows E.
    rewrite Hl, (Hr rows E). now rewrite firstn_all.
Qed.

Lemma ls_tree_loop_bound (repo : repository) (cs : list (option text))
      (cmd : text * text) (all : list Tree.row) :
  (forall c, In c cs -> listing_parses repo c) ->
  result (ls_tree_loop repo cs (Some cmd) all)
  = Ok (all ++ flat_map (entries_of repo) cs).
Proof.
  revert cmd all; induction cs as [|c cs IH]; intros cmd all Hp.
  - simpl. now rewrite app_nil_r.
  - rewrite ls_tree_loop_step. cbn [flat_map]. unfold entries_of at 1.
    assert (Hcs : forall c', In c' cs -> listing_parses repo c')
      by (intros c' Hc'; apply Hp; now right).
    destruct (git_ls_tree repo (fmt c)) as [out err|err] eqn:G.
    + destruct (Hp c (or_introl eq_refl) out err G) as (found & ->).
      unfold prepend, result. cbn [snd].
      fold (result (ls_tree_loop repo cs (Some (out, err)) (all ++ found))).
      rewrite IH by assumption. now rewrite app_assoc.
    + unfold prepend, result. cbn [snd].
      fold (result (ls_tree_loop repo cs (Some cmd) all)).
      now rewrite IH.
Qed.

(** X12.  When the first commit lists, the failure of any later commit
    is passed over: the function returns the entries of the commits
    that list, in order, and nothing for those that do not. *)
Theorem later_failures_are_skipped (repo : repository) (c : option text)
        (rest : list (option text)) (out err : text) :
  git_ls_tree repo (fmt c) = Exit0 out err ->
  (forall c', In c' (c :: rest) -> listing_parses repo c') ->
  result (get_blob_hashes_for_commits repo (c :: rest))
  = Ok (flat_map (entries_of repo) (unique opt_text_eqb (c :: rest))).
Proof.
  intros G Hp. unfold get_blob_hashes_for_commits, unique.
  cbn [unique_from existsb]. rewrite ls_tree_loop_step, G.
  destruct (Hp c (or_introl eq_refl) out err G) as (found & P). rewrite P.
  unfold prepend, result. cbn [snd].
  fold (result (ls_tree_loop repo (unique_from opt_text_eqb [c] rest)
                  (Some (out, err)) ([] ++ found))).
  rewrite ls_tree_loop_bound.
  - cbn [flat_map app]. unfold entries_of at 2. now rewrite G, P.
  - intros c' Hc'. apply Hp. right.
    assert (E : forall x y, opt_text_eqb x y = true <-> x = y).
    { intros [x|] [y|]; simpl; split; intros H;
        try discriminate; try reflexivity.
      - apply text_eqb_eq in H. now subst.
      - injection H as ->. apply text_eqb_refl. }
    now apply (unique_from_in opt_text_eqb E) in Hc'.
Qed.

Lemma small_listings_parse (c : option text) :
  In c [Some (str "c2"); Some (str "c0"); Some (str "c1")] ->
  listing_parses small_repo c.
Proof.
  intros [<-|[<-|[<-|[]]]] out err H; vm_compute in H;
    try discriminate H; injection H as <- <-; eexists; vm_compute;
    reflexivity.
Qed.

Lemma later_failures_are_skipped_witness :
  git_ls_tree small_repo (fmt (Some (str "c2")))
  = Exit0 (str "100644 blob b2" ++ TAB ++ str "notes.txt" ++ NUL
           ++ str "100644 blob b2" ++ TAB ++ str "readme.txt" ++ NUL) []
  /\ (forall c', In c' [Some (str "c2"); Some (str "c0"); Some (str "c1")] ->
        listing_parses small_repo c')
  /\ result (get_blob_hashes_for_commits small_repo
               [Some (str "c2"); Some (str "c0"); Some (str "c1")])
     = Ok (flat_map (entries_of small_repo)
             (unique opt_text_eqb
                [Some (str "c2"); Some (str "c0"); Some (str "c1")])).
Proof.
  split; [reflexivity|]. split; [exact small_listings_parse|].
  apply (@later_failures_are_skipped small_repo (Some (str "c2"))
           [Some (str "c0"); Some (str "c1")] _ _ eq_refl
           small_listings_parse).
Defined.

(** ** The entries of a tree listing *)

Lemma split_once_field (sep : char) (f rest : text) :
  forallb (fun c => negb (c =? sep)%N) f = true ->
  split_once sep (f ++ sep :: rest) = (f, Some rest).
Proof.
  induction f as [|c f IH]; simpl; intros H.
  - now rewrite N.eqb_refl.
  - apply andb_true_iff in H as [Hc Hf]. apply negb_true_iff in Hc.
    now rewrite Hc, IH.
Qed.

Lemma split_once_none (sep : char) (t : text) :
  forallb (fun c => negb (c =? sep)%N) t = true ->
  split_once sep t = (t, None).
Proof.
  induction t as [|c t IH]; simpl; intros H; [reflexivity|].
  apply andb_true_iff in H as [Hc Ht]. apply negb_true_iff in Hc.
  now rewrite Hc, IH.
Qed.

Lemma split_ws_from_word (f cur rest : text) :
  no_space f = true ->
  split_ws_from cur (f ++ rest) = split_ws_from (rev f ++ cur) rest.
Proof.
  revert cur; induction f as [|c f IH]; intros cur H; [reflexivity|].
  simpl in H. apply andb_true_iff in H as [Hc Hf]. apply negb_true_iff in Hc.
  cbn [app split_ws_from]. rewrite Hc, IH by assumption.
  cbn [rev]. now rewrite <- app_assoc.
Qed.

Lemma split_ws_three (m t h : text) :
  nonempty m = true -> nonempty t = true -> nonempty h = true ->
  no_space m = true -> no_space t = true -> no_space h = true ->
  split_ws (m ++ str " " ++ t ++ str " " ++ h) = [m; t; h].
Proof.
  intros Nm Nt Nh Sm St Sh. unfold split_ws.
  assert (R : forall w : text, nonempty w = true ->
                exists c w', rev w ++ [] = c :: w').
  { intros w Hw. destruct (rev w ++ []) as [|c w'] eqn:E; [|eauto].
    rewrite app_nil_r in E. apply (f_equal (@rev char)) in E.
    rewrite rev_involutive in E. subst w. discriminate. }
  rewrite (split_ws_from_word _ _ _ Sm).
  destruct (R m Nm) as (c1 & w1 & E1). rewrite E1.
  change (str " " ++ t ++ str " " ++ h) with (32%N :: t ++ str " " ++ h).
  cbn [split_ws_from]. change (py_isspace 32%N) with true. cbv iota.
  rewrite <- E1, app_nil_r, rev_involutive.
  rewrite (split_ws_from_word _ _ _ St).
  destruct (R t Nt) as (c2 & w2 & E2). rewrite E2.
  change (str " " ++ h) with (32%N :: h).
  cbn [split_ws_from]. change (py_isspace 32%N) with true. cbv iota.
  rewrite <- E2, app_nil_r, rev_involutive.
  rewrite <- (app_nil_r h) at 1. rewrite (split_ws_from_word _ _ _ Sh).
  destruct (R h Nh) as (c3 & w3 & E3). rewrite E3.
  cbn [split_ws_from]. rewrite <- E3, app_nil_r, rev_involutive.
  reflexivity.
Qed.

Lemma no_space_no_tab (t : text) : no_space t = true -> no_tab t = true.
Proof.
  unfold no_space, no_tab.
  induction t as [|c t IH]; cbn [forallb]; [reflexivity|].
  intros H. apply andb_true_iff in H as [Hc Ht]. rewrite IH by assumption.
  destruct (N.eqb_spec c (ch "009")) as [->|]; [discriminate|reflexivity].
Qed.

Lemma forallb_app3 (f : char -> bool) (a b c : text) :
  forallb f a = true -> forallb f b = true -> forallb f c = true ->
  forallb f (a ++ str " " ++ b ++ str " " ++ c) = f 32%N && f 32%N.
Proof.
  intros Ha Hb Hc.
  change (str " " ++ b ++ str " " ++ c) with (32%N :: b ++ 32%N :: c).
  rewrite forallb_app, Ha. cbn [forallb andb].
  rewrite forallb_app, Hb. cbn [forallb]. rewrite Hc.
  now destruct (f 32%N).
Qed.

Lemma entry_ok_fields (e : ls_entry) :
  entry_ok e = true ->
  (nonempty (e_mode e) = true /\ no_space (e_mode e) = true
   /\ no_nul (e_mode e) = true)
  /\ (nonempty (e_type e) = true /\ no_space (e_type e) = true
      /\ no_nul (e_type e) = true)
  /\ (nonempty (e_hash e) = true /\ no_space (e_hash e) = true
      /\ no_nul (e_hash e) = true)
  /\ no_nul (e_path e) = true.
Proof.
  unfold entry_ok. rewrite !andb_true_iff. tauto.
Qed.

Lemma parse_tree_part_entry (c : option text) (e : ls_entry) :
  entry_ok e = true ->
  parse_tree_part c (render_entry e)
  = Ok (if text_eqb (e_type e) (str "blob")
        then [Tree.Row c (e_hash e) (e_path e)]
        else []).
Proof.
  intros H.
  destruct (entry_ok_fields e H)
    as ((Nm & Sm & _) & (Nt & St & _) & (Nh & Sh & _) & _).
  unfold parse_tree_part, render_entry.
  replace (e_mode e ++ str " " ++ e_type e ++ str " " ++ e_hash e ++ TAB
           ++ e_path e)
    with ((e_mode e ++ str " " ++ e_type e ++ str " " ++ e_hash e)
          ++ ch "009" :: e_path e)
    by (now rewrite <- !app_assoc).
  rewrite split_once_field.
  - rewrite split_ws_three by assumption. cbn [length nth Nat.eqb andb].
    now destruct (text_eqb (e_type e) (str "blob")).
  - fold (no_tab (e_mode e ++ str " " ++ e_type e ++ str " " ++ e_hash e)).
    unfold no_tab. rewrite forallb_app3; try reflexivity;
      now apply no_space_no_tab.
Qed.

Lemma render_entry_no_nul (e : ls_entry) :
  entry_ok e = true -> no_nul (render_entry e) = true.
Proof.
  intros H.
  destruct (entry_ok_fields e H)
    as ((_ & _ & Zm) & (_ & _ & Zt) & (_ & _ & Zh) & Zp).
  unfold no_nul, render_entry in *.
  rewrite forallb_forall in Zm, Zt, Zh, Zp.
  apply forallb_forall. intros x Hx.
  apply in_app_or in Hx as [Hx|Hx]; [now apply Zm|].
  apply in_app_or in Hx as [Hx|Hx]; [now destruct Hx as [<-|[]]|].
  apply in_app_or in Hx as [Hx|Hx]; [now apply Zt|].
  apply in_app_or in Hx as [Hx|Hx]; [now destruct Hx as [<-|[]]|].
  apply in_app_or in Hx as [Hx|Hx]; [now apply Zh|].
  apply in_app_or in Hx as [Hx|Hx]; [now destruct Hx as [<-|[]]|].
  now apply Zp.
Qed.

Lemma split_on_entries (es : list ls_entry) (junk : text) :
  forallb entry_ok es = true -> no_nul junk = true ->
  split_on (ch "000") (concat (map (fun e => render_entry e ++ NUL) es) ++ junk)
  = map render_entry es ++ [junk].
Proof.
  intros Hes Hj. induction es as [|e es IH]; simpl.
  - now apply split_on_last.
  - simpl in Hes. apply andb_true_iff in Hes as [He Hes].
    rewrite <- !app_assoc. unfold NUL at 1. cbn [app].
    change 0%N with (ch "000") at 1.
    rewrite split_on_field by now apply render_entry_no_nul.
    f_equal. now apply IH.
Qed.

Lemma traverse_map (A B C : Type) (f : A -> outcome B) (r : C -> A)
      (g : C -> B) (l : list C) :
  (forall x, In x l -> f (r x) = Ok (g x)) ->
  traverse f (map r l) = Ok (map g l).
Proof.
  induction l as [|x l IH]; simpl; intros H; [reflexivity|].
  rewrite H by now left. simpl. rewrite IH; [reflexivity|].
  intros x' Hx'. apply H. now right.
Qed.

(** X13.  [git ls-tree -r -z] output made of well-formed entries, each
    ended by NUL, is read back entry for entry: a blob gives a row with
    its hash and its path (white space and tabs in the path are kept),
    any other type of object gives none, and what follows the last NUL
    is ignored. *)
Theorem parse_tree_reads_entries (c : option text) (es : list ls_entry)
        (junk : text) :
  forallb entry_ok es = true -> no_nul junk = true ->
  parse_tree c (concat (map (fun e => render_entry e ++ NUL) es) ++ junk)
  = Ok (map (fun e => Tree.Row c (e_hash e) (e_path e))
          (filter (fun e => text_eqb (e_type e) (str "blob")) es)).
Proof.
  intros Hes Hj. unfold parse_tree.
  rewrite split_on_entries by assumption. rewrite removelast_last.
  rewrite traverse_map
    with (g := fun e => if text_eqb (e_type e) (str "blob")
                        then [Tree.Row c (e_hash e) (e_path e)]
                        else []).
  - cbn [obind]. f_equal. clear Hes.
    induction es as [|e es IH]; simpl; [reflexivity|].
    destruct (text_eqb (e_type e) (str "blob")); simpl; now rewrite IH.
  - intros e He. apply parse_tree_part_entry.
    rewrite forallb_forall in Hes. now apply Hes.
Qed.

Lemma parse_tree_reads_entries_witness :
  forallb entry_ok
    [LsEntry (str "100644") (str "blob") (str "b1") (str "a file.txt");
     LsEntry (str "160000") (str "commit") (str "s1") (str "sub")] = true
  /\ no_nul (str "100644 blob b3") = true
  /\ parse_tree (Some (str "c1"))
       (concat
          (map (fun e => render_entry e ++ NUL)
             [LsEntry (str "100644") (str "blob") (str "b1")
                (str "a file.txt");
              LsEntry (str "160000") (str "commit") (str "s1") (str "sub")])
        ++ str "100644 blob b3")
     = Ok [Tree.Row (Some (str "c1")) (str "b1") (str "a file.txt")].
Proof.
  split; [reflexivity|]. split; [reflexivity|].
  apply (@parse_tree_reads_entries (Some (str "c1"))
           [LsEntry (str "100644") (str "blob") (str "b1") (str "a file.txt");
            LsEntry (str "160000") (str "commit") (str "s1") (str "sub")]
           (str "100644 blob b3") eq_refl eq_refl).
Defined.

(** X14.  An entry without a tab makes the whole listing fail with
    ValueError, which [get_blob_hashes_for_commits] does not catch: it
    is raised out of the function, whatever was listed before. *)
Theorem entry_without_tab_raises (repo : repository) (c : option text)
        (rest : list (option text)) (out err part : text)
        (cmd : option (text * text)) (all : list Tree.row) :
  git_ls_tree repo (fmt c) = Exit0 out err ->
  In part (removelast (split_on (ch "000") out)) ->
  no_tab part = true ->
  ls_tree_loop repo (c :: rest) cmd all
  = ([RanLsTree (fmt c)], Raised ValueError).
Proof.
  intros G Hin Ht. rewrite ls_tree_loop_step, G.
  destruct (parse_tree c out) as [found|e] eqn:P.
  - exfalso. unfold parse_tree in P.
    apply obind_ok in P as (fs & T & _).
    destruct (proj2 (traverse_ok _ _ T) part Hin) as (b & _ & E).
    unfold parse_tree_part in E. rewrite (split_once_none _ _ Ht) in E.
    discriminate.
  - now rewrite (parse_tree_raises _ _ P).
Qed.

Lemma entry_without_tab_raises_witness :
  git_ls_tree broken_repo (fmt (Some (str "c1")))
  = Exit0 (str "100644 blob b1 a.txt" ++ NUL) []
  /\ In (str "100644 blob b1 a.txt")
       (removelast (split_on (ch "000") (str "100644 blob b1 a.txt" ++ NUL)))
  /\ no_tab (str "100644 blob b1 a.txt") = true
  /\ ls_tree_loop broken_repo [Some (str "c1")] None []
     = ([RanLsTree (str "c1")], Raised ValueError).
Proof.
  assert (Hin : In (str "100644 blob b1 a.txt")
                  (removelast
                     (split_on (ch "000") (str "100644 blob b1 a.txt" ++ NUL))))
    by (now left).
  split; [reflexivity|]. split; [exact Hin|]. split; [reflexivity|].
  apply (@entry_without_tab_raises broken_repo (Some (str "c1")) [] _ _ _
           None [] eq_refl Hin eq_refl).
Defined.

(** ** The audit as a whole *)

Lemma result_bind_eq (A B : Type) (m : M A) (f : A -> M B) :
  result (bind m f)
  = match result m with
    | Ok a => result (f a)
    | Raised e => Raised e
    end.
Proof.
  unfold result, bind. destruct m as [l [a|e]]; simpl; [|reflexivity].
  now destruct (f a).
Qed.

Lemma left_join_length_ge (L R : Type) (on : L -> R -> bool)
      (left : list L) (right : list R) :
  length left <= length (left_join on left right).
Proof.
  unfold left_join. induction left as [|l left IH]; cbn [flat_map length];
    [lia|].
  rewrite length_app.
  destruct (filter (on l) right); rewrite ?length_map; cbn [length]; lia.
Qed.

Lemma left_join_length (L R : Type) (on : L -> R -> bool)
      (left : list L) (right : list R) :
  at_most_one on left right ->
  length (left_join on left right) = length left.
Proof.
  unfold left_join, at_most_one.
  induction left as [|l left IH]; cbn [flat_map length]; intros H;
    [reflexivity|].
  rewrite length_app, IH by (intros l' Hl'; apply H; now right).
  specialize (H l (or_introl eq_refl)).
  destruct (filter (on l) right) as [|m [|m' ms]];
    rewrite ?length_map; cbn [length] in *; lia.
Qed.

Lemma left_join_none (L R : Type) (on : L -> R -> bool)
      (left : list L) (right : list R) (l : L) :
  In (l, None) (left_join on left right) ->
  forall r, In r right -> on l r = false.
Proof.
  unfold left_join. rewrite in_flat_map. intros (l' & _ & H) r Hr.
  destruct (filter (on l') right) as [|m ms] eqn:F.
  - destruct H as [H|[]]. injection H as <-.
    destruct (on l' r) eqn:E; [|reflexivity].
    assert (In r (filter (on l') right)) by (apply filter_In; auto).
    rewrite F in H. destruct H.
  - apply in_map_iff in H as (r' & E & _). discriminate.
Qed.

Lemma unsorted_audit_log_nonempty (rt : runtime) (repo : repository)
      (pre : list Audit.row) (eids : dict) (df : list Log.row) :
  result (unsorted_audit rt repo) = Ok (Some (pre, eids)) ->
  parse_full_log_to_dataframe rt (git_log repo) = Ok df ->
  df <> [].
Proof.
  unfold unsorted_audit. intros H P. rewrite P in H. intros ->.
  discriminate H.
Qed.

(** X15.  [audit_repository] never takes its "No findings to report."
    branch: the table it has built by then is never empty, because the
    log table was not and the left joins drop no row. *)
Theorem no_findings_is_unreachable (rt : runtime) (repo : repository) :
  result (audit_repository rt repo) <> Ok NoFindings.
Proof.
  unfold audit_repository. rewrite result_bind_eq.
  destruct (result (unsorted_audit rt repo)) as [[[pre eids]|]|e] eqn:U;
    try discriminate.
  destruct pre as [|row pre]; [|discriminate]. exfalso.
  destruct (unsorted_audit_inv _ _ U)
    as (logs & trees & hits & statuses & Hlog & _ & _ & Hst & Hpre).
  pose proof (unsorted_audit_log_nonempty _ _ U Hlog) as Hne.
  destruct (traverse_ok _ _ Hst) as [Hlen _].
  symmetry in Hpre. apply map_eq_nil in Hpre.
  apply (f_equal (@length _)) in Hpre.
  rewrite length_combine, Hlen, Nat.min_id in Hpre.
  unfold analyse_file_names in Hpre. rewrite length_map in Hpre.
  pose proof (left_join_length_ge
                (on_blob_hash (fun r => merged_blob_hash (fst r))
                   Scan.blob_hash)
                (left_join (on_blob_hash merged_blob_hash sz_blob_hash)
                   (left_join on_commit_filename logs trees)
                   (git_sizes repo)) hits) as L3.
  pose proof (left_join_length_ge
                (on_blob_hash merged_blob_hash sz_blob_hash)
                (left_join on_commit_filename logs trees)
                (git_sizes repo)) as L2.
  pose proof (left_join_length_ge on_commit_filename logs trees) as L1.
  assert (L0 : 0 < length logs)
    by (destruct logs; [congruence|cbn [length]; lia]).
  assert (L : length logs <= 0).
  { etransitivity; [exact L1|]. etransitivity; [exact L2|].
    etransitivity; [exact L3|]. apply Nat.eq_le_incl. exact Hpre. }
  lia.
Qed.

Lemma left_join_unmatched (L R : Type) (on : L -> R -> bool)
      (left : list L) (right : list R) :
  (forall l r, In l left -> In r right -> on l r = false) ->
  left_join on left right = map (fun l => (l, None)) left.
Proof.
  unfold left_join. induction left as [|l left IH]; cbn [flat_map map];
    intros H; [reflexivity|].
  rewrite filter_none by (intros r Hr; apply H; [now left|assumption]).
  cbn [app]. f_equal. apply IH. intros l' r Hl' Hr. apply H; [now right|auto].
Qed.

Lemma dropna_all_none (A B : Type) (f : B -> option A) (l : list B) :
  (forall x, In x l -> f x = None) -> dropna (map f l) = [].
Proof.
  induction l as [|x l IH]; cbn [map dropna]; intros H; [reflexivity|].
  rewrite H by now left. apply IH. intros y Hy. apply H. now right.
Qed.

(** X16.  When no change event of the log has a tree entry for its
    commit and path (the trees hold no blob at all, or none under the
    paths as the log spells them), the audit raises KeyError from
    [pd.merge]: the tree table, or the table of scan results, was built
    from an empty list and has no columns to join on. *)
Theorem no_tree_entry_raises_key_error (rt : runtime) (repo : repository)
        (full_log_df : list Log.row) (blob_hashes_df : list Tree.row) :
  parse_full_log_to_dataframe rt (git_log repo) = Ok full_log_df ->
  full_log_df <> [] ->
  result (get_blob_hashes_for_commits repo (map Log.commit full_log_df))
  = Ok blob_hashes_df ->
  (forall ev t, In ev full_log_df -> In t blob_hashes_df ->
     on_commit_filename ev t = false) ->
  result (audit_repository rt repo) = Raised KeyError.
Proof.
  intros P Hne T Hno.
  unfold audit_repository. rewrite result_bind_eq.
  replace (result (unsorted_audit rt repo)) with
    (@Raised (option (list Audit.row * dict)) KeyError); [reflexivity|].
  symmetry. unfold unsorted_audit.
  rewrite result_bind_eq, result_lift, P.
  destruct full_log_df as [|ev0 evs] eqn:D; [congruence|].
  cbn [has_columns empty negb orb]. rewrite <- D in *.
  rewrite result_bind_eq, T, result_bind_eq, result_lift.
  unfold merge at 1.
  destruct blob_hashes_df as [|t0 ts] eqn:B; [reflexivity|].
  cbn [has_columns]. rewrite <- B in *.
  rewrite (left_join_unmatched on_commit_filename _ _ Hno).
  rewrite left_join_unmatched.
  2:{ intros l r Hl _. apply in_map_iff in Hl as (ev & <- & _). reflexivity. }
  rewrite result_bind_eq.
  unfold analyze_glob_hashes_for_pattern. rewrite scan_loop_spec.
  rewrite !map_map. cbn [fst].
  rewrite dropna_all_none by reflexivity.
  reflexivity.
Qed.

Lemma no_tree_entry_raises_key_error_witness :
  parse_full_log_to_dataframe small_runtime (git_log submodule_repo)
  = Ok [Log.Row (Some (str "c1")) (str "A") (str "sub")
          (Some (str "2024-01-01T10:00:00+00:00")) (Some []) []]
  /\ result (get_blob_hashes_for_commits submodule_repo [Some (str "c1")])
     = Ok []
  /\ result (audit_repository small_runtime submodule_repo)
     = Raised KeyError.
Proof.
  split; [vm_compute; reflexivity|]. split; [vm_compute; reflexivity|].
  apply (@no_tree_entry_raises_key_error small_runtime submodule_repo
           [Log.Row (Some (str "c1")) (str "A") (str "sub")
              (Some (str "2024-01-01T10:00:00+00:00")) (Some []) []]
           []).
  - vm_compute. reflexivity.
  - discriminate.
  - vm_compute. reflexivity.
  - intros ev t _ [].
Defined.

Lemma on_blob_hash_true (L R : Type) (lkey : L -> option text)
      (rkey : R -> text) (l : L) (r : R) :
  on_blob_hash lkey rkey l r = true <-> lkey l = Some (rkey r).
Proof.
  unfold on_blob_hash. destruct (lkey l) as [h|]; simpl.
  - rewrite text_eqb_eq. split; congruence.
  - split; discriminate.
Qed.

(** X17.  Every row of the final table belongs to a change event of the
    log, whose commit, path, refs and old path it carries and whose
    status it words.  Its blob_hash is that of a tree entry of the same
    commit and path, or null when there is none; its size is that of a
    size record of this blob, or null when there is none; and its scan
    columns are those of the scan of this blob, or null when the
    blob_hash is. *)
Theorem final_rows_trace_to_events (rt : runtime) (repo : repository)
        (full_log_df : list Log.row) (blob_hashes_df : list Tree.row)
        (final : list Audit.row) (eids : dict) :
  sort_values_permutes rt ->
  parse_full_log_to_dataframe rt (git_log repo) = Ok full_log_df ->
  result (get_blob_hashes_for_commits repo (map Log.commit full_log_df))
  = Ok blob_hashes_df ->
  result (audit_repository rt repo) = Ok (Report final eids) ->
  forall row, In row final ->
    exists ev,
      In ev full_log_df
      /\ Audit.commit row = Log.commit ev
      /\ Audit.filename row = Log.filename ev
      /\ Audit.refs row = Log.refs ev
      /\ Audit.old_filename row = Log.old_filename ev
      /\ Audit.date row = to_date rt (Log.date ev)
      /\ contextualise_git_status rt (PyStr (Log.status ev))
         = Ok (Audit.status row)
      /\ match Audit.blob_hash row with
         | Some h =>
             (exists t, In t blob_hashes_df
                        /\ on_commit_filename ev t = true
                        /\ Tree.blob_hash t = h)
             /\ Audit.eid_occ row
                = Scan.eid_occ (scan_row_of rt repo regex_pattern h)
             /\ Audit.unique_occ row
                = Some (Scan.unique_occ (scan_row_of rt repo regex_pattern h))
             /\ Audit.found_ids row
                = Some (Scan.found_ids (scan_row_of rt repo regex_pattern h))
             /\ match Audit.size_bytes row with
                | Some n =>
                    exists s, In s (git_sizes repo)
                              /\ sz_blob_hash s = h /\ sz_size_bytes s = n
                | None =>
                    forall s, In s (git_sizes repo) -> sz_blob_hash s <> h
                end
         | None =>
             (forall t, In t blob_hashes_df -> on_commit_filename ev t = false)
             /\ Audit.size_bytes row = None
             /\ Audit.eid_occ row = None
             /\ Audit.unique_occ row = None
             /\ Audit.found_ids row = None
         end.
Proof.
  intros Hperm Hlog Htree H row Hrow.
  destruct (audit_repository_inv _ _ H) as (pre & eids0 & Hpre & -> & _).
  apply (Permutation_in _ (Hperm _ Audit.total_occ pre)) in Hrow.
  destruct (unsorted_audit_inv _ _ Hpre)
    as (logs & trees & hits & statuses & Hlog' & Htree' & Hscan & Hst & ->).
  rewrite Hlog in Hlog'. injection Hlog' as <-.
  rewrite Htree in Htree'. injection Htree' as <-.
  apply in_map_iff in Hrow as ([n status] & <- & Hin).
  destruct (traverse_combine _ _ Hst _ _ Hin) as [Hn Hs].
  unfold analyse_file_names in Hn. apply in_map_iff in Hn as (j & <- & Hj).
  destruct j as [[[ev ot] os] osc].
  cbn [fst snd j_log] in Hs.
  pose proof Hj as Hj3. apply left_join_from in Hj3 as [Hj2 Hsc].
  pose proof Hj2 as Hj2'. apply left_join_from in Hj2' as [Hj1 Hsz].
  pose proof Hj1 as Hj1'. apply left_join_from in Hj1' as [Hev Htr].
  exists ev. unfold finish_row.
  cbn [fst snd j_log j_tree j_size j_scan Audit.commit Audit.filename
       Audit.refs Audit.old_filename Audit.date Audit.status Audit.blob_hash
       Audit.eid_occ Audit.unique_occ Audit.found_ids Audit.size_bytes].
  do 6 (split; [reflexivity || assumption|]). split; [exact Hs|].
  destruct ot as [t|]; cbn [option_map].
  - destruct (Htr t eq_refl) as [Ht Hon].
    split; [exists t; auto|].
    (* the scan of this blob is in the table of hits *)
    pose proof (analyze_rows _ _ _ _ Hscan) as Ehits.
    assert (Hcol : In (Tree.blob_hash t)
                     (unique text_eqb
                        (dropna
                           (map (fun r => merged_blob_hash (fst r))
                              (left_join
                                 (on_blob_hash merged_blob_hash sz_blob_hash)
                                 (left_join on_commit_filename full_log_df
                                    blob_hashes_df)
                                 (git_sizes repo)))))).
    { apply (unique_in text_eqb text_eqb_eq). apply dropna_in.
      apply in_map_iff. exists ((ev, Some t), os). split; [reflexivity|].
      exact Hj2. }
    assert (Hosc : osc = Some (scan_row_of rt repo regex_pattern
                                 (Tree.blob_hash t))).
    { destruct osc as [s|].
      - destruct (Hsc s eq_refl) as [Hs' Hon'].
        apply on_blob_hash_true in Hon'. cbn in Hon'. injection Hon' as E.
        rewrite Ehits in Hs'. apply in_map_iff in Hs' as (h & <- & _).
        simpl in E. now subst h.
      - exfalso.
        pose proof (left_join_none _ _ _ _ Hj
                      (scan_row_of rt repo regex_pattern (Tree.blob_hash t)))
          as Hnone.
        rewrite Ehits in Hnone.
        assert (F : on_blob_hash
                      (fun r : Log.row * option Tree.row * option size_record =>
                         merged_blob_hash (fst r))
                      Scan.blob_hash ((ev, Some t), os)
                      (scan_row_of rt repo regex_pattern (Tree.blob_hash t))
                    = false).
        { apply Hnone. apply in_map_iff. now exists (Tree.blob_hash t). }
        assert (G : on_blob_hash
                      (fun r : Log.row * option Tree.row * option size_record =>
                         merged_blob_hash (fst r))
                      Scan.blob_hash ((ev, Some t), os)
                      (scan_row_of rt repo regex_pattern (Tree.blob_hash t))
                    = true)
          by (apply on_blob_hash_true; reflexivity).
        congruence. }
    subst osc. cbn [option_map].
    split; [reflexivity|]. split; [reflexivity|]. split; [reflexivity|].
    destruct os as [s|]; cbn [option_map].
    + destruct (Hsz s eq_refl) as [Hs' Hon'].
      apply on_blob_hash_true in Hon'. cbn in Hon'. injection Hon' as E.
      exists s. auto.
    + intros s Hs' E.
      pose proof (left_join_none _ _ _ _ Hj2 s Hs') as F.
      assert (G : on_blob_hash merged_blob_hash sz_blob_hash (ev, Some t) s
                  = true)
        by (apply on_blob_hash_true; cbn; now rewrite E).
      congruence.
  - split; [exact (left_join_none _ _ _ _ Hj1)|].
    assert (Eos : os = None).
    { destruct os as [s|]; [|reflexivity].
      destruct (Hsz s eq_refl) as [_ Hon'].
      apply on_blob_hash_true in Hon'. discriminate. }
    assert (Eosc : osc = None).
    { destruct osc as [s|]; [|reflexivity].
      destruct (Hsc s eq_refl) as [_ Hon'].
      apply on_blob_hash_true in Hon'. discriminate. }
    subst os osc. repeat split.
Qed.

Lemma final_rows_trace_to_events_witness :
  sort_values_permutes small_runtime
  /\ parse_full_log_to_dataframe small_runtime (git_log small_repo)
     = Ok small_log_df
  /\ result (get_blob_hashes_for_commits small_repo
               (map Log.commit small_log_df)) = Ok small_blob_hashes_df
  /\ result (audit_repository small_runtime small_repo)
     = Ok (Report (fst small_final_stable) (snd small_final_stable))
  /\ forall row, In row (fst small_final_stable) ->
       exists ev, In ev small_log_df
                  /\ Audit.filename row = Log.filename ev.
Proof.
  split; [apply small_runtime_permutes|].
  split; [exact small_log_parsed|].
  split; [exact small_trees_listed|].
  split; [exact small_audit_stable|].
  intros row Hrow.
  destruct (@final_rows_trace_to_events small_runtime small_repo
              _ _ _ _ small_runtime_permutes small_log_parsed
              small_trees_listed small_audit_stable row Hrow)
    as (ev & Hev & _ & Hf & _).
  exists ev. auto.
Defined.

Lemma filter_key_nodup (R : Type) (key : R -> text) (right : list R)
      (o : option text) :
  NoDup (map key right) ->
  length (filter (fun r => opt_text_eqb o (Some (key r))) right) <= 1.
Proof.
  induction right as [|x right IH]; cbn [map filter]; intros ND;
    [simpl; lia|].
  inversion ND as [|? ? Hnin ND']; subst.
  destruct (opt_text_eqb o (Some (key x))) eqn:E.
  - rewrite filter_none; [simpl; lia|].
    intros z Hz. destruct (opt_text_eqb o (Some (key z))) eqn:Ez;
      [|reflexivity].
    destruct o as [h|]; [|discriminate]. simpl in E, Ez.
    apply text_eqb_eq in E. apply text_eqb_eq in Ez.
    destruct Hnin. apply in_map_iff. exists z. split; [congruence|exact Hz].
  - now apply IH.
Qed.

(** X18.  When no commit's tree lists a path twice and no blob has two
    size records, the final table has exactly one row for each change
    event of the log. *)
Theorem one_row_per_change_event (rt : runtime) (repo : repository)
        (full_log_df : list Log.row) (blob_hashes_df : list Tree.row)
        (final : list Audit.row) (eids : dict) :
  sort_values_permutes rt ->
  parse_full_log_to_dataframe rt (git_log repo) = Ok full_log_df ->
  result (get_blob_hashes_for_commits repo (map Log.commit full_log_df))
  = Ok blob_hashes_df ->
  at_most_one on_commit_filename full_log_df blob_hashes_df ->
  NoDup (map sz_blob_hash (git_sizes repo)) ->
  result (audit_repository rt repo) = Ok (Report final eids) ->
  length final = length full_log_df.
Proof.
  intros Hperm Hlog Htree Hone Hsizes H.
  destruct (audit_repository_inv _ _ H) as (pre & eids0 & Hpre & -> & _).
  rewrite (Permutation_length (Hperm _ Audit.total_occ pre)).
  destruct (unsorted_audit_inv _ _ Hpre)
    as (logs & trees & hits & statuses & Hlog' & Htree' & Hscan & Hst & ->).
  rewrite Hlog in Hlog'. injection Hlog' as <-.
  rewrite Htree in Htree'. injection Htree' as <-.
  destruct (traverse_ok _ _ Hst) as [Hlen _].
  rewrite length_map, length_combine, Hlen, Nat.min_id.
  unfold analyse_file_names. rewrite length_map.
  etransitivity; [apply left_join_length|].
  - intros l _. unfold on_blob_hash. apply filter_key_nodup.
    rewrite (analyze_rows _ _ _ _ Hscan), scan_rows_blob_hash.
    apply (unique_nodup text_eqb text_eqb_eq).
  - etransitivity; [apply left_join_length|].
    + intros l _. unfold on_blob_hash. now apply filter_key_nodup.
    + now apply left_join_length.
Qed.

Lemma small_trees_at_most_one :
  at_most_one on_commit_filename small_log_df small_blob_hashes_df.
Proof.
  intros l [<-|[<-|[<-|[<-|[]]]]]; vm_compute; lia.
Qed.

Lemma small_sizes_nodup : NoDup (map sz_blob_hash (git_sizes small_repo)).
Proof.
  apply NoDup_cons; [|apply NoDup_cons; [|apply NoDup_nil]].
  - simpl. intros [H|[]]. discriminate H.
  - simpl. intros [].
Qed.

Lemma one_row_per_change_event_witness :
  sort_values_permutes small_runtime
  /\ parse_full_log_to_dataframe small_runtime (git_log small_repo)
     = Ok small_log_df
  /\ result (get_blob_hashes_for_commits small_repo
               (map Log.commit small_log_df)) = Ok small_blob_hashes_df
  /\ at_most_one on_commit_filename small_log_df small_blob_hashes_df
  /\ NoDup (map sz_blob_hash (git_sizes small_repo))
  /\ result (audit_repository small_runtime small_repo)
     = Ok (Report (fst small_final_stable) (snd small_final_stable))
  /\ length (fst small_final_stable) = length small_log_df.
Proof.
  split; [apply small_runtime_permutes|].
  split; [exact small_log_parsed|].
  split; [exact small_trees_listed|].
  split; [exact small_trees_at_most_one|].
  split; [exact small_sizes_nodup|].
  split; [exact small_audit_stable|].
  apply (@one_row_per_change_event small_runtime small_repo
           _ _ _ _ small_runtime_permutes small_log_parsed
           small_trees_listed small_trees_at_most_one small_sizes_nodup
           small_audit_stable).
Defined.

(** ** The repository URL *)

Lemma split_on_nonempty (sep : char) (t : text) : split_on sep t <> [].
Proof.
  destruct t as [|c t]; simpl; [discriminate|].
  destruct (c =? sep)%N; [discriminate|].
  destruct (split_on sep t); discriminate.
Qed.

Lemma split_on_app_sep (sep : char) (a b : text) :
  split_on sep (a ++ sep :: b) = split_on sep a ++ split_on sep b.
Proof.
  induction a as [|c a IH]; cbn [app split_on].
  - now rewrite N.eqb_refl.
  - rewrite IH. destruct (c =? sep)%N; [reflexivity|].
    pose proof (split_on_nonempty sep a) as Hne.
    destruct (split_on sep a) as [|f fs]; [congruence|reflexivity].
Qed.

Lemma index_from_end_last (A : Type) (l : list A) (a b : A) :
  index_from_end (l ++ [a; b]) 1 = Ok b
  /\ index_from_end (l ++ [a; b]) 2 = Ok a.
Proof.
  unfold index_from_end, index. rewrite length_app. cbn [length].
  replace (1 <=? 1) with true by reflexivity.
  replace (1 <=? 2) with true by reflexivity.
  destruct (Nat.leb_spec 1 (length l + 2)); [|lia].
  destruct (Nat.leb_spec 2 (length l + 2)); [|lia].
  cbn [andb].
  replace (length l + 2 - 1) with (length l + 1) by lia.
  replace (length l + 2 - 2) with (length l + 0) by lia.
  rewrite !nth_error_app2 by lia.
  replace (length l + 1 - length l) with 1 by lia.
  replace (length l + 0 - length l) with 0 by lia.
  split; reflexivity.
Qed.

Lemma split_on_owner_repo (base owner repo : text) :
  no_slash owner = true -> no_slash repo = true ->
  split_on (ch "/") (base ++ str "/" ++ owner ++ str "/" ++ repo)
  = split_on (ch "/") base ++ [owner; repo].
Proof.
  intros Ho Hr.
  change (str "/" ++ owner ++ str "/" ++ repo)
    with (ch "/" :: owner ++ ch "/" :: repo).
  rewrite split_on_app_sep, split_on_app_sep.
  now rewrite (split_on_last _ _ Ho), (split_on_last _ _ Hr).
Qed.

Lemma extract_owner_repo_url_parts (base owner repo : text) :
  no_slash owner = true -> no_slash repo = true ->
  extract_owner_repo (base ++ str "/" ++ owner ++ str "/" ++ repo)
  = ([], Ok (Some owner, Some repo)).
Proof.
  intros Ho Hr. unfold extract_owner_repo.
  rewrite split_on_owner_repo by assumption.
  destruct (index_from_end_last (split_on (ch "/") base) owner repo)
    as [-> ->].
  reflexivity.
Qed.

(** X19.  [extract_owner_repo] never raises.  For a URL that ends in
    /owner/repo it returns the two names; for a text without a slash it
    prints its message and returns (None, None). *)
Theorem extract_owner_repo_reads_url :
  (forall base owner repo,
     no_slash owner = true -> no_slash repo = true ->
     extract_owner_repo (base ++ str "/" ++ owner ++ str "/" ++ repo)
     = ([], Ok (Some owner, Some repo)))
  /\ (forall url,
        no_slash url = true ->
        extract_owner_repo url
        = ([Printed (str "Failed to extract owner/repo from URL: " ++ url)],
           Ok (None, None)))
  /\ (forall url, exists r, result (extract_owner_repo url) = Ok r).
Proof.
  split; [|split].
  - intros base owner repo Ho Hr.
    now apply extract_owner_repo_url_parts.
  - intros url H. unfold extract_owner_repo.
    rewrite (split_on_last _ _ H). reflexivity.
  - intros url. unfold extract_owner_repo, index_from_end, index.
    set (parts := split_on (ch "/") url).
    destruct ((1 <=? 2) && (2 <=? length parts)) eqn:E2.
    + apply andb_true_iff in E2 as [_ L2]. apply Nat.leb_le in L2.
      destruct (nth_error parts (length parts - 2)) as [o|] eqn:N2.
      * replace ((1 <=? 1) && (1 <=? length parts)) with true
          by (symmetry; apply andb_true_iff; split; apply Nat.leb_le; lia).
        destruct (nth_error parts (length parts - 1)) as [r|] eqn:N1.
        -- eexists. reflexivity.
        -- apply nth_error_None in N1. lia.
      * apply nth_error_None in N2. lia.
    + eexists. reflexivity.
Qed.

Lemma replace_dot_git (name : text) :
  forallb (fun c => negb (c =? ch ".")%N) name = true ->
  replace (str ".git") [] (name ++ str ".git") = name.
Proof.
  unfold replace. induction name as [|c name IH]; intros H.
  - reflexivity.
  - cbn [forallb] in H. apply andb_true_iff in H as [Hc Hn].
    apply negb_true_iff in Hc.
    cbn [app replace_from].
    replace (startswith (c :: name ++ str ".git") (str ".git")) with false.
    + now rewrite IH.
    + symmetry. cbn -[N.eqb ch]. rewrite N.eqb_sym, Hc. reflexivity.
Qed.

Lemma rstrip_char_keeps (c : char) (t : text) (d : char) :
  (d =? c)%N = false -> rstrip_char c (t ++ [d]) = t ++ [d].
Proof.
  intros H. unfold rstrip_char. rewrite rev_app_distr. cbn [rev app lstrip_char].
  rewrite H. cbn [rev]. now rewrite rev_involutive.
Qed.

(** X20.  For a URL that ends in /owner/name.git, where the name has no
    dot, [audit_repository] takes owner and name as the owner and the
    repo name.  For any URL that ends in a slash the repo name is empty,
    and for a URL without a slash the owner lookup raises IndexError,
    which the function does not catch. *)
Theorem repo_name_and_owner_of_url :
  (forall base owner name,
     no_slash owner = true -> no_slash name = true ->
     forallb (fun c => negb (c =? ch ".")%N) name = true ->
     repo_name_of (base ++ str "/" ++ owner ++ str "/" ++ name ++ str ".git")
     = Ok name
     /\ owner_of (base ++ str "/" ++ owner ++ str "/" ++ name ++ str ".git")
        = Ok owner)
  /\ (forall url, repo_name_of (url ++ str "/") = Ok [])
  /\ (forall url,
        no_slash url = true -> owner_of url = Raised IndexError).
Proof.
  split; [|split].
  - intros base owner name Ho Hn Hd.
    assert (Hng : no_slash (name ++ str ".git") = true).
    { unfold no_slash in *. rewrite forallb_app.
      apply andb_true_iff. split; [exact Hn | reflexivity]. }
    split.
    + unfold repo_name_of. rewrite split_on_owner_repo by assumption.
      destruct (index_from_end_last (split_on (ch "/") base) owner
                  (name ++ str ".git")) as [-> _].
      cbn [obind]. now rewrite replace_dot_git.
    + unfold owner_of.
      replace (base ++ str "/" ++ owner ++ str "/" ++ name ++ str ".git")
        with ((base ++ str "/" ++ owner ++ str "/" ++ name ++ str ".gi")
              ++ [ch "t"])
        by (now rewrite <- !app_assoc).
      rewrite rstrip_char_keeps by reflexivity.
      replace ((base ++ str "/" ++ owner ++ str "/" ++ name ++ str ".gi")
               ++ [ch "t"])
        with (base ++ str "/" ++ owner ++ str "/" ++ name ++ str ".git")
        by (now rewrite <- !app_assoc).
      rewrite split_on_owner_repo by assumption.
      now destruct (index_from_end_last (split_on (ch "/") base) owner
                      (name ++ str ".git")) as [_ ->].
  - intros url. unfold repo_name_of.
    change (url ++ str "/") with (url ++ ch "/" :: []).
    rewrite split_on_app_sep. cbn [split_on].
    pose proof (split_on_nonempty (ch "/") url) as Hne.
    destruct (split_on (ch "/") url) as [|f fs] eqn:E; [congruence|].
    destruct (@exists_last _ (f :: fs) Hne) as (fs' & l & ->).
    rewrite <- app_assoc. cbn [app].
    erewrite (proj1 (index_from_end_last fs' l _)). reflexivity.
  - intros url H. unfold owner_of.
    destruct url as [|c0 url0]; [reflexivity|].
    destruct (@exists_last _ (c0 :: url0)) as (t & d & E); [discriminate|].
    rewrite E in *. clear E.
    assert (Hd : (d =? ch "/")%N = false).
    { unfold no_slash in H. rewrite forallb_app in H.
      apply andb_true_iff in H as [_ H]. cbn [forallb] in H.
      rewrite andb_true_r in H. now apply negb_true_iff in H. }
    rewrite rstrip_char_keeps by assumption.
    rewrite (split_on_last _ _ H). reflexivity.
Qed.

Lemma split_on_trailing_sep (sep : char) (u : text) :
  exists fs l, split_on sep (u ++ [sep]) = fs ++ [l; []].
Proof.
  rewrite split_on_app_sep. cbn [split_on].
  pose proof (split_on_nonempty sep u) as Hne.
  destruct (@exists_last _ (split_on sep u) Hne) as (fs & l & ->).
  exists fs, l. now rewrite <- app_assoc.
Qed.

(** X21.  [run_from_csv] audits a URL that ends in /owner/repo, in the
    directory named after the owner.  It skips a URL that ends in a
    slash with the message that owner and repo could not be parsed, and
    it skips a blank cell without a message. *)
Theorem run_from_csv_skips_trailing_slash :
  (forall cell base owner repo,
     strip cell = base ++ str "/" ++ owner ++ str "/" ++ repo ->
     no_slash owner = true -> no_slash repo = true ->
     owner <> [] -> repo <> [] ->
     csv_url_target cell = ([], Ok (Some (owner, strip cell))))
  /\ (forall cell u,
        strip cell = u ++ str "/" ->
        csv_url_target cell
        = ([Printed (str "Could not parse owner/repo from URL: "
                     ++ strip cell)],
           Ok None))
  /\ (forall cell, strip cell = [] -> csv_url_target cell = ([], Ok None)).
Proof.
  split; [|split].
  - intros cell base owner repo E Ho Hr No Nr.
    unfold csv_url_target. rewrite E.
    destruct (base ++ str "/" ++ owner ++ str "/" ++ repo) as [|c0 r0] eqn:U.
    { destruct base; discriminate. }
    rewrite <- U.
    rewrite extract_owner_repo_url_parts by assumption.
    destruct owner as [|o1 owner]; [congruence|].
    destruct repo as [|r1 repo]; [congruence|].
    reflexivity.
  - intros cell u E. unfold csv_url_target. rewrite E.
    destruct (u ++ str "/") as [|c0 r0] eqn:U.
    { destruct u; discriminate. }
    rewrite <- U. unfold extract_owner_repo.
    destruct (split_on_trailing_sep (ch "/") u) as (fs & l & S).
    change (u ++ str "/") with (u ++ [ch "/"]). rewrite S.
    erewrite (proj1 (index_from_end_last fs l _)).
    erewrite (proj2 (index_from_end_last fs l _)).
    cbn. destruct l; reflexivity.
  - intros cell E. unfold csv_url_target. now rewrite E.
Qed.

Lemma extract_owner_repo_reads_url_witness :
  extract_owner_repo
    (str "https://github.com" ++ str "/" ++ str "UK-Biobank" ++ str "/"
     ++ str "UKB-Git-Audit-Tool")
  = ([], Ok (Some (str "UK-Biobank"), Some (str "UKB-Git-Audit-Tool")))
  /\ extract_owner_repo (str "UKB-Git-Audit-Tool")
     = ([Printed (str "Failed to extract owner/repo from URL: "
                  ++ str "UKB-Git-Audit-Tool")],
        Ok (None, None)).
Proof.
  split.
  - apply (proj1 extract_owner_repo_reads_url); reflexivity.
  - apply (proj1 (proj2 extract_owner_repo_reads_url)); reflexivity.
Defined.

Lemma repo_name_and_owner_of_url_witness :
  (repo_name_of
     (str "https://github.com" ++ str "/" ++ str "UK-Biobank" ++ str "/"
      ++ str "UKB-Git-Audit-Tool" ++ str ".git")
   = Ok (str "UKB-Git-Audit-Tool")
   /\ owner_of
        (str "https://github.com" ++ str "/" ++ str "UK-Biobank" ++ str "/"
         ++ str "UKB-Git-Audit-Tool" ++ str ".git")
      = Ok (str "UK-Biobank"))
  /\ owner_of (str "UKB-Git-Audit-Tool") = Raised IndexError.
Proof.
  split.
  - apply (proj1 repo_name_and_owner_of_url); reflexivity.
  - apply (proj2 (proj2 repo_name_and_owner_of_url)); reflexivity.
Defined.

Lemma run_from_csv_skips_trailing_slash_witness :
  csv_url_target (str " https://github.com/UK-Biobank/UKB-Git-Audit-Tool ")
  = ([], Ok (Some (str "UK-Biobank",
                   strip (str " https://github.com/UK-Biobank/UKB-Git-Audit-Tool "))))
  /\ csv_url_target (str "https://github.com/UK-Biobank/UKB-Git-Audit-Tool/")
     = ([Printed (str "Could not parse owner/repo from URL: "
                  ++ strip (str "https://github.com/UK-Biobank/UKB-Git-Audit-Tool/"))],
        Ok None).
Proof.
  split.
  - apply (proj1 run_from_csv_skips_trailing_slash
             (str " https://github.com/UK-Biobank/UKB-Git-Audit-Tool ")
             (str "https://github.com") (str "UK-Biobank")
             (str "UKB-Git-Audit-Tool"));
      [reflexivity | reflexivity | reflexivity | discriminate | discriminate].
  - apply (proj1 (proj2 run_from_csv_skips_trailing_slash)
             (str "https://github.com/UK-Biobank/UKB-Git-Audit-Tool/")
             (str "https://github.com/UK-Biobank/UKB-Git-Audit-Tool"));
      reflexivity.
Defined.
